(** * Views model and comments model of the workbench

    A shallow embedding of
    - [src/vs/workbench/browser/parts/views/views.ts]
      ([CounterSet], [ViewDescriptorCollection], [ContributableViewsModel],
      [PersistentContributableViewsModel]), and
    - the comments model ([CommentNode], [ResourceWithCommentThreads],
      [CommentsModel]) and the handler of the views extension point
      ([isValidViewDescriptors], [getViewLocation], [showCollapsed] and the
      registration of the views of one entry),
    together with the properties the specification states about them and
    further properties read off the code.

    Conventions.
    - A JavaScript array is a [list]; an index that may be [-1] is a [Z].
    - A [Map<string, V>] that is only read by key is a [gmap string V].
    - A method that mutates [this] and fires events is a function from the
      state to a [result] holding the new state and the events fired, in
      firing order.  A thrown exception is [Throw]; what the method had
      changed or fired before it threw is not represented there.  For
      [move], which rearranges the stored array before its loop can throw,
      [move_fields] gives the fields the call leaves.
    - An object held in a map or an array and mutated through a reference
      (a view state, a resource entry) is updated in place in that map or
      array; no two keys or positions share an object in this code.
    - The numbers that reach this code as [order] and [size] are modelled as
      integers; the comparator's return value is a [jsnum], which adds the
      infinities and NaN that the code itself can produce.  Module
      [AnyNumber] has the comparator, the reconcile pass, the constructors
      and the code that saves and loads the states over orders and sizes
      that are any [jsnum], and [onDidChangeViewDescriptors_any] shows the
      reconcile pass on integers to be that pass on such values. *)

From Stdlib Require Import ZArith Ascii String List Bool Lia.
From stdpp Require Import base option list sorting gmap strings.

Local Open Scope Z_scope.
Local Open Scope string_scope.
Local Open Scope list_scope.

(** ** JavaScript numbers as far as the comparator needs them *)

Inductive jsnum : Type :=
| Num (z : Z)
| PosInf
| NegInf
| NaN.

(** [a - b] *)
Definition num_sub (a b : jsnum) : jsnum :=
  match a, b with
  | Num x, Num y => Num (x - y)
  | Num _, PosInf => NegInf
  | Num _, NegInf => PosInf
  | PosInf, Num _ => PosInf
  | PosInf, NegInf => PosInf
  | NegInf, Num _ => NegInf
  | NegInf, PosInf => NegInf
  | PosInf, PosInf => NaN
  | NegInf, NegInf => NaN
  | NaN, _ => NaN
  | _, NaN => NaN
  end.

(** [a === b] on numbers: NaN is not equal to itself. *)
Definition num_strict_eq (a b : jsnum) : bool :=
  match a, b with
  | Num x, Num y => Z.eqb x y
  | PosInf, PosInf => true
  | NegInf, NegInf => true
  | _, _ => false
  end.

(** [n === 0], [n < 0], [n > 0] *)
Definition num_eq0 (n : jsnum) : bool :=
  match n with Num z => Z.eqb z 0 | _ => false end.

Definition num_lt0 (n : jsnum) : bool :=
  match n with Num z => Z.ltb z 0 | NegInf => true | _ => false end.

Definition num_gt0 (n : jsnum) : bool :=
  match n with Num z => Z.ltb 0 z | PosInf => true | _ => false end.

(** ** Errors and results *)

Inductive error : Type :=
| UnknownView (id : string)          (* Error(`Unknown view ${id}`) *)
| ViewNotFound (id : string)         (* Error(`view descriptor ${id} not found`) *)
| CantToggleVisibility               (* Error(`Can't toggle this view's visibility`) *)
| TypeError                          (* property access on undefined *)
| NonTermination.                    (* a loop that makes no progress *)

Inductive result (A : Type) : Type :=
| Ok (a : A)
| Throw (e : error).
Arguments Ok {A} a.
Arguments Throw {A} e.

#[global] Instance result_ret : MRet result := fun A a => Ok a.

#[global] Instance result_bind : MBind result := fun A B k r =>
  match r with
  | Ok a => k a
  | Throw e => Throw e
  end.

(** ** Helpers of [vs/base/common/arrays] and of the runtime *)

(** Modelled from the spec: [firstIndex] of [vs/base/common/arrays] is
    imported by both source files but is not among them.  The callers use it
    to locate an element by id ("remove matching items by id", "locate its
    resource group by resource-id match") and test the result against [-1]:
    it is the index of the first element satisfying [fn], and [-1] when
    there is none. *)
Fixpoint firstIndex_from {A} (fn : A -> bool) (array : list A) (i : Z) : Z :=
  match array with
  | [] => -1
  | x :: rest => if fn x then i else firstIndex_from fn rest (i + 1)
  end.

(** Modelled from the spec: [firstIndex] itself, counting from [0]. *)
Definition firstIndex {A} (array : list A) (fn : A -> bool) : Z :=
  firstIndex_from fn array 0.

(** [array[i]] for a numeric [i]: [undefined] outside [0 .. length-1]. *)
Definition js_index {A} (array : list A) (i : Z) : option A :=
  if Z.ltb i 0 then None else nth_error array (Z.to_nat i).

(** The start position [Array.prototype.splice] acts on: a negative [start]
    counts from the end, and the position is clamped to [0 .. length]. *)
Definition splice_start {A} (array : list A) (start : Z) : nat :=
  let len := Z.of_nat (length array) in
  if Z.ltb start 0 then Z.to_nat (Z.max (len + start) 0)
  else Z.to_nat (Z.min start len).

(** [array.splice(start, deleteCount, ...items)]: the removed elements and
    the array afterwards. *)
Definition js_splice {A} (array : list A) (start : Z) (deleteCount : nat)
    (items : list A) : list A * list A :=
  let s := splice_start array start in
  (firstn deleteCount (skipn s array),
   firstn s array ++ items ++ skipn deleteCount (skipn s array)).

(** Modelled from the spec: [move] of [vs/base/common/arrays] is imported by
    [views.ts] but is not among the source files.  The spec describes it as
    relocating by "splicing the list": the element at [from] is spliced out
    and spliced back in at [to].  An array without an element at [from]
    yields [undefined], hence the [option]. *)
Definition arrays_move {A} (array : list A) (from to : Z) : list (option A) :=
  let '(removed, rest) := js_splice array from 1 [] in
  snd (js_splice (map Some rest) to 0 [head removed]).

(** ** View descriptors and view states *)

(** A context key expression is opaque to this code: it only asks for the
    keys it mentions and hands it to the context key service. *)
Record ContextKeyExpr : Type := mkExpr {
  expr_serialized : string;
  expr_keys : list string;
}.

Record IViewDescriptor : Type := mkViewDescriptor {
  vd_id : string;
  vd_name : string;
  vd_when : option ContextKeyExpr;
  vd_order : option Z;
  vd_canToggleVisibility : bool;
  vd_collapsed : option bool;
}.

Record IViewState : Type := mkViewState {
  visible : bool;
  collapsed : bool;
  order : option Z;
  size : option Z;
}.

#[global] Instance ContextKeyExpr_eq_dec : EqDecision ContextKeyExpr.
Proof. solve_decision. Defined.

#[global] Instance IViewDescriptor_eq_dec : EqDecision IViewDescriptor.
Proof. solve_decision. Defined.

#[global] Instance IViewState_eq_dec : EqDecision IViewState.
Proof. solve_decision. Defined.

Definition set_visible (v : bool) (s : IViewState) : IViewState :=
  mkViewState v (collapsed s) (order s) (size s).

Definition set_collapsed (c : bool) (s : IViewState) : IViewState :=
  mkViewState (visible s) c (order s) (size s).

Definition set_size (z : Z) (s : IViewState) : IViewState :=
  mkViewState (visible s) (collapsed s) (order s) (Some z).

Definition set_order (z : Z) (s : IViewState) : IViewState :=
  mkViewState (visible s) (collapsed s) (Some z) (size s).

(** ** CounterSet *)

Module CounterSet.

(** [private map = new Map<T, number>()], with [T = string]. *)
Abbreviation t := (gmap string Z).

Definition empty : t := ∅.

(** [this.map.get(value) || 0]: an absent entry and a stored [0] both
    read as [0]. *)
Definition counter (value : string) (s : t) : Z :=
  match s !! value with
  | Some c => if Z.eqb c 0 then 0 else c
  | None => 0
  end.

Definition add (value : string) (s : t) : t :=
  <[value := counter value s + 1]> s.

Definition delete (value : string) (s : t) : bool * t :=
  let counter := counter value s in
  if Z.eqb counter 0 then (false, s)
  else
    let counter := counter - 1 in
    if Z.eqb counter 0 then (true, base.delete value s)
    else (true, <[value := counter]> s).

Definition has (value : string) (s : t) : bool :=
  bool_decide (is_Some (s !! value)).

End CounterSet.

(** ** ViewDescriptorCollection *)

Record IViewItem : Type := mkViewItem {
  viewDescriptor : IViewDescriptor;
  active : bool;
}.

Record ViewDescriptorCollection : Type := mkCollection {
  contextKeys : CounterSet.t;
  items : list IViewItem;
}.

(** [for (const key of viewDescriptor.when.keys()) this.contextKeys.add(key)],
    guarded by [if (viewDescriptor.when)]. *)
Definition add_when_keys (when : option ContextKeyExpr) (s : CounterSet.t)
    : CounterSet.t :=
  match when with
  | Some e => foldl (fun s key => CounterSet.add key s) s (expr_keys e)
  | None => s
  end.

Definition delete_when_keys (when : option ContextKeyExpr) (s : CounterSet.t)
    : CounterSet.t :=
  match when with
  | Some e => foldl (fun s key => snd (CounterSet.delete key s)) s (expr_keys e)
  | None => s
  end.

(** The number of times [_onDidChange.fire()] runs. *)
Definition fire_if (fireChangeEvent : bool) : nat :=
  if fireChangeEvent then 1%nat else 0%nat.

Section Collection.

(** [contextKeyService.contextMatchesRules] *)
Variable contextMatchesRules : ContextKeyExpr -> bool.

Definition isViewDescriptorActive (vd : IViewDescriptor) : bool :=
  match vd_when vd with
  | None => true
  | Some e => contextMatchesRules e
  end.

Fixpoint onViewsRegistered_loop (viewDescriptors : list IViewDescriptor)
    (c : ViewDescriptorCollection) (fireChangeEvent : bool)
    : ViewDescriptorCollection * bool :=
  match viewDescriptors with
  | [] => (c, fireChangeEvent)
  | vd :: rest =>
      let item := mkViewItem vd (isViewDescriptorActive vd) in
      let c' := mkCollection (add_when_keys (vd_when vd) (contextKeys c))
                             (items c ++ [item]) in
      onViewsRegistered_loop rest c' (if active item then true else fireChangeEvent)
  end.

Definition onViewsRegistered (viewDescriptors : list IViewDescriptor)
    (c : ViewDescriptorCollection) : ViewDescriptorCollection * nat :=
  let '(c', fireChangeEvent) := onViewsRegistered_loop viewDescriptors c false in
  (c', fire_if fireChangeEvent).

Fixpoint onContextChanged_loop (its : list IViewItem) (fireChangeEvent : bool)
    : list IViewItem * bool :=
  match its with
  | [] => ([], fireChangeEvent)
  | item :: rest =>
      let active' := isViewDescriptorActive (viewDescriptor item) in
      let fire := if negb (Bool.eqb (active item) active') then true
                  else fireChangeEvent in
      let '(rest', fire') := onContextChanged_loop rest fire in
      (mkViewItem (viewDescriptor item) active' :: rest', fire')
  end.

Definition onContextChanged (c : ViewDescriptorCollection)
    : ViewDescriptorCollection * nat :=
  let '(its, fireChangeEvent) := onContextChanged_loop (items c) false in
  (mkCollection (contextKeys c) its, fire_if fireChangeEvent).

End Collection.

Definition item_has_id (id : string) (i : IViewItem) : bool :=
  String.eqb (vd_id (viewDescriptor i)) id.

Fixpoint onViewsDeregistered_loop (viewDescriptors : list IViewDescriptor)
    (c : ViewDescriptorCollection) (fireChangeEvent : bool)
    : result (ViewDescriptorCollection * bool) :=
  match viewDescriptors with
  | [] => Ok (c, fireChangeEvent)
  | vd :: rest =>
      let index := firstIndex (items c) (item_has_id (vd_id vd)) in
      if Z.eqb index (-1) then onViewsDeregistered_loop rest c fireChangeEvent
      else
        match js_index (items c) index with
        | None => Throw TypeError            (* [item.active] on undefined *)
        | Some item =>
            let c' := mkCollection (delete_when_keys (vd_when vd) (contextKeys c))
                                   (snd (js_splice (items c) index 1 [])) in
            onViewsDeregistered_loop rest c'
              (if active item then true else fireChangeEvent)
        end
  end.

Definition onViewsDeregistered (viewDescriptors : list IViewDescriptor)
    (c : ViewDescriptorCollection) : result (ViewDescriptorCollection * nat) :=
  '(c', fireChangeEvent) ← onViewsDeregistered_loop viewDescriptors c false;
  mret (c', fire_if fireChangeEvent).

(** [get viewDescriptors()] *)
Definition collection_viewDescriptors (c : ViewDescriptorCollection)
    : list IViewDescriptor :=
  map viewDescriptor (List.filter active (items c)).

(** The collection as its constructor leaves it, given what
    [ViewsRegistry.getViews(location)] returns. *)
Definition new_collection (contextMatchesRules : ContextKeyExpr -> bool)
    (registered : list IViewDescriptor) : ViewDescriptorCollection :=
  fst (onViewsRegistered contextMatchesRules registered (mkCollection CounterSet.empty [])).

(** ** ContributableViewsModel *)

(** What the three emitters fire.  [DidAdd] is [IAddedViewDescriptorRef],
    [DidRemove] is [IViewDescriptorRef], [DidMove] is a pair of
    [IViewDescriptorRef]s whose descriptors are [undefined] when the id was
    not found. *)
Inductive ViewEvent : Type :=
| DidAdd (index : nat) (vd : IViewDescriptor) (size : option Z) (collapsed : bool)
| DidRemove (index : nat) (vd : IViewDescriptor)
| DidMove (fromIndex : Z) (fromVd : option IViewDescriptor)
          (toIndex : Z) (toVd : option IViewDescriptor).

Record ContributableViewsModel : Type := mkModel {
  viewDescriptors : list IViewDescriptor;
  viewStates : gmap string IViewState;
}.

(** [this.viewStates.get(v.id).visible] *)
Definition state_visible (states : gmap string IViewState) (vd : IViewDescriptor)
    : result bool :=
  match states !! vd_id vd with
  | Some s => Ok (visible s)
  | None => Throw TypeError
  end.

(** [get visibleViewDescriptors()] *)
Fixpoint visible_filter (states : gmap string IViewState)
    (vds : list IViewDescriptor) : result (list IViewDescriptor) :=
  match vds with
  | [] => Ok []
  | v :: rest =>
      b ← state_visible states v;
      rest' ← visible_filter states rest;
      mret (if b : bool then v :: rest' else rest')
  end.

Definition visibleViewDescriptors (m : ContributableViewsModel)
    : result (list IViewDescriptor) :=
  visible_filter (viewStates m) (viewDescriptors m).

(** What [find] returns: [{ index, visibleIndex, viewDescriptor, state }];
    [state] is whatever [viewStates.get] gave, possibly [undefined]. *)
Record Found : Type := mkFound {
  f_index : nat;
  f_visibleIndex : nat;
  f_viewDescriptor : IViewDescriptor;
  f_state : option IViewState;
}.

Fixpoint find_from (states : gmap string IViewState) (id : string)
    (vds : list IViewDescriptor) (i visibleIndex : nat) : result Found :=
  match vds with
  | [] => Throw (ViewNotFound id)
  | vd :: rest =>
      let state := states !! vd_id vd in
      if String.eqb (vd_id vd) id then Ok (mkFound i visibleIndex vd state)
      else
        match state with
        | None => Throw TypeError                 (* [state.visible] *)
        | Some s =>
            find_from states id rest (S i)
              (if visible s then S visibleIndex else visibleIndex)
        end
  end.

Definition find (m : ContributableViewsModel) (id : string) : result Found :=
  find_from (viewStates m) id (viewDescriptors m) 0 0.

Definition isVisible (m : ContributableViewsModel) (id : string) : result bool :=
  match viewStates m !! id with
  | None => Throw (UnknownView id)
  | Some state => Ok (visible state)
  end.

Definition isCollapsed (m : ContributableViewsModel) (id : string) : result bool :=
  match viewStates m !! id with
  | None => Throw (UnknownView id)
  | Some state => Ok (collapsed state)
  end.

Definition getSize (m : ContributableViewsModel) (id : string)
    : result (option Z) :=
  match viewStates m !! id with
  | None => Throw (UnknownView id)
  | Some state => Ok (size state)
  end.

(** The state object found is the one stored under the descriptor's id, so
    assigning to one of its fields updates that entry of the map. *)
Definition update_state (m : ContributableViewsModel) (vd : IViewDescriptor)
    (s : IViewState) : ContributableViewsModel :=
  mkModel (viewDescriptors m) (<[vd_id vd := s]> (viewStates m)).

Definition setVisible (id : string) (visible' : bool) (m : ContributableViewsModel)
    : result (ContributableViewsModel * list ViewEvent) :=
  f ← find m id;
  if negb (vd_canToggleVisibility (f_viewDescriptor f)) then
    Throw CantToggleVisibility
  else
    match f_state f with
    | None => Throw TypeError                     (* [state.visible] *)
    | Some state =>
        if Bool.eqb (visible state) visible' then Ok (m, [])
        else
          let state' := set_visible visible' state in
          let m' := update_state m (f_viewDescriptor f) state' in
          if visible' then
            Ok (m', [DidAdd (f_visibleIndex f) (f_viewDescriptor f)
                            (size state') (collapsed state')])
          else
            Ok (m', [DidRemove (f_visibleIndex f) (f_viewDescriptor f)])
    end.

Definition setCollapsed (id : string) (collapsed' : bool)
    (m : ContributableViewsModel)
    : result (ContributableViewsModel * list ViewEvent) :=
  f ← find m id;
  match f_state f with
  | None => Throw TypeError
  | Some state =>
      Ok (update_state m (f_viewDescriptor f) (set_collapsed collapsed' state), [])
  end.

Definition setSize (id : string) (size' : Z) (m : ContributableViewsModel)
    : result (ContributableViewsModel * list ViewEvent) :=
  f ← find m id;
  match f_state f with
  | None => Throw TypeError
  | Some state =>
      Ok (update_state m (f_viewDescriptor f) (set_size size' state), [])
  end.

(** The loop of [move]: [this.viewStates.get(this.viewDescriptors[index].id)
    .order = index] for every index.  The array may hold [undefined] after
    [arrays.move], and the map may lack the id. *)
Fixpoint renumber (vds : list (option IViewDescriptor)) (index : Z)
    (states : gmap string IViewState)
    : result (list IViewDescriptor * gmap string IViewState) :=
  match vds with
  | [] => Ok ([], states)
  | None :: _ => Throw TypeError
  | Some vd :: rest =>
      match states !! vd_id vd with
      | None => Throw TypeError
      | Some state =>
          '(rest', states') ←
            renumber rest (index + 1) (<[vd_id vd := set_order index state]> states);
          mret (vd :: rest', states')
      end
  end.

Definition has_id (id : string) (v : IViewDescriptor) : bool :=
  String.eqb (vd_id v) id.

Definition move (from to : string) (m : ContributableViewsModel)
    : result (ContributableViewsModel * list ViewEvent) :=
  let fromIndex := firstIndex (viewDescriptors m) (has_id from) in
  let toIndex := firstIndex (viewDescriptors m) (has_id to) in
  let fromViewDescriptor := js_index (viewDescriptors m) fromIndex in
  let toViewDescriptor := js_index (viewDescriptors m) toIndex in
  let moved := arrays_move (viewDescriptors m) fromIndex toIndex in
  '(vds, states) ← renumber moved 0 (viewStates m);
  mret (mkModel vds states,
        [DidMove fromIndex fromViewDescriptor toIndex toViewDescriptor]).

(** [viewState && viewState.order], then [descriptor.order], then
    [Number.POSITIVE_INFINITY]. *)
Definition resolved_order (states : gmap string IViewState) (a : IViewDescriptor)
    : jsnum :=
  let viewStateA := states !! vd_id a in
  let orderA := match viewStateA with
                | Some s => order s
                | None => None
                end in
  let orderA := match orderA with
                | Some z => Some z
                | None => vd_order a
                end in
  match orderA with
  | Some z => Num z
  | None => PosInf
  end.

(** [a.id < b.id] compares the strings unit by unit. *)
Definition compareViewDescriptors (states : gmap string IViewState)
    (a b : IViewDescriptor) : jsnum :=
  let orderA := resolved_order states a in
  let orderB := resolved_order states b in
  if negb (num_strict_eq orderA orderB) then num_sub orderA orderB
  else if String.eqb (vd_id a) (vd_id b) then Num 0
  else if String.ltb (vd_id a) (vd_id b) then Num (-1) else Num 1.

(** [Array.prototype.sort(compareFn)] is the runtime's.  It is modelled as a
    stable insertion sort that reads the comparator's result by its sign:
    [x] stays in front of [y] unless [compareFn(x, y) > 0]. *)
Fixpoint sort_insert {A} (compareFn : A -> A -> jsnum) (x : A) (l : list A)
    : list A :=
  match l with
  | [] => [x]
  | y :: rest =>
      if num_gt0 (compareFn x y) then y :: sort_insert compareFn x rest
      else x :: l
  end.

Definition js_sort {A} (compareFn : A -> A -> jsnum) (l : list A) : list A :=
  foldr (sort_insert compareFn) [] l.

Record ISplice (A : Type) : Type := mkSplice {
  start : nat;
  deleteCount : nat;
  toInsert : list A;
}.
Arguments mkSplice {A} start deleteCount toInsert.
Arguments start {A} _.
Arguments deleteCount {A} _.
Arguments toInsert {A} _.

(** Modelled from the spec: [sortedDiff] of [vs/base/common/arrays] is
    imported by [views.ts] but is not among the source files.  The spec
    calls it "a sequence diff (longest-common-subsequence-style splice list)
    between the previous canonical order and the new canonical order, using
    the same comparator for equality".  It is modelled as the merge walk over
    two sorted arrays: equal heads are kept, a smaller head of [before] is
    deleted, a smaller head of [after] is inserted at the current position of
    [before], and a splice that starts where the latest one ends is merged
    into it.  [result] is kept latest first.  A comparator result that is
    neither zero, negative nor positive (NaN) makes no progress: [None]. *)
Definition pushSplice {A} (result : list (ISplice A)) (start' deleteCount' : nat)
    (toInsert' : list A) : list (ISplice A) :=
  if Nat.eqb deleteCount' 0 && Nat.eqb (length toInsert') 0 then result
  else
    match result with
    | latest :: earlier =>
        if Nat.eqb (start latest + deleteCount latest) start' then
          mkSplice (start latest) (deleteCount latest + deleteCount')
                   (toInsert latest ++ toInsert') :: earlier
        else mkSplice start' deleteCount' toInsert' :: result
    | [] => [mkSplice start' deleteCount' toInsert']
    end.

(** Modelled from the spec: the [while (true)] loop of [sortedDiff], which
    advances [beforeIdx] and [afterIdx]; the arrays from these indices on
    are [before] and [after]. *)
Fixpoint sortedDiff_loop {A} (compare : A -> A -> jsnum) (before : list A)
    (beforeIdx : nat) (after : list A) (result : list (ISplice A))
    {struct before} : option (list (ISplice A)) :=
  match before with
  | [] => Some (pushSplice result beforeIdx 0 after)
  | beforeElement :: before' =>
      (fix scan (after : list A) (result : list (ISplice A)) {struct after}
         : option (list (ISplice A)) :=
         match after with
         | [] => Some (pushSplice result beforeIdx (length before) [])
         | afterElement :: after' =>
             let n := compare beforeElement afterElement in
             if num_eq0 n then
               sortedDiff_loop compare before' (S beforeIdx) after' result
             else if num_lt0 n then
               sortedDiff_loop compare before' (S beforeIdx) after
                 (pushSplice result beforeIdx 1 [])
             else if num_gt0 n then
               scan after' (pushSplice result beforeIdx 0 [afterElement])
             else None
         end) after result
  end.

(** Modelled from the spec: [sortedDiff] itself, with the splices in the
    order it returns them. *)
Definition sortedDiff {A} (before after : list A) (compare : A -> A -> jsnum)
    : option (list (ISplice A)) :=
  match sortedDiff_loop compare before 0 after [] with
  | Some result => Some (rev result)
  | None => None
  end.

(** The first loop of [onDidChangeViewDescriptors]: a default state for
    every descriptor that has none. *)
Definition default_state : IViewState := mkViewState true false None None.

Definition add_default_states (vds : list IViewDescriptor)
    (states : gmap string IViewState) : gmap string IViewState :=
  foldl (fun states vd =>
           match states !! vd_id vd with
           | Some _ => states
           | None => <[vd_id vd := default_state]> states
           end) states vds.

(** The loop over [splice.deleteCount]. *)
Fixpoint remove_events (m : ContributableViewsModel) (startIndex : nat)
    (idx : nat) (count : nat) : result (list ViewEvent) :=
  match count with
  | O => Ok []
  | S count' =>
      match nth_error (viewDescriptors m) idx with
      | None => Throw TypeError                   (* [viewDescriptor.id] *)
      | Some vd =>
          f ← find m (vd_id vd);
          match f_state f with
          | None => Throw TypeError               (* [state.visible] *)
          | Some state =>
              rest ← remove_events m startIndex (S idx) count';
              mret (if visible state then DidRemove startIndex vd :: rest
                    else rest)
          end
      end
  end.

(** The loop over [splice.toInsert], with [startIndex++]. *)
Fixpoint add_events (states : gmap string IViewState) (startIndex : nat)
    (toInsert' : list IViewDescriptor) : result (list ViewEvent) :=
  match toInsert' with
  | [] => Ok []
  | vd :: rest =>
      match states !! vd_id vd with
      | None => Throw TypeError                   (* [state.visible] *)
      | Some state =>
          if visible state then
            rest' ← add_events states (S startIndex) rest;
            mret (DidAdd startIndex vd (size state) (collapsed state) :: rest')
          else add_events states startIndex rest
      end
  end.

(** The body of [for (const splice of splices)]. *)
Definition splice_events (m : ContributableViewsModel)
    (splice : ISplice IViewDescriptor) : result (list ViewEvent) :=
  startIndex ←
    match nth_error (viewDescriptors m) (start splice) with
    | Some startViewDescriptor =>
        f ← find m (vd_id startViewDescriptor); mret (f_visibleIndex f)
    | None => mret (length (viewDescriptors m))
    end;
  removes ← remove_events m startIndex (start splice) (deleteCount splice);
  adds ← add_events (viewStates m) startIndex (toInsert splice);
  mret (removes ++ adds).

Fixpoint splices_events (m : ContributableViewsModel)
    (splices : list (ISplice IViewDescriptor)) : result (list ViewEvent) :=
  match splices with
  | [] => Ok []
  | splice :: rest =>
      evs ← splice_events m splice;
      evs' ← splices_events m rest;
      mret (evs ++ evs')
  end.

(** The reconcile pass. *)
Definition onDidChangeViewDescriptors (viewDescriptors' : list IViewDescriptor)
    (m : ContributableViewsModel)
    : result (ContributableViewsModel * list ViewEvent) :=
  let sorted := js_sort (compareViewDescriptors (viewStates m)) viewDescriptors' in
  let states := add_default_states sorted (viewStates m) in
  let m1 := mkModel (viewDescriptors m) states in
  match sortedDiff (viewDescriptors m) sorted (compareViewDescriptors states) with
  | None => Throw NonTermination
  | Some diff =>
      events ← splices_events m1 (rev diff);
      mret (mkModel sorted states, events)
  end.

(** The constructor: an empty list, the given states, and one reconcile
    pass over the collection's active descriptors. *)
Definition new_model (active_descriptors : list IViewDescriptor)
    (viewStates' : gmap string IViewState)
    : result (ContributableViewsModel * list ViewEvent) :=
  onDidChangeViewDescriptors active_descriptors (mkModel [] viewStates').

(** ** PersistentContributableViewsModel *)

Inductive StorageScope : Type := GLOBAL | WORKSPACE.

Inductive WorkbenchState : Type := EMPTY | FOLDER | WORKSPACE_STATE.

(** The values [JSON.stringify] writes and [JSON.parse] reads back.  The
    stored text is represented by the value it denotes. *)
#[warnings="-register-all"] Inductive json : Type :=
| JNull
| JBool (b : bool)
| JNumber (z : Z)
| JString (s : string)
| JArray (elements : list json)
| JObject (members : list (string * json)).

(** [storageService]: one store per scope. *)
Record IStorageService : Type := mkStorage {
  global_store : gmap string json;
  workspace_store : gmap string json;
}.

Definition storage_get (key : string) (scope : StorageScope) (default : json)
    (s : IStorageService) : json :=
  let store := match scope with
               | GLOBAL => global_store s
               | WORKSPACE => workspace_store s
               end in
  match store !! key with
  | Some v => v
  | None => default
  end.

Definition storage_store (key : string) (value : json) (scope : StorageScope)
    (s : IStorageService) : IStorageService :=
  match scope with
  | GLOBAL => mkStorage (<[key := value]> (global_store s)) (workspace_store s)
  | WORKSPACE => mkStorage (global_store s) (<[key := value]> (workspace_store s))
  end.

(** [getWorkbenchState() !== WorkbenchState.EMPTY ? WORKSPACE : GLOBAL] *)
Definition scope_of (w : WorkbenchState) : StorageScope :=
  match w with
  | EMPTY => GLOBAL
  | _ => WORKSPACE
  end.

(** A property of a parsed object. *)
Fixpoint member (name : string) (members : list (string * json)) : option json :=
  match members with
  | [] => None
  | (k, v) :: rest => if String.eqb k name then Some v else member name rest
  end.

(** An [IViewState] as [JSON.stringify] writes it: a property holding
    [undefined] is left out. *)
Definition state_to_json (s : IViewState) : json :=
  JObject ([("visible", JBool (visible s)); ("collapsed", JBool (collapsed s))]
           ++ match order s with Some z => [("order", JNumber z)] | None => [] end
           ++ match size s with Some z => [("size", JNumber z)] | None => [] end).

Definition serialized_to_json (entry : string * IViewState) : json :=
  JObject [("id", JString (fst entry)); ("state", state_to_json (snd entry))].

(** Reading a parsed value at the type the constructor casts it to.  A
    value that does not have the persisted layout is outside that type and
    reads as [None]. *)
Definition json_bool (j : option json) : option bool :=
  match j with Some (JBool b) => Some b | _ => None end.

Definition json_number (j : option json) : option Z :=
  match j with Some (JNumber z) => Some z | _ => None end.

Definition state_of_json (j : json) : option IViewState :=
  match j with
  | JObject members =>
      v ← json_bool (member "visible" members);
      c ← json_bool (member "collapsed" members);
      Some (mkViewState v c (json_number (member "order" members))
                            (json_number (member "size" members)))
  | _ => None
  end.

Definition serialized_of_json (j : json) : option (string * IViewState) :=
  match j with
  | JObject members =>
      match member "id" members, member "state" members with
      | Some (JString id), Some st => s ← state_of_json st; Some (id, s)
      | _, _ => None
      end
  | _ => None
  end.

(** [for (const { id, state } of serializedViewsStates) viewStates.set(id, state)] *)
Fixpoint load_states (entries : list json) (viewStates' : gmap string IViewState)
    : option (gmap string IViewState) :=
  match entries with
  | [] => Some viewStates'
  | j :: rest =>
      '(id, state) ← serialized_of_json j;
      load_states rest (<[id := state]> viewStates')
  end.

Record PersistentContributableViewsModel : Type := mkPersistent {
  base_model : ContributableViewsModel;
  viewletStateStorageId : string;
  workbenchState : WorkbenchState;
}.

(** The constructor.  [active_descriptors] is what the descriptor collection
    of the location reports when the base constructor runs. *)
Definition new_persistent_model (active_descriptors : list IViewDescriptor)
    (viewletStateStorageId' : string) (storageService : IStorageService)
    (workbenchState' : WorkbenchState)
    : result (PersistentContributableViewsModel * list ViewEvent) :=
  let scope := scope_of workbenchState' in
  let raw := storage_get viewletStateStorageId' scope (JArray []) storageService in
  match raw with
  | JArray serializedViewsStates =>
      match load_states serializedViewsStates ∅ with
      | Some viewStates' =>
          '(m, events) ← new_model active_descriptors viewStates';
          mret (mkPersistent m viewletStateStorageId' workbenchState', events)
      | None => Throw TypeError
      end
  | _ => Throw TypeError
  end.

(** [this.viewStates.forEach((state, id) => serializedViewStates.push({ id, state }))],
    one entry per key of the map. *)
Definition saveViewsStates (p : PersistentContributableViewsModel)
    (storageService : IStorageService) : IStorageService :=
  let serializedViewStates := map_to_list (viewStates (base_model p)) in
  let raw := JArray (map serialized_to_json serializedViewStates) in
  let scope := scope_of (workbenchState p) in
  storage_store (viewletStateStorageId p) raw scope storageService.

(** ** Replaying add and remove events on a list of panels *)

(** A consumer that holds the visible descriptors in order and requires each
    index to be a position of its list: an add at [0 .. length], a remove at
    the position that holds the removed descriptor. *)
Definition replay_event (panels : list IViewDescriptor) (e : ViewEvent)
    : option (list IViewDescriptor) :=
  match e with
  | DidAdd index vd _ _ =>
      if Nat.leb index (length panels)
      then Some (firstn index panels ++ vd :: skipn index panels)
      else None
  | DidRemove index vd =>
      match nth_error panels index with
      | Some vd' =>
          if decide (vd' = vd)
          then Some (firstn index panels ++ skipn (S index) panels)
          else None
      | None => None
      end
  | DidMove _ _ _ _ => Some panels
  end.

Fixpoint replay (panels : list IViewDescriptor) (events : list ViewEvent)
    : option (list IViewDescriptor) :=
  match events with
  | [] => Some panels
  | e :: rest =>
      match replay_event panels e with
      | Some panels' => replay panels' rest
      | None => None
      end
  end.



(** ** Comments model *)

Record IRange : Type := mkRange {
  startLineNumber : Z;
  startColumn : Z;
  endLineNumber : Z;
  endColumn : Z;
}.

Record Comment : Type := mkComment {
  commentId : string;
  body : string;
  userName : string;
}.

Record CommentThread : Type := mkCommentThread {
  ct_threadId : string;
  ct_resource : string;
  ct_range : IRange;
  ct_comments : list Comment;
}.

Record CommentThreadChangedEvent : Type := mkChangedEvent {
  added : list CommentThread;
  removed : list CommentThread;
  changed : list CommentThread;
}.

(** Modelled from the spec: [mergeSort] and [groupBy] of
    [vs/base/common/arrays] are not among the source files.  The spec has
    the comments model "sort/group the flat thread list by resource identity
    string (stable grouping ...)": the data is sorted by a stable sort and
    cut into runs of elements that compare equal to the first element of the
    run.  The comparator returns [-1], [0] or [1]. *)
Fixpoint mergeSort_insert {A} (compare : A -> A -> Z) (x : A) (l : list A)
    : list A :=
  match l with
  | [] => [x]
  | y :: rest =>
      if Z.ltb 0 (compare x y) then y :: mergeSort_insert compare x rest
      else x :: l
  end.

(** Modelled from the spec: [mergeSort], as a stable insertion sort. *)
Definition mergeSort {A} (data : list A) (compare : A -> A -> Z) : list A :=
  foldr (mergeSort_insert compare) [] data.

(** Modelled from the spec: the loop of [groupBy] over the sorted data;
    [result] is kept latest group first. *)
Fixpoint groupBy_loop {A} (compare : A -> A -> Z) (sorted : list A)
    (result : list (list A)) : list (list A) :=
  match sorted with
  | [] => result
  | element :: rest =>
      match result with
      | (first :: others) :: earlier =>
          if negb (Z.eqb (compare first element) 0)
          then groupBy_loop compare rest ([element] :: result)
          else groupBy_loop compare rest ((first :: others ++ [element]) :: earlier)
      | _ => groupBy_loop compare rest ([element] :: result)
      end
  end.

(** Modelled from the spec: [groupBy] itself. *)
Definition groupBy {A} (data : list A) (compare : A -> A -> Z) : list (list A) :=
  rev (groupBy_loop compare (mergeSort data compare) []).

(** A [Map<string, V>] that is iterated: the entries in insertion order;
    setting a key that is present keeps its place. *)
Fixpoint map_set {V} (key : string) (value : V) (m : list (string * V))
    : list (string * V) :=
  match m with
  | [] => [(key, value)]
  | (k, v) :: rest =>
      if String.eqb k key then (k, value) :: rest
      else (k, v) :: map_set key value rest
  end.

Section Comments.

(** [URI] of [vs/base/common/uri], used through [URI.parse] and
    [toString] only. *)
Variable URI : Type.
Variable URI_parse : string -> URI.
Variable URI_toString : URI -> string.

#[warnings="-register-all"] Inductive CommentNode : Type := mkCommentNode {
  threadId : string;
  range : IRange;
  comment : Comment;
  replies : list CommentNode;
  resource : URI;
}.

(** [new CommentNode(threadId, resource, comment, range)] *)
Definition new_CommentNode (threadId' : string) (resource' : URI)
    (comment' : Comment) (range' : IRange) : CommentNode :=
  mkCommentNode threadId' range' comment' [] resource'.

Definition set_replies (replies' : list CommentNode) (n : CommentNode)
    : CommentNode :=
  mkCommentNode (threadId n) (range n) (comment n) replies' (resource n).

Definition hasReply (n : CommentNode) : bool :=
  negb (Nat.eqb (length (replies n)) 0).

(** [commentNodes[0]] is [undefined] for a thread without comments. *)
Definition createCommentNode (resource' : URI) (commentThread : CommentThread)
    : option CommentNode :=
  let commentNodes :=
    map (fun comment' =>
           new_CommentNode (ct_threadId commentThread) resource' comment'
                           (ct_range commentThread))
        (ct_comments commentThread) in
  let commentNodes :=
    if Nat.ltb 1 (length commentNodes) then
      match commentNodes with
      | first :: _ =>
          <[0%nat := set_replies (skipn 1 (firstn (length commentNodes) commentNodes))
                                 first]> commentNodes
      | [] => commentNodes
      end
    else commentNodes in
  head commentNodes.

Record ResourceWithCommentThreads : Type := mkResource {
  id : string;
  commentThreads : list (option CommentNode);
  rw_resource : URI;
}.

Definition new_ResourceWithCommentThreads (resource' : URI)
    (commentThreads' : list CommentThread) : ResourceWithCommentThreads :=
  mkResource (URI_toString resource')
             (map (createCommentNode resource') commentThreads')
             resource'.

Record CommentsModel : Type := mkCommentsModel {
  resourceCommentThreads : list ResourceWithCommentThreads;
}.

Definition new_CommentsModel : CommentsModel := mkCommentsModel [].

Definition _compareURIs (a b : CommentThread) : Z :=
  let resourceA := ct_resource a in
  let resourceB := ct_resource b in
  if String.ltb resourceA resourceB then -1
  else if String.ltb resourceB resourceA then 1
  else 0.

(** The first loop of [addCommentThreads]. *)
Fixpoint groups_to_map (groups : list (list CommentThread))
    (commentThreadsByResource : list (string * ResourceWithCommentThreads))
    : result (list (string * ResourceWithCommentThreads)) :=
  match groups with
  | [] => Ok commentThreadsByResource
  | group :: rest =>
      match group with
      | [] => Throw TypeError                   (* [group[0].resource] *)
      | first :: _ =>
          groups_to_map rest
            (map_set (ct_resource first)
               (new_ResourceWithCommentThreads (URI_parse (ct_resource first)) group)
               commentThreadsByResource)
      end
  end.

Definition addCommentThreads (commentThreads' : list CommentThread)
    (m : CommentsModel) : result CommentsModel :=
  commentThreadsByResource ←
    groups_to_map (groupBy commentThreads' _compareURIs) [];
  mret (mkCommentsModel
          (foldl (fun l entry => l ++ [snd entry]) (resourceCommentThreads m)
                 commentThreadsByResource)).

Definition setCommentThreads (commentThreads' : list CommentThread)
    (m : CommentsModel) : result CommentsModel :=
  addCommentThreads commentThreads' (mkCommentsModel []).

(** [firstIndex(commentThreads, commentThread => commentThread.threadId ===
    threadId)]: the callback throws on an [undefined] element it reaches. *)
Fixpoint thread_index_from (threadId' : string)
    (commentThreads' : list (option CommentNode)) (i : Z) : result Z :=
  match commentThreads' with
  | [] => Ok (-1)
  | None :: _ => Throw TypeError
  | Some n :: rest =>
      if String.eqb (threadId n) threadId' then Ok i
      else thread_index_from threadId' rest (i + 1)
  end.

Definition resource_has_id (id' : string) (r : ResourceWithCommentThreads)
    : bool :=
  String.eqb (id r) id'.

(** The body of [event.removed.forEach]. *)
Definition remove_thread (thread : CommentThread) (m : CommentsModel)
    : result CommentsModel :=
  let matchingResourceIndex :=
    firstIndex (resourceCommentThreads m) (resource_has_id (ct_resource thread)) in
  match js_index (resourceCommentThreads m) matchingResourceIndex with
  | None => Throw TypeError                     (* [matchingResourceData.commentThreads] *)
  | Some matchingResourceData =>
      index ← thread_index_from (ct_threadId thread)
                (commentThreads matchingResourceData) 0;
      let commentThreads' :=
        snd (js_splice (commentThreads matchingResourceData) index 1 []) in
      let matchingResourceData' :=
        mkResource (id matchingResourceData) commentThreads'
                   (rw_resource matchingResourceData) in
      let resources :=
        <[Z.to_nat matchingResourceIndex := matchingResourceData']>
          (resourceCommentThreads m) in
      if Nat.eqb (length commentThreads') 0 then
        mret (mkCommentsModel (snd (js_splice resources matchingResourceIndex 1 [])))
      else mret (mkCommentsModel resources)
  end.

(** The body of [event.changed.forEach].  An assignment at index [-1]
    leaves the elements of the array as they are. *)
Definition change_thread (thread : CommentThread) (m : CommentsModel)
    : result CommentsModel :=
  let matchingResourceIndex :=
    firstIndex (resourceCommentThreads m) (resource_has_id (ct_resource thread)) in
  match js_index (resourceCommentThreads m) matchingResourceIndex with
  | None => Throw TypeError
  | Some matchingResourceData =>
      index ← thread_index_from (ct_threadId thread)
                (commentThreads matchingResourceData) 0;
      let node := createCommentNode (URI_parse (id matchingResourceData)) thread in
      let commentThreads' :=
        if Z.ltb index 0 then commentThreads matchingResourceData
        else <[Z.to_nat index := node]> (commentThreads matchingResourceData) in
      mret (mkCommentsModel
              (<[Z.to_nat matchingResourceIndex :=
                   mkResource (id matchingResourceData) commentThreads'
                              (rw_resource matchingResourceData)]>
                 (resourceCommentThreads m)))
  end.

Fixpoint for_each {A} (f : A -> CommentsModel -> result CommentsModel)
    (l : list A) (m : CommentsModel) : result CommentsModel :=
  match l with
  | [] => Ok m
  | x :: rest => m' ← f x m; for_each f rest m'
  end.

Definition updateCommentThreads (event : CommentThreadChangedEvent)
    (m : CommentsModel) : result CommentsModel :=
  m1 ← for_each remove_thread (removed event) m;
  m2 ← for_each change_thread (changed event) m1;
  addCommentThreads (added event) m2.

Definition hasCommentThreads (m : CommentsModel) : bool :=
  negb (Nat.eqb (length (resourceCommentThreads m)) 0).

End Comments.

Arguments mkCommentNode {URI}.
Arguments threadId {URI}.
Arguments range {URI}.
Arguments comment {URI}.
Arguments replies {URI}.
Arguments resource {URI}.
Arguments mkResource {URI}.
Arguments id {URI}.
Arguments commentThreads {URI}.
Arguments rw_resource {URI}.
Arguments mkCommentsModel {URI}.
Arguments resourceCommentThreads {URI}.
Arguments createCommentNode {URI}.
Arguments new_CommentsModel {URI}.
Arguments hasCommentThreads {URI}.
Arguments new_CommentNode {URI}.
Arguments set_replies {URI}.
Arguments hasReply {URI}.
Arguments new_ResourceWithCommentThreads {URI}.
Arguments groups_to_map {URI}.
Arguments addCommentThreads {URI}.
Arguments setCommentThreads {URI}.
Arguments thread_index_from {URI}.
Arguments resource_has_id {URI}.
Arguments remove_thread {URI}.
Arguments change_thread {URI}.
Arguments for_each {URI A}.
Arguments updateCommentThreads {URI}.


(** ** The context changes a descriptor collection listens to *)

(** Modelled from the spec: [IContextKeyChangeEvent] of
    [vs/platform/contextkey] is not among the source files.  The spec gives
    the event as "[{affectsSome(keySet) → boolean}]" and has the collection
    listen to context changes "filtered to only fire when the changed keys
    intersect [contextKeys]": the event holds the keys that changed, and
    [affectsSome] tells whether the set has one of them. *)
Record IContextKeyChangeEvent : Type := mkContextChange {
  changed_keys : list string;
}.

(** Modelled from the spec: [affectsSome], asking the set through
    [IReadableSet.has]. *)
Definition affectsSome (e : IContextKeyChangeEvent) (keys : CounterSet.t) : bool :=
  existsb (fun key => CounterSet.has key keys) (changed_keys e).

(** [filterEvent(contextKeyService.onDidChangeContext,
    e => e.affectsSome(this.contextKeys))] in front of [onContextChanged]:
    the handler runs for the events that pass the filter.
    [contextMatchesRules] is the context key service after the change. *)
Definition onRelevantContextChange (contextMatchesRules : ContextKeyExpr -> bool)
    (e : IContextKeyChangeEvent) (c : ViewDescriptorCollection)
    : ViewDescriptorCollection * nat :=
  if affectsSome e (contextKeys c) then onContextChanged contextMatchesRules c
  else (c, 0%nat).

(** ** The views extension point *)

(** What the handler of the extension point reports to the message
    collector of an extension: one constructor per [localize] key, with the
    arguments of the message. *)
Inductive ExtensionMessage : Type :=
| requirearray                                   (* error *)
| requirestring (property : string)              (* error *)
| optstring (property : string)                  (* error *)
| duplicateView1 (id location : string)          (* error *)
| duplicateView2 (id location : string)          (* error *)
| ViewContainerDoesnotExist (key : string).      (* warning *)

(** [typeof v === 'string'] for a property that may be absent. *)
Definition typeof_string (v : option json) : bool :=
  match v with
  | Some (JString _) => true
  | _ => false
  end.

(** The truth value JavaScript gives a property that may be absent. *)
Definition js_truthy (v : option json) : bool :=
  match v with
  | None => false
  | Some JNull => false
  | Some (JBool b) => b
  | Some (JNumber z) => negb (Z.eqb z 0)
  | Some (JString s) => negb (String.eqb s "")
  | Some (JArray _) => true
  | Some (JObject _) => true
  end.

(** [descriptor.id], [descriptor.name], [descriptor.when] on a value of a
    contribution: a property of [null] cannot be read, an object gives its
    member, and any other value has no property of these names. *)
Definition get_property (descriptor : json) (name : string) : result (option json) :=
  match descriptor with
  | JNull => Throw TypeError
  | JObject members => Ok (member name members)
  | _ => Ok None
  end.

(** The loop of [isValidViewDescriptors]; the collector is the list of the
    messages reported so far. *)
Fixpoint isValidViewDescriptors_loop (viewDescriptors : list json)
    (collector : list ExtensionMessage) : result (bool * list ExtensionMessage) :=
  match viewDescriptors with
  | [] => Ok (true, collector)
  | descriptor :: rest =>
      id' ← get_property descriptor "id";
      if negb (typeof_string id') then
        Ok (false, collector ++ [requirestring "id"])
      else
        name' ← get_property descriptor "name";
        if negb (typeof_string name') then
          Ok (false, collector ++ [requirestring "name"])
        else
          when' ← get_property descriptor "when";
          if js_truthy when' && negb (typeof_string when') then
            Ok (false, collector ++ [optstring "when"])
          else isValidViewDescriptors_loop rest collector
  end.

Definition isValidViewDescriptors (viewDescriptors : json)
    (collector : list ExtensionMessage) : result (bool * list ExtensionMessage) :=
  match viewDescriptors with
  | JArray descriptors => isValidViewDescriptors_loop descriptors collector
  | _ => Ok (false, collector ++ [requirearray])
  end.

(** [IUserFriendlyViewDescriptor], the type the handler reads a validated
    contribution at; [when] is the property as it was contributed. *)
Record IUserFriendlyViewDescriptor : Type := mkUserFriendly {
  uf_id : string;
  uf_name : string;
  uf_when : option json;
}.

(** [viewIds.indexOf(id)] *)
Fixpoint indexOf_from (array : list string) (searchElement : string) (i : Z) : Z :=
  match array with
  | [] => -1
  | x :: rest =>
      if String.eqb x searchElement then i
      else indexOf_from rest searchElement (i + 1)
  end.

Definition indexOf (array : list string) (searchElement : string) : Z :=
  indexOf_from array searchElement 0.

Section ViewsExtensionPoint.

(** [ViewLocation] of [vs/workbench/common/views], with the three
    locations the handler names, its registry lookup and the views the
    registry holds for a location; locations are compared by identity. *)
Variable ViewLocation : Type.
Context `{EqDecision ViewLocation}.
Variable Explorer Debug SCM : ViewLocation.
Variable ViewLocation_get : string -> option ViewLocation.
Variable location_id : ViewLocation -> string.
Variable getViews : ViewLocation -> list IViewDescriptor.

(** [ContextKeyExpr.deserialize] *)
Variable deserialize : option json -> option ContextKeyExpr.

(** [coalesce] of [vs/base/common/arrays] *)
Variable coalesce : list (option IViewDescriptor) -> list IViewDescriptor.

Definition getViewLocation (value : string) : option ViewLocation :=
  if String.eqb value "explorer" then Some Explorer
  else if String.eqb value "debug" then Some Debug
  else if String.eqb value "scm" then Some SCM
  else ViewLocation_get ("workbench.view.extension." ++ value).

Definition showCollapsed (location : ViewLocation) : bool :=
  if decide (location = Explorer) then true
  else if decide (location = SCM) then true
  else if decide (location = Debug) then true
  else false.

(** [entry.value.map(item => ...)]: the callback reads and extends
    [viewIds] and reports to the collector.  The descriptor it builds has
    no [order]; its [ctor], [location] and [treeViewer] are not read by the
    model of the views. *)
Fixpoint map_items (location : ViewLocation) (registeredViews : list IViewDescriptor)
    (items' : list IUserFriendlyViewDescriptor) (viewIds : list string)
    (collector : list ExtensionMessage)
    : list (option IViewDescriptor) * list ExtensionMessage :=
  match items' with
  | [] => ([], collector)
  | item :: rest =>
      if negb (Z.eqb (indexOf viewIds (uf_id item)) (-1)) then
        let '(mapped, collector') :=
          map_items location registeredViews rest viewIds
            (collector ++ [duplicateView1 (uf_id item) (location_id location)]) in
        (None :: mapped, collector')
      else if existsb (fun v => String.eqb (vd_id v) (uf_id item)) registeredViews then
        let '(mapped, collector') :=
          map_items location registeredViews rest viewIds
            (collector ++ [duplicateView2 (uf_id item) (location_id location)]) in
        (None :: mapped, collector')
      else
        let viewDescriptor :=
          mkViewDescriptor (uf_id item) (uf_name item) (deserialize (uf_when item))
                           None true (Some (showCollapsed location)) in
        let '(mapped, collector') :=
          map_items location registeredViews rest
            (viewIds ++ [vd_id viewDescriptor]) collector in
        (Some viewDescriptor :: mapped, collector')
  end.

(** The body of [forEach(value, entry => ...)] for an entry that passed
    [isValidViewDescriptors]: the location the views go to, the descriptors
    handed to [ViewsRegistry.registerViews], and the collector. *)
Definition register_entry (key : string) (value : list IUserFriendlyViewDescriptor)
    (collector : list ExtensionMessage)
    : ViewLocation * list IViewDescriptor * list ExtensionMessage :=
  let '(location, collector) :=
    match getViewLocation key with
    | Some location => (location, collector)
    | None => (Explorer, collector ++ [ViewContainerDoesnotExist key])
    end in
  let registeredViews := getViews location in
  let '(mapped, collector) := map_items location registeredViews value [] collector in
  (location, coalesce mapped, collector).

End ViewsExtensionPoint.

Arguments getViewLocation {ViewLocation}.
Arguments showCollapsed {ViewLocation} {_}.
Arguments map_items {ViewLocation} {_}.
Arguments register_entry {ViewLocation} {_}.

#[global] Instance jsnum_eq_dec : EqDecision jsnum.
Proof. solve_decision. Defined.

(** ** What [move] leaves behind when it throws *)

(** The fields [viewDescriptors] and [viewStates] of a model as a call
    leaves them.  [arrays.move] rearranges the array in place before the
    loop of [move] runs, and it can put [undefined] into it, which the list
    of a [ContributableViewsModel] cannot hold. *)
Record ModelFields : Type := mkFields {
  fields_viewDescriptors : list (option IViewDescriptor);
  fields_viewStates : gmap string IViewState;
}.

Definition fields_of (m : ContributableViewsModel) : ModelFields :=
  mkFields (map Some (viewDescriptors m)) (viewStates m).

(** The states as the loop of [move] leaves them: each [state.order = index]
    is an assignment to the stored state, and the loop stops, throwing, at
    the first index that holds [undefined] or a descriptor without a
    state. *)
Fixpoint renumber_states (vds : list (option IViewDescriptor)) (index : Z)
    (states : gmap string IViewState) : gmap string IViewState :=
  match vds with
  | [] => states
  | None :: _ => states
  | Some vd :: rest =>
      match states !! vd_id vd with
      | None => states
      | Some state =>
          renumber_states rest (index + 1)
            (<[vd_id vd := set_order index state]> states)
      end
  end.

(** The fields after [move(from, to)], whether it returned or threw. *)
Definition move_fields (from to : string) (m : ContributableViewsModel)
    : ModelFields :=
  let fromIndex := firstIndex (viewDescriptors m) (has_id from) in
  let toIndex := firstIndex (viewDescriptors m) (has_id to) in
  let moved := arrays_move (viewDescriptors m) fromIndex toIndex in
  mkFields moved (renumber_states moved 0 (viewStates m)).

(** [get visibleViewDescriptors()] over such fields: [v.id] on [undefined]
    is a TypeError. *)
Fixpoint fields_visible_filter (states : gmap string IViewState)
    (vds : list (option IViewDescriptor)) : result (list IViewDescriptor) :=
  match vds with
  | [] => Ok []
  | None :: _ => Throw TypeError
  | Some v :: rest =>
      b ← state_visible states v;
      rest' ← fields_visible_filter states rest;
      mret (if b : bool then v :: rest' else rest')
  end.

Definition fields_visibleViewDescriptors (f : ModelFields)
    : result (list IViewDescriptor) :=
  fields_visible_filter (fields_viewStates f) (fields_viewDescriptors f).

(** [find] over such fields: [viewDescriptor.id] on [undefined] is a
    TypeError. *)
Fixpoint fields_find_from (states : gmap string IViewState) (id : string)
    (vds : list (option IViewDescriptor)) (i visibleIndex : nat) : result Found :=
  match vds with
  | [] => Throw (ViewNotFound id)
  | None :: _ => Throw TypeError
  | Some vd :: rest =>
      let state := states !! vd_id vd in
      if String.eqb (vd_id vd) id then Ok (mkFound i visibleIndex vd state)
      else
        match state with
        | None => Throw TypeError
        | Some s =>
            fields_find_from states id rest (S i)
              (if visible s then S visibleIndex else visibleIndex)
        end
  end.

Definition fields_find (f : ModelFields) (id : string) : result Found :=
  fields_find_from (fields_viewStates f) id (fields_viewDescriptors f) 0 0.

(** The elements of an array that holds no [undefined]. *)
Fixpoint all_defined {A} (array : list (option A)) : option (list A) :=
  match array with
  | [] => Some []
  | None :: _ => None
  | Some x :: rest =>
      match all_defined rest with
      | Some rest' => Some (x :: rest')
      | None => None
      end
  end.

(** The reconcile pass over such fields.  Its first loop,
    [for (const viewDescriptor of this.viewDescriptors) ids.add(viewDescriptor.id)],
    reads the id of every element of the stored array before anything else
    happens. *)
Definition fields_onDidChangeViewDescriptors
    (viewDescriptors' : list IViewDescriptor) (f : ModelFields)
    : result (ContributableViewsModel * list ViewEvent) :=
  match all_defined (fields_viewDescriptors f) with
  | Some stored =>
      onDidChangeViewDescriptors viewDescriptors'
        (mkModel stored (fields_viewStates f))
  | None => Throw TypeError
  end.

(** ** Orders and sizes that are any number *)

(** The definitions above take [order] and [size] from the integers.  A
    TypeScript [number] can also be [NaN] or an infinity, and a state read
    back from the store can hold [null] where a number was saved.  This
    module has the descriptors and states with such values, and over them
    the comparator, the reconcile pass as the constructor runs it, and the
    code that saves and loads the states: the same code, read at the wider
    types. *)
Module AnyNumber.

(** The value of an optional numeric property of a state: [undefined], a
    number, or [null]. *)
Inductive property : Type :=
| Undefined
| Null
| Number (n : jsnum).

Record IViewDescriptor : Type := mkViewDescriptor {
  vd_id : string;
  vd_name : string;
  vd_when : option ContextKeyExpr;
  vd_order : option jsnum;
  vd_canToggleVisibility : bool;
  vd_collapsed : option bool;
}.

Record IViewState : Type := mkViewState {
  visible : bool;
  collapsed : bool;
  order : property;
  size : property;
}.

Inductive ViewEvent : Type :=
| DidAdd (index : nat) (vd : IViewDescriptor) (size : property) (collapsed : bool)
| DidRemove (index : nat) (vd : IViewDescriptor)
| DidMove (fromIndex : Z) (fromVd : option IViewDescriptor)
          (toIndex : Z) (toVd : option IViewDescriptor).

Record ContributableViewsModel : Type := mkModel {
  viewDescriptors : list IViewDescriptor;
  viewStates : gmap string IViewState;
}.

Record Found : Type := mkFound {
  f_index : nat;
  f_visibleIndex : nat;
  f_viewDescriptor : IViewDescriptor;
  f_state : option IViewState;
}.

Fixpoint find_from (states : gmap string IViewState) (id : string)
    (vds : list IViewDescriptor) (i visibleIndex : nat) : result Found :=
  match vds with
  | [] => Throw (ViewNotFound id)
  | vd :: rest =>
      let state := states !! vd_id vd in
      if String.eqb (vd_id vd) id then Ok (mkFound i visibleIndex vd state)
      else
        match state with
        | None => Throw TypeError
        | Some s =>
            find_from states id rest (S i)
              (if visible s then S visibleIndex else visibleIndex)
        end
  end.

Definition find (m : ContributableViewsModel) (id : string) : result Found :=
  find_from (viewStates m) id (viewDescriptors m) 0 0.

(** [viewState && viewState.order], then [typeof orderA === 'number' ?
    orderA : a.order], then [typeof orderA === 'number' ? orderA :
    Number.POSITIVE_INFINITY].  [typeof] is ['number'] for every number,
    [NaN] and the infinities included, and for nothing else. *)
Definition resolved_order (states : gmap string IViewState) (a : IViewDescriptor)
    : jsnum :=
  let viewStateA := states !! vd_id a in
  let orderA := match viewStateA with
                | Some s => order s
                | None => Undefined
                end in
  let orderA := match orderA with
                | Number n => Some n
                | _ => vd_order a
                end in
  match orderA with
  | Some n => n
  | None => PosInf
  end.

Definition compareViewDescriptors (states : gmap string IViewState)
    (a b : IViewDescriptor) : jsnum :=
  let orderA := resolved_order states a in
  let orderB := resolved_order states b in
  if negb (num_strict_eq orderA orderB) then num_sub orderA orderB
  else if String.eqb (vd_id a) (vd_id b) then Num 0
  else if String.ltb (vd_id a) (vd_id b) then Num (-1) else Num 1.

Definition default_state : IViewState := mkViewState true false Undefined Undefined.

Definition add_default_states (vds : list IViewDescriptor)
    (states : gmap string IViewState) : gmap string IViewState :=
  foldl (fun states vd =>
           match states !! vd_id vd with
           | Some _ => states
           | None => <[vd_id vd := default_state]> states
           end) states vds.

Fixpoint remove_events (m : ContributableViewsModel) (startIndex : nat)
    (idx : nat) (count : nat) : result (list ViewEvent) :=
  match count with
  | O => Ok []
  | S count' =>
      match nth_error (viewDescriptors m) idx with
      | None => Throw TypeError
      | Some vd =>
          f ← find m (vd_id vd);
          match f_state f with
          | None => Throw TypeError
          | Some state =>
              rest ← remove_events m startIndex (S idx) count';
              mret (if visible state then DidRemove startIndex vd :: rest
                    else rest)
          end
      end
  end.

Fixpoint add_events (states : gmap string IViewState) (startIndex : nat)
    (toInsert' : list IViewDescriptor) : result (list ViewEvent) :=
  match toInsert' with
  | [] => Ok []
  | vd :: rest =>
      match states !! vd_id vd with
      | None => Throw TypeError
      | Some state =>
          if visible state then
            rest' ← add_events states (S startIndex) rest;
            mret (DidAdd startIndex vd (size state) (collapsed state) :: rest')
          else add_events states startIndex rest
      end
  end.

Definition splice_events (m : ContributableViewsModel)
    (splice : ISplice IViewDescriptor) : result (list ViewEvent) :=
  startIndex ←
    match nth_error (viewDescriptors m) (start splice) with
    | Some startViewDescriptor =>
        f ← find m (vd_id startViewDescriptor); mret (f_visibleIndex f)
    | None => mret (length (viewDescriptors m))
    end;
  removes ← remove_events m startIndex (start splice) (deleteCount splice);
  adds ← add_events (viewStates m) startIndex (toInsert splice);
  mret (removes ++ adds).

Fixpoint splices_events (m : ContributableViewsModel)
    (splices : list (ISplice IViewDescriptor)) : result (list ViewEvent) :=
  match splices with
  | [] => Ok []
  | splice :: rest =>
      evs ← splice_events m splice;
      evs' ← splices_events m rest;
      mret (evs ++ evs')
  end.

(** The reconcile pass.  A comparator that returns [NaN] leaves
    [sortedDiff] without progress. *)
Definition onDidChangeViewDescriptors (viewDescriptors' : list IViewDescriptor)
    (m : ContributableViewsModel)
    : result (ContributableViewsModel * list ViewEvent) :=
  let sorted := js_sort (compareViewDescriptors (viewStates m)) viewDescriptors' in
  let states := add_default_states sorted (viewStates m) in
  let m1 := mkModel (viewDescriptors m) states in
  match sortedDiff (viewDescriptors m) sorted (compareViewDescriptors states) with
  | None => Throw NonTermination
  | Some diff =>
      events ← splices_events m1 (rev diff);
      mret (mkModel sorted states, events)
  end.

Definition new_model (active_descriptors : list IViewDescriptor)
    (viewStates' : gmap string IViewState)
    : result (ContributableViewsModel * list ViewEvent) :=
  onDidChangeViewDescriptors active_descriptors (mkModel [] viewStates').

(** [state.size = size] of [setSize], and [state.order = index] of [move]:
    the assignments that put a number into a stored state. *)
Definition set_size (n : jsnum) (s : IViewState) : IViewState :=
  mkViewState (visible s) (collapsed s) (order s) (Number n).

Definition set_order (index : Z) (s : IViewState) : IViewState :=
  mkViewState (visible s) (collapsed s) (Number (Num index)) (size s).

(** A numeric property as [JSON.stringify] writes it: a property that holds
    [undefined] is left out, and [null] is written for [null] and for a
    number that is [NaN] or infinite. *)
Definition property_to_json (name : string) (value : property)
    : list (string * json) :=
  match value with
  | Undefined => []
  | Null => [(name, JNull)]
  | Number (Num z) => [(name, JNumber z)]
  | Number _ => [(name, JNull)]
  end.

Definition state_to_json (s : IViewState) : json :=
  JObject ([("visible", JBool (visible s)); ("collapsed", JBool (collapsed s))]
           ++ property_to_json "order" (order s)
           ++ property_to_json "size" (size s)).

Definition serialized_to_json (entry : string * IViewState) : json :=
  JObject [("id", JString (fst entry)); ("state", state_to_json (snd entry))].

(** A numeric property of a parsed object: [undefined] when the object has
    no such member, [null] or the number when the member holds one.  A
    member that holds anything else is outside the type the constructor
    casts the parsed value to. *)
Definition json_property (j : option json) : option property :=
  match j with
  | None => Some Undefined
  | Some JNull => Some Null
  | Some (JNumber z) => Some (Number (Num z))
  | Some _ => None
  end.

Definition state_of_json (j : json) : option IViewState :=
  match j with
  | JObject members =>
      v ← json_bool (member "visible" members);
      c ← json_bool (member "collapsed" members);
      o ← json_property (member "order" members);
      z ← json_property (member "size" members);
      Some (mkViewState v c o z)
  | _ => None
  end.

Definition serialized_of_json (j : json) : option (string * IViewState) :=
  match j with
  | JObject members =>
      match member "id" members, member "state" members with
      | Some (JString id), Some st => s ← state_of_json st; Some (id, s)
      | _, _ => None
      end
  | _ => None
  end.

(** [for (const { id, state } of serializedViewsStates) viewStates.set(id, state)] *)
Fixpoint load_states (entries : list json) (viewStates' : gmap string IViewState)
    : option (gmap string IViewState) :=
  match entries with
  | [] => Some viewStates'
  | j :: rest =>
      '(id, state) ← serialized_of_json j;
      load_states rest (<[id := state]> viewStates')
  end.

Record PersistentContributableViewsModel : Type := mkPersistent {
  base_model : ContributableViewsModel;
  viewletStateStorageId : string;
  workbenchState : WorkbenchState;
}.

(** The constructor.  It casts what [JSON.parse] returns to
    [ISerializedViewState[]] without a check; a stored value that does not
    have that layout is outside this embedding, which answers [None] for
    it. *)
Definition new_persistent_model (active_descriptors : list IViewDescriptor)
    (viewletStateStorageId' : string) (storageService : IStorageService)
    (workbenchState' : WorkbenchState)
    : option (result (PersistentContributableViewsModel * list ViewEvent)) :=
  let scope := scope_of workbenchState' in
  let raw := storage_get viewletStateStorageId' scope (JArray []) storageService in
  match raw with
  | JArray serializedViewsStates =>
      match load_states serializedViewsStates ∅ with
      | Some viewStates' =>
          Some ('(m, events) ← new_model active_descriptors viewStates';
                mret (mkPersistent m viewletStateStorageId' workbenchState',
                      events))
      | None => None
      end
  | _ => None
  end.

Definition saveViewsStates (p : PersistentContributableViewsModel)
    (storageService : IStorageService) : IStorageService :=
  let serializedViewStates := map_to_list (viewStates (base_model p)) in
  let raw := JArray (map serialized_to_json serializedViewStates) in
  let scope := scope_of (workbenchState p) in
  storage_store (viewletStateStorageId p) raw scope storageService.

End AnyNumber.

(** The descriptors and states above, with integer orders and sizes, among
    those of [AnyNumber]. *)
Definition any_number (z : option Z) : AnyNumber.property :=
  match z with
  | Some z => AnyNumber.Number (Num z)
  | None => AnyNumber.Undefined
  end.

Definition any_descriptor (vd : IViewDescriptor) : AnyNumber.IViewDescriptor :=
  AnyNumber.mkViewDescriptor (vd_id vd) (vd_name vd) (vd_when vd)
    (option_map Num (vd_order vd)) (vd_canToggleVisibility vd) (vd_collapsed vd).

Definition any_state (s : IViewState) : AnyNumber.IViewState :=
  AnyNumber.mkViewState (visible s) (collapsed s)
    (any_number (order s)) (any_number (size s)).

Definition any_event (e : ViewEvent) : AnyNumber.ViewEvent :=
  match e with
  | DidAdd index vd size' collapsed' =>
      AnyNumber.DidAdd index (any_descriptor vd) (any_number size') collapsed'
  | DidRemove index vd => AnyNumber.DidRemove index (any_descriptor vd)
  | DidMove fromIndex fromVd toIndex toVd =>
      AnyNumber.DidMove fromIndex (option_map any_descriptor fromVd)
                        toIndex (option_map any_descriptor toVd)
  end.

Definition any_model (m : ContributableViewsModel)
    : AnyNumber.ContributableViewsModel :=
  AnyNumber.mkModel (map any_descriptor (viewDescriptors m))
                    (any_state <$> viewStates m).

Definition any_found (f : Found) : AnyNumber.Found :=
  AnyNumber.mkFound (f_index f) (f_visibleIndex f)
    (any_descriptor (f_viewDescriptor f)) (option_map any_state (f_state f)).

(** A result carried over by a function on what was returned. *)
Definition result_map {A B} (f : A -> B) (r : result A) : result B :=
  match r with
  | Ok a => Ok (f a)
  | Throw e => Throw e
  end.

(** * Vocabulary of the properties *)

(** ** The order on descriptors *)

(** The sort key of a descriptor: whether its order is infinite, the finite
    order, and the id. *)
Definition order_rank (n : jsnum) : Z * Z :=
  match n with
  | Num z => (0, z)
  | PosInf => (1, 0)
  | NegInf => (-1, 0)
  | NaN => (2, 0)
  end.

Definition rank_lt (p q : Z * Z) : Prop :=
  fst p < fst q \/ (fst p = fst q /\ snd p < snd q).

Definition key_lt (states : gmap string IViewState) (a b : IViewDescriptor) : Prop :=
  rank_lt (order_rank (resolved_order states a)) (order_rank (resolved_order states b))
  \/ (resolved_order states a = resolved_order states b
      /\ String.compare (vd_id a) (vd_id b) = Lt).

Definition key_eq (states : gmap string IViewState) (a b : IViewDescriptor) : Prop :=
  resolved_order states a = resolved_order states b /\ vd_id a = vd_id b.

(** [a] may stand in front of [b]: the comparator does not put [b] first. *)
Definition key_le (states : gmap string IViewState) (a b : IViewDescriptor) : Prop :=
  num_gt0 (compareViewDescriptors states a b) = false.

(** ** Models *)

(** Every descriptor of the stored list has a state. *)
Definition covered (states : gmap string IViewState)
    (vds : list IViewDescriptor) : Prop :=
  Forall (fun vd => is_Some (states !! vd_id vd)) vds.

Definition states_cover (m : ContributableViewsModel) : Prop :=
  covered (viewStates m) (viewDescriptors m).

(** The events a call fired, and the model it left: a call of [setVisible]
    that throws does so before it has changed or fired anything. *)
Definition events_of (r : result (ContributableViewsModel * list ViewEvent))
    : list ViewEvent :=
  match r with
  | Ok (_, events) => events
  | Throw _ => []
  end.

Definition model_after (m : ContributableViewsModel)
    (r : result (ContributableViewsModel * list ViewEvent))
    : ContributableViewsModel :=
  match r with
  | Ok (m', _) => m'
  | Throw _ => m
  end.

(** The public operations that change a model, and the reconcile pass the
    descriptor collection triggers. *)
Inductive Operation : Type :=
| OpSetVisible (id : string) (visible' : bool)
| OpSetCollapsed (id : string) (collapsed' : bool)
| OpSetSize (id : string) (size' : Z)
| OpMove (from to : string)
| OpChangeViewDescriptors (viewDescriptors' : list IViewDescriptor).

Definition run (op : Operation) (m : ContributableViewsModel)
    : result (ContributableViewsModel * list ViewEvent) :=
  match op with
  | OpSetVisible id visible' => setVisible id visible' m
  | OpSetCollapsed id collapsed' => setCollapsed id collapsed' m
  | OpSetSize id size' => setSize id size' m
  | OpMove from to => move from to m
  | OpChangeViewDescriptors vds => onDidChangeViewDescriptors vds m
  end.

(** The visible projection of a list of descriptors, for a state map that
    covers it. *)
Definition is_visible (states : gmap string IViewState) (vd : IViewDescriptor)
    : bool :=
  match states !! vd_id vd with
  | Some s => visible s
  | None => false
  end.

Definition visible_of (states : gmap string IViewState)
    (vds : list IViewDescriptor) : list IViewDescriptor :=
  List.filter (is_visible states) vds.

(** A list with the element [a] of position [i] moved to position [j]. *)
Definition list_move {A} (l : list A) (i j : nat) (a : A) : list A :=
  take j (delete i l) ++ a :: drop j (delete i l).

(** Moving [from] onto [to] and then [to] onto [from] gives back the stored
    order. *)
Definition move_back_restores (m : ContributableViewsModel) (from to : string)
    : Prop :=
  exists m1 events1 m2 events2,
    move from to m = Ok (m1, events1)
    /\ move to from m1 = Ok (m2, events2)
    /\ viewDescriptors m2 = viewDescriptors m.

(** ** Descriptor collections *)

(** Every stored counter of a [CounterSet] is positive: [add] stores at
    least [1], and [delete] removes an entry instead of storing [0]. *)
Definition counterset_wf (s : CounterSet.t) : Prop :=
  forall key c, s !! key = Some c -> 0 < c.

(** How often [key] occurs in a list of keys. *)
Definition occurrences (key : string) (keys : list string) : Z :=
  Z.of_nat (length (List.filter (String.eqb key) keys)).

(** The keys the predicate of an item refers to. *)
Definition item_keys (i : IViewItem) : list string :=
  match vd_when (viewDescriptor i) with
  | Some e => expr_keys e
  | None => []
  end.

Definition item_id (i : IViewItem) : string := vd_id (viewDescriptor i).

(** Whether a batch of descriptors names the item. *)
Definition named_in (batch : list IViewDescriptor) (i : IViewItem) : bool :=
  bool_decide (item_id i ∈ map vd_id batch).

(** A batch delivers the descriptors that were registered: an item with the
    id of a descriptor of the batch holds that descriptor. *)
Definition delivers_registered (batch : list IViewDescriptor)
    (its : list IViewItem) : Prop :=
  forall vd i, vd ∈ batch -> i ∈ its -> item_id i = vd_id vd ->
               viewDescriptor i = vd.

(** ** Groups of comment threads *)

(** The resource a group of comment threads belongs to, and what makes a
    list of threads a group: it is not empty and all its threads are on the
    resource of the first one. *)
Definition group_key (g : list CommentThread) : string :=
  match g with
  | first :: _ => ct_resource first
  | [] => ""
  end.

Definition group_ok (g : list CommentThread) : Prop :=
  g <> [] /\ Forall (fun t => ct_resource t = group_key g) g.

Definition resource_le (a b : CommentThread) : Prop :=
  String.compare (ct_resource a) (ct_resource b) <> Gt.

(** A later group is on a larger resource than an earlier one. *)
Definition key_desc (later earlier : list CommentThread) : Prop :=
  String.compare (group_key earlier) (group_key later) = Lt.

(** The resource entry [addCommentThreads] builds for a group. *)
Definition group_entry {URI : Type} (URI_parse : string -> URI)
    (URI_toString : URI -> string) (g : list CommentThread)
    : ResourceWithCommentThreads URI :=
  new_ResourceWithCommentThreads URI_toString (URI_parse (group_key g)) g.

(** ** Splices and the events of a reconcile pass *)




(** The add events for a run of visible descriptors inserted from
    [index] on, and the remove events for a run of visible descriptors
    removed at [index]. *)
Fixpoint add_list (states : gmap string IViewState) (index : nat)
    (vds : list IViewDescriptor) : list ViewEvent :=
  match vds with
  | [] => []
  | vd :: rest =>
      match states !! vd_id vd with
      | Some s => DidAdd index vd (size s) (collapsed s)
      | None => DidAdd index vd None false
      end :: add_list states (S index) rest
  end.

Definition remove_list (index : nat) (vds : list IViewDescriptor)
    : list ViewEvent :=
  map (DidRemove index) vds.

(** ** Collections, models and comment threads, continued *)

(** The keys the predicates of a list of items refer to, with repetitions. *)
Definition collection_keys (its : list IViewItem) : list string :=
  concat (map item_keys its).

(** The reference counts of a collection are those of its items: every key
    is counted as often as the predicates of the items mention it. *)
Definition keys_counted (c : ViewDescriptorCollection) : Prop :=
  counterset_wf (contextKeys c)
  /\ forall key, CounterSet.counter key (contextKeys c)
                 = occurrences key (collection_keys (items c)).

(** The flag of every item is what its predicate gives in the context. *)
Definition active_current (contextMatchesRules : ContextKeyExpr -> bool)
    (its : list IViewItem) : Prop :=
  Forall (fun i => active i
                   = isViewDescriptorActive contextMatchesRules (viewDescriptor i))
         its.

(** The item [onViewsRegistered] builds for a descriptor. *)
Definition new_item (contextMatchesRules : ContextKeyExpr -> bool)
    (vd : IViewDescriptor) : IViewItem :=
  mkViewItem vd (isViewDescriptorActive contextMatchesRules vd).

(** The keys of a batch of descriptors. *)
Definition batch_keys (batch : list IViewDescriptor) : list string :=
  concat (map (fun vd => match vd_when vd with
                         | Some e => expr_keys e
                         | None => []
                         end) batch).

(** The stored list is in canonical order under the stored states, and its
    ids are pairwise different. *)
Definition canonical (m : ContributableViewsModel) : Prop :=
  Sorted (key_le (viewStates m)) (viewDescriptors m)
  /\ NoDup (map vd_id (viewDescriptors m)).

(** What the store of a scope holds under a key. *)
Definition stored (key : string) (scope : StorageScope) (s : IStorageService)
    : option json :=
  match scope with
  | GLOBAL => global_store s !! key
  | WORKSPACE => workspace_store s !! key
  end.






(** A thread is on the resource [r]. *)
Definition on_resource (r : string) (t : CommentThread) : bool :=
  String.eqb (ct_resource t) r.

(** An earlier group is on a smaller resource than a later one. *)
Definition key_asc (earlier later : list CommentThread) : Prop :=
  String.compare (group_key earlier) (group_key later) = Lt.

(** A node slot that holds a node of another thread than [threadId']. *)
Definition other_thread {URI : Type} (threadId' : string)
    (slot : option (CommentNode URI)) : Prop :=
  exists n, slot = Some n /\ threadId n <> threadId'.

(** A resource entry with its nodes replaced; an entry left without nodes
    is dropped from the list. *)
Definition with_threads {URI : Type} (e : ResourceWithCommentThreads URI)
    (nodes : list (option (CommentNode URI))) : ResourceWithCommentThreads URI :=
  mkResource (id e) nodes (rw_resource e).

Definition entry_unless_empty {URI : Type} (e : ResourceWithCommentThreads URI)
    (nodes : list (option (CommentNode URI)))
    : list (ResourceWithCommentThreads URI) :=
  match nodes with
  | [] => []
  | _ :: _ => [with_threads e nodes]
  end.

(** A contributed view the validation accepts: an object whose [id] and
    [name] are strings and whose [when] is a string, or absent, or a value
    JavaScript takes for false. *)
Definition valid_item (descriptor : json) : Prop :=
  exists members id' name',
    descriptor = JObject members
    /\ member "id" members = Some (JString id')
    /\ member "name" members = Some (JString name')
    /\ (js_truthy (member "when" members) = true ->
        exists when', member "when" members = Some (JString when')).

(** The elements of an array that are not [null], in order. *)
Fixpoint somes {A} (array : list (option A)) : list A :=
  match array with
  | [] => []
  | Some x :: rest => x :: somes rest
  | None :: rest => somes rest
  end.

(** The ids of a list in the order of their first occurrence. *)
Fixpoint first_occurrences (seen ids : list string) : list string :=
  match ids with
  | [] => []
  | x :: rest =>
      if bool_decide (x ∈ seen) then first_occurrences seen rest
      else x :: first_occurrences (seen ++ [x]) rest
  end.

(** ** The fields a call leaves behind *)

(** Every element of the stored array is a descriptor, and it has a
    state. *)
Definition fields_cover (f : ModelFields) : Prop :=
  exists vds,
    fields_viewDescriptors f = map Some vds
    /\ covered (fields_viewStates f) vds.

(** ** The order on descriptors, over every number *)

(** The order the comparator resolves for the descriptor is not [NaN]. *)
Definition ordered (states : gmap string AnyNumber.IViewState)
    (a : AnyNumber.IViewDescriptor) : Prop :=
  AnyNumber.resolved_order states a <> NaN.

Definition any_key_lt (states : gmap string AnyNumber.IViewState)
    (a b : AnyNumber.IViewDescriptor) : Prop :=
  rank_lt (order_rank (AnyNumber.resolved_order states a))
          (order_rank (AnyNumber.resolved_order states b))
  \/ (AnyNumber.resolved_order states a = AnyNumber.resolved_order states b
      /\ String.compare (AnyNumber.vd_id a) (AnyNumber.vd_id b) = Lt).

Definition any_key_eq (states : gmap string AnyNumber.IViewState)
    (a b : AnyNumber.IViewDescriptor) : Prop :=
  AnyNumber.resolved_order states a = AnyNumber.resolved_order states b
  /\ AnyNumber.vd_id a = AnyNumber.vd_id b.

Definition any_key_le (states : gmap string AnyNumber.IViewState)
    (a b : AnyNumber.IViewDescriptor) : Prop :=
  num_gt0 (AnyNumber.compareViewDescriptors states a b) = false.

(** The order restricted to the descriptors whose order is not [NaN]. *)
Definition ordered_le (states : gmap string AnyNumber.IViewState)
    (a b : AnyNumber.IViewDescriptor) : Prop :=
  ordered states a /\ ordered states b /\ any_key_le states a b.

(** What the claim of a strict total order says of one pair of
    descriptors: the comparator has a sign, it is zero only when the ids
    are equal, and of two descriptors with different ids one is strictly in
    front of the other. *)
Definition strictly_ordered_pair (states : gmap string AnyNumber.IViewState)
    (a b : AnyNumber.IViewDescriptor) : Prop :=
  let n := AnyNumber.compareViewDescriptors states a b in
  (num_lt0 n || num_eq0 n || num_gt0 n = true)
  /\ (num_eq0 n = true -> AnyNumber.vd_id a = AnyNumber.vd_id b)
  /\ (AnyNumber.vd_id a <> AnyNumber.vd_id b ->
      num_lt0 n = true
      \/ num_lt0 (AnyNumber.compareViewDescriptors states b a) = true).

(** ** Persisted states, over every number *)

Definition any_covered (states : gmap string AnyNumber.IViewState)
    (vds : list AnyNumber.IViewDescriptor) : Prop :=
  Forall (fun vd => is_Some (states !! AnyNumber.vd_id vd)) vds.

(** What a save and a load keep of a numeric property: a number that is
    [NaN] or infinite comes back as [null]. *)
Definition persisted_property (value : AnyNumber.property) : AnyNumber.property :=
  match value with
  | AnyNumber.Number (Num z) => AnyNumber.Number (Num z)
  | AnyNumber.Number _ => AnyNumber.Null
  | AnyNumber.Null => AnyNumber.Null
  | AnyNumber.Undefined => AnyNumber.Undefined
  end.

Definition persisted_state (s : AnyNumber.IViewState) : AnyNumber.IViewState :=
  AnyNumber.mkViewState (AnyNumber.visible s) (AnyNumber.collapsed s)
    (persisted_property (AnyNumber.order s))
    (persisted_property (AnyNumber.size s)).

(** The property is absent, [null] or a finite number. *)
Definition finite_property (value : AnyNumber.property) : Prop :=
  match value with
  | AnyNumber.Number (Num _) => True
  | AnyNumber.Number _ => False
  | _ => True
  end.

Definition finite_state (s : AnyNumber.IViewState) : Prop :=
  finite_property (AnyNumber.order s) /\ finite_property (AnyNumber.size s).

(** The round trip as the claim states it: the new model holds, for every
    id of the saved map, the state that was saved. *)
Definition roundtrip_identical (p : AnyNumber.PersistentContributableViewsModel)
    (storageService : IStorageService)
    (active_descriptors : list AnyNumber.IViewDescriptor)
    (workbenchState' : WorkbenchState) : Prop :=
  exists p' events,
    AnyNumber.new_persistent_model active_descriptors
      (AnyNumber.viewletStateStorageId p)
      (AnyNumber.saveViewsStates p storageService) workbenchState'
    = Some (Ok (p', events))
    /\ forall id s,
        AnyNumber.viewStates (AnyNumber.base_model p) !! id = Some s ->
        AnyNumber.viewStates (AnyNumber.base_model p') !! id = Some s.

(** The visible projection and the add events of a run of visible
    descriptors, over every number. *)
Definition any_is_visible (states : gmap string AnyNumber.IViewState)
    (vd : AnyNumber.IViewDescriptor) : bool :=
  match states !! AnyNumber.vd_id vd with
  | Some s => AnyNumber.visible s
  | None => false
  end.

Definition any_visible_of (states : gmap string AnyNumber.IViewState)
    (vds : list AnyNumber.IViewDescriptor) : list AnyNumber.IViewDescriptor :=
  List.filter (any_is_visible states) vds.

Fixpoint any_add_list (states : gmap string AnyNumber.IViewState) (index : nat)
    (vds : list AnyNumber.IViewDescriptor) : list AnyNumber.ViewEvent :=
  match vds with
  | [] => []
  | vd :: rest =>
      match states !! AnyNumber.vd_id vd with
      | Some s => AnyNumber.DidAdd index vd (AnyNumber.size s) (AnyNumber.collapsed s)
      | None => AnyNumber.DidAdd index vd AnyNumber.Undefined false
      end :: any_add_list states (S index) rest
  end.

(** A splice of the images of the inserted elements. *)
Definition splice_image {A B} (f : A -> B) (s : ISplice A) : ISplice B :=
  mkSplice (start s) (deleteCount s) (map f (toInsert s)).

(** ** Example data *)

Definition view (id : string) (order' : option Z) (canToggle : bool)
    : IViewDescriptor :=
  mkViewDescriptor id id None order' canToggle None.

Definition view_a : IViewDescriptor := view "a" None true.
Definition view_b : IViewDescriptor := view "b" None true.
Definition view_c : IViewDescriptor := view "c" None true.
Definition view_x : IViewDescriptor := view "x" (Some 2) true.
Definition view_y : IViewDescriptor := view "y" (Some 1) true.

Definition hidden_state : IViewState := mkViewState false false None None.

(** Two threads on one file, and a comments model that holds the first;
    resources are taken as their text. *)
Definition comment_1 : Comment := mkComment "c1" "first" "ann".
Definition comment_2 : Comment := mkComment "c2" "second" "bob".

Definition thread_t1 : CommentThread :=
  mkCommentThread "t1" "file:///a.ts" (mkRange 1 1 1 1) [comment_1; comment_2].

Definition thread_t2 : CommentThread :=
  mkCommentThread "t2" "file:///a.ts" (mkRange 2 1 2 1) [comment_1].

Definition text_uri (s : string) : string := s.

Definition comments_model_t1 : CommentsModel string :=
  mkCommentsModel [group_entry text_uri text_uri [thread_t1]].

(** A view that is shown when the context key [k] holds, and a collection
    built while it does not hold. *)
Definition view_when : IViewDescriptor :=
  mkViewDescriptor "w" "w" (Some (mkExpr "k" ["k"])) None true None.

Definition collection_a_w : ViewDescriptorCollection :=
  new_collection (fun _ => false) [view_a; view_when].

(** [a] with a stored order. *)
Definition states_a_first : gmap string IViewState :=
  <["a" := mkViewState true false (Some 0) None]> ∅.

(** [a] hidden in front of a visible [b]. *)
Definition model_a_hidden : ContributableViewsModel :=
  mkModel [view_a; view_b]
          (<["a" := hidden_state]> (<["b" := default_state]> ∅)).


(** [a] and [b] with [c] between them, all visible. *)
Definition model_a_c_b : ContributableViewsModel :=
  mkModel [view_a; view_c; view_b]
          (add_default_states [view_a; view_c; view_b] ∅).

(** A set that counts [k] once. *)
Definition counterset_k : CounterSet.t := CounterSet.add "k" CounterSet.empty.

(** A context in which the key [k] holds, and the change that made it so. *)
Definition context_k_holds (e : ContextKeyExpr) : bool :=
  bool_decide ("k" ∈ expr_keys e).

Definition change_of_other : IContextKeyChangeEvent := mkContextChange ["other"].

(** A view that is shown when the context key [k] holds, under the id [v]. *)
Definition view_key_k : IViewDescriptor :=
  mkViewDescriptor "v" "v" (Some (mkExpr "k" ["k"])) None true None.

(** [x] in front of [a], both visible, without stored orders: not the
    canonical order. *)
Definition model_x_a : ContributableViewsModel :=
  mkModel [view_x; view_a] (add_default_states [view_x; view_a] ∅).

(** [a] in front of [b], with a stored state for [c], which is not in the
    list. *)
Definition model_a_b_stale_c : ContributableViewsModel :=
  mkModel [view_a; view_b]
          (<["c" := hidden_state]> (add_default_states [view_a; view_b] ∅)).

(** A store that holds view states in the global scope only. *)
Definition storage_global_only : IStorageService :=
  mkStorage (<["views" := JArray [serialized_to_json ("a", hidden_state)]]> ∅) ∅.


(** A view that declares itself collapsed. *)
Definition view_collapsed : IViewDescriptor :=
  mkViewDescriptor "d" "d" None None true (Some true).

(** A thread on another file, and a thread nobody added. *)
Definition thread_t3 : CommentThread :=
  mkCommentThread "t3" "file:///b.ts" (mkRange 3 1 3 1) [comment_2].

Definition thread_unknown : CommentThread :=
  mkCommentThread "t9" "file:///a.ts" (mkRange 9 1 9 1) [comment_1].

(** A comments model that holds [t1] and [t2] on one file. *)
Definition comments_model_t1_t2 : CommentsModel string :=
  mkCommentsModel [group_entry text_uri text_uri [thread_t1; thread_t2]].

(** A resource identifier that [URI.parse] followed by [toString] does not
    give back: the scheme is written in lower case. *)
Definition lower_uri (s : string) : string :=
  if String.eqb s "FILE:///a.ts" then "file:///a.ts" else s.

Definition thread_upper : CommentThread :=
  mkCommentThread "t1" "FILE:///a.ts" (mkRange 1 1 1 1) [comment_1].

(** A contribution with the same id twice and an id that is registered. *)
Definition contributed_items : list IUserFriendlyViewDescriptor :=
  [mkUserFriendly "v1" "One" None; mkUserFriendly "a" "A" None;
   mkUserFriendly "v1" "One again" None; mkUserFriendly "v2" "Two" None].

(** A contribution whose [when] is the number [0]. *)
Definition contribution_when_zero : json :=
  JArray [JObject [("id", JString "v1"); ("name", JString "One");
                   ("when", JNumber 0)]].

(** Descriptors and states over every number. *)
Definition any_view (id : string) (order' : option jsnum)
    : AnyNumber.IViewDescriptor :=
  AnyNumber.mkViewDescriptor id id None order' true None.

Definition view_nan : AnyNumber.IViewDescriptor := any_view "n" (Some NaN).

Definition view_first : AnyNumber.IViewDescriptor := any_view "z" (Some NegInf).

Definition view_three : AnyNumber.IViewDescriptor := any_view "y" (Some (Num 3)).

Definition view_last : AnyNumber.IViewDescriptor := any_view "a" None.

(** The state of a view after [setSize(id, Infinity)]. *)
Definition infinite_size_state : AnyNumber.IViewState :=
  AnyNumber.set_size PosInf AnyNumber.default_state.

Definition any_model_infinite_size : AnyNumber.PersistentContributableViewsModel :=
  AnyNumber.mkPersistent
    (AnyNumber.mkModel [any_view "a" None; any_view "b" None]
       (<["a" := infinite_size_state]>
          (<["b" := AnyNumber.set_order 1 AnyNumber.default_state]> ∅)))
    "viewlet.state" FOLDER.

(** [a] hidden and [b] visible with a size, both without an order. *)
Definition any_model_a_hidden : AnyNumber.ContributableViewsModel :=
  AnyNumber.mkModel [any_view "a" None; any_view "b" None]
    (<["a" := AnyNumber.mkViewState false false AnyNumber.Undefined
                AnyNumber.Undefined]>
       (<["b" := AnyNumber.set_size (Num 120) AnyNumber.default_state]> ∅)).

(** * Properties *)

(** ** Strings *)

Lemma ascii_compare_refl (c : ascii) : Ascii.compare c c = Eq.
Proof. unfold Ascii.compare. apply N.compare_refl. Qed.

Lemma ascii_compare_lt_trans (a b c : ascii) :
  Ascii.compare a b = Lt -> Ascii.compare b c = Lt -> Ascii.compare a c = Lt.
Proof.
  unfold Ascii.compare. rewrite !N.compare_lt_iff. apply N.lt_trans.
Qed.

Lemma string_compare_refl (s : string) : String.compare s s = Eq.
Proof.
  induction s as [|c s IH]; simpl; [reflexivity|].
  rewrite ascii_compare_refl. exact IH.
Qed.

Lemma string_compare_eq (s t : string) : String.compare s t = Eq <-> s = t.
Proof.
  split; [apply String.compare_eq_iff|].
  intros ->. apply string_compare_refl.
Qed.

Lemma string_compare_lt_trans (s t u : string) :
  String.compare s t = Lt -> String.compare t u = Lt -> String.compare s u = Lt.
Proof.
  revert t u. induction s as [|a s IH]; intros [|b t] [|c u]; simpl; try congruence.
  destruct (Ascii.compare a b) eqn:Hab; try discriminate;
    destruct (Ascii.compare b c) eqn:Hbc; try discriminate; intros H1 H2.
  - apply Ascii.compare_eq_iff in Hab, Hbc. subst.
    rewrite ascii_compare_refl. eauto.
  - apply Ascii.compare_eq_iff in Hab. subst. rewrite Hbc. reflexivity.
  - apply Ascii.compare_eq_iff in Hbc. subst. rewrite Hab. reflexivity.
  - rewrite (ascii_compare_lt_trans _ _ _ Hab Hbc). reflexivity.
Qed.

Lemma string_compare_gt_lt (s t : string) :
  String.compare s t = Gt <-> String.compare t s = Lt.
Proof.
  rewrite (String.compare_antisym t s).
  destruct (String.compare s t); simpl; split; congruence.
Qed.

Lemma string_eqb_compare (s t : string) :
  String.eqb s t = true <-> String.compare s t = Eq.
Proof. rewrite String.eqb_eq. symmetry. apply string_compare_eq. Qed.

(** ** The comparator *)

Section Comparator.

Variable states : gmap string IViewState.

Abbreviation cmp := (compareViewDescriptors states).

Lemma resolved_order_cases (a : IViewDescriptor) :
  (exists z, resolved_order states a = Num z) \/ resolved_order states a = PosInf.
Proof.
  unfold resolved_order.
  destruct (states !! vd_id a) as [s|]; [destruct (order s)|];
    try destruct (vd_order a); eauto.
Qed.



Lemma cmp_gt0 (a b : IViewDescriptor) :
  num_gt0 (cmp a b) = true <-> key_lt states b a.
Proof.
  unfold compareViewDescriptors, key_lt, rank_lt.
  destruct (resolved_order_cases a) as [[x ->]| ->];
    destruct (resolved_order_cases b) as [[y ->]| ->]; simpl.
  - destruct (Z.eqb_spec x y) as [->|Hne]; simpl.
    + destruct (String.eqb (vd_id a) (vd_id b)) eqn:He.
      * apply string_eqb_compare in He. apply string_compare_eq in He.
        rewrite He, string_compare_refl. simpl.
        split; [discriminate|]. intros [[?|[_ ?]]|[_ ?]]; try lia. discriminate.
      * unfold String.ltb. rewrite <- string_compare_gt_lt.
        destruct (String.compare (vd_id a) (vd_id b)) eqn:Hc; simpl.
        -- apply string_compare_eq in Hc. apply String.eqb_neq in He. contradiction.
        -- split; [discriminate|]. intros [[?|[_ ?]]|[_ ?]]; try lia. discriminate.
        -- split; auto.
    + rewrite Z.ltb_lt. split; [intros; left; right; lia|].
      intros [[?|[_ ?]]|[? _]]; try lia. congruence.
  - split; [discriminate|]. intros [[?|[? _]]|[? _]]; try lia; discriminate.
  - split; [intros; left; left; lia|reflexivity].
  - destruct (String.eqb (vd_id a) (vd_id b)) eqn:He.
    + apply string_eqb_compare in He. apply string_compare_eq in He.
      rewrite He, string_compare_refl. simpl.
      split; [discriminate|]. intros [[?|[_ ?]]|[_ ?]]; try lia. discriminate.
    + unfold String.ltb. rewrite <- string_compare_gt_lt.
      destruct (String.compare (vd_id a) (vd_id b)) eqn:Hc; simpl.
      * apply string_compare_eq in Hc. apply String.eqb_neq in He. contradiction.
      * split; [discriminate|]. intros [[?|[_ ?]]|[_ ?]]; try lia. discriminate.
      * split; auto.
Qed.

Lemma key_lt_irrefl (a : IViewDescriptor) : ~ key_lt states a a.
Proof.
  unfold key_lt, rank_lt. rewrite string_compare_refl.
  intros [[?|[_ ?]]|[_ ?]]; try lia. discriminate.
Qed.

Lemma key_lt_trans (a b c : IViewDescriptor) :
  key_lt states a b -> key_lt states b c -> key_lt states a c.
Proof.
  unfold key_lt, rank_lt.
  intros [H1|[E1 L1]] [H2|[E2 L2]].
  - left. lia.
  - left. rewrite <- E2. exact H1.
  - left. rewrite E1. exact H2.
  - right. split; [congruence|]. eapply string_compare_lt_trans; eassumption.
Qed.

Lemma key_trichotomy (a b : IViewDescriptor) :
  key_lt states a b \/ key_eq states a b \/ key_lt states b a.
Proof.
  unfold key_lt, key_eq, rank_lt.
  destruct (resolved_order_cases a) as [[x ->]| ->];
    destruct (resolved_order_cases b) as [[y ->]| ->]; simpl;
    try (left; left; lia); try (right; right; left; lia).
  - destruct (Z.lt_trichotomy x y) as [?|[->|?]];
      [left; left; lia| |right; right; left; lia].
    destruct (String.compare (vd_id a) (vd_id b)) eqn:Hc.
    + apply string_compare_eq in Hc. tauto.
    + tauto.
    + apply string_compare_gt_lt in Hc. tauto.
  - destruct (String.compare (vd_id a) (vd_id b)) eqn:Hc.
    + apply string_compare_eq in Hc. tauto.
    + tauto.
    + apply string_compare_gt_lt in Hc. tauto.
Qed.

Lemma key_eq_not_lt (a b : IViewDescriptor) :
  key_eq states a b -> ~ key_lt states a b.
Proof.
  unfold key_eq, key_lt, rank_lt. intros [Ho Hi].
  rewrite Ho, Hi, string_compare_refl.
  intros [[?|[_ ?]]|[_ ?]]; try lia. discriminate.
Qed.

Lemma key_le_iff (a b : IViewDescriptor) :
  key_le states a b <-> key_lt states a b \/ key_eq states a b.
Proof.
  unfold key_le. rewrite <- not_true_iff_false, cmp_gt0.
  split.
  - intros Hn. destruct (key_trichotomy a b) as [?|[?|?]]; tauto.
  - intros [Hl|He] Hg.
    + exact (key_lt_irrefl a (key_lt_trans _ _ _ Hl Hg)).
    + destruct He as [Ho Hi]. apply (key_eq_not_lt b a); [split; congruence|exact Hg].
Qed.

Lemma key_le_trans (a b c : IViewDescriptor) :
  key_le states a b -> key_le states b c -> key_le states a c.
Proof.
  rewrite !key_le_iff. intros [L1|[O1 I1]] [L2|[O2 I2]].
  - left. eapply key_lt_trans; eassumption.
  - left. unfold key_lt in *. rewrite <- O2, <- I2. exact L1.
  - left. unfold key_lt in *. rewrite O1, I1. exact L2.
  - right. split; congruence.
Qed.

Lemma key_le_total (a b : IViewDescriptor) :
  key_le states a b \/ key_le states b a.
Proof.
  rewrite !key_le_iff. destruct (key_trichotomy a b) as [?|[[? ?]|?]]; auto.
  left. right. split; assumption.
Qed.




End Comparator.

(** ** Sorting with the comparator *)

Section Sorting.

Variable states : gmap string IViewState.

Abbreviation cmp := (compareViewDescriptors states).
Abbreviation le := (key_le states).

#[local] Instance key_le_transitive : Transitive le.
Proof. intros a b c. apply key_le_trans. Qed.

Lemma sort_insert_perm (x : IViewDescriptor) (l : list IViewDescriptor) :
  sort_insert cmp x l ≡ₚ x :: l.
Proof.
  induction l as [|y l IH]; simpl; [reflexivity|].
  destruct (num_gt0 (cmp x y)); [|reflexivity].
  rewrite IH. apply Permutation_swap.
Qed.

Lemma js_sort_perm (l : list IViewDescriptor) : js_sort cmp l ≡ₚ l.
Proof.
  induction l as [|x l IH]; simpl; [reflexivity|].
  unfold js_sort in *. simpl. rewrite sort_insert_perm, IH. reflexivity.
Qed.

Lemma sort_insert_hd (x y : IViewDescriptor) (l : list IViewDescriptor) :
  le y x -> HdRel le y l -> HdRel le y (sort_insert cmp x l).
Proof.
  intros Hyx Hhd. destruct l as [|z l]; simpl; [constructor; exact Hyx|].
  destruct (num_gt0 (cmp x z)); constructor; [|exact Hyx].
  inversion Hhd; assumption.
Qed.

Lemma sort_insert_sorted (x : IViewDescriptor) (l : list IViewDescriptor) :
  Sorted le l -> Sorted le (sort_insert cmp x l).
Proof.
  induction 1 as [|y l Hs IH Hhd]; simpl; [repeat constructor|].
  destruct (num_gt0 (cmp x y)) eqn:Hg.
  - constructor; [exact IH|]. apply sort_insert_hd; [|exact Hhd].
    destruct (key_le_total states y x) as [H|H]; [exact H|].
    unfold key_le in H. congruence.
  - constructor; [constructor; assumption|]. constructor. exact Hg.
Qed.

Lemma js_sort_sorted (l : list IViewDescriptor) : Sorted le (js_sort cmp l).
Proof.
  induction l as [|x l IH]; [constructor|].
  unfold js_sort in *. simpl. apply sort_insert_sorted, IH.
Qed.

Lemma js_sort_of_sorted (l : list IViewDescriptor) :
  Sorted le l -> js_sort cmp l = l.
Proof.
  induction 1 as [|x l Hs IH Hhd]; [reflexivity|].
  unfold js_sort in *. simpl. rewrite IH.
  destruct Hhd as [|y l' Hxy]; simpl; [reflexivity|].
  unfold key_le in Hxy. rewrite Hxy. reflexivity.
Qed.

Lemma js_sort_idem (l : list IViewDescriptor) :
  js_sort cmp (js_sort cmp l) = js_sort cmp l.
Proof. apply js_sort_of_sorted, js_sort_sorted. Qed.


End Sorting.

(** ** Lookups under the covering invariant *)

Lemma covered_app (states : gmap string IViewState) (l1 l2 : list IViewDescriptor) :
  covered states (l1 ++ l2) <-> covered states l1 /\ covered states l2.
Proof. unfold covered. apply Forall_app. Qed.

Lemma covered_mono (states states' : gmap string IViewState)
    (vds : list IViewDescriptor) :
  (forall id, is_Some (states !! id) -> is_Some (states' !! id)) ->
  covered states vds -> covered states' vds.
Proof.
  intros Hsub Hc. unfold covered in *. eapply Forall_impl; [exact Hc|].
  intros vd. apply Hsub.
Qed.

Lemma visible_filter_covered (states : gmap string IViewState)
    (vds : list IViewDescriptor) :
  covered states vds -> visible_filter states vds = Ok (visible_of states vds).
Proof.
  induction 1 as [|vd vds [s Hs] _ IH]; [reflexivity|].
  simpl. unfold state_visible, is_visible. rewrite Hs. simpl.
  rewrite IH. simpl. destruct (visible s); reflexivity.
Qed.

Lemma find_from_spec (states : gmap string IViewState) (id : string)
    (vds : list IViewDescriptor) (i vi : nat) :
  covered states vds ->
  match find_from states id vds i vi with
  | Ok f =>
      exists pre post s,
        vds = pre ++ f_viewDescriptor f :: post
        /\ vd_id (f_viewDescriptor f) = id
        /\ Forall (fun d => vd_id d <> id) pre
        /\ f_state f = Some s
        /\ states !! id = Some s
        /\ f_index f = (i + length pre)%nat
        /\ f_visibleIndex f = (vi + length (visible_of states pre))%nat
  | Throw e => e = ViewNotFound id /\ Forall (fun d => vd_id d <> id) vds
  end.
Proof.
  intros Hc. revert i vi.
  induction Hc as [|vd vds [s Hs] _ IH]; intros i vi; simpl.
  - split; [reflexivity|constructor].
  - destruct (String.eqb_spec (vd_id vd) id) as [He|Hne].
    + exists [], vds, s. simpl. rewrite <- He.
      repeat split; auto; lia.
    + rewrite Hs.
      specialize (IH (S i) (if visible s then S vi else vi)).
      destruct (find_from states id vds _ _) as [f|e].
      * destruct IH as (pre & post & s' & -> & Hid & Hpre & Hst & Hlk & Hi & Hvi).
        exists (vd :: pre), post, s'. simpl.
        repeat split; auto; try lia.
        unfold is_visible at 1. rewrite Hs.
        destruct (visible s); simpl; lia.
      * destruct IH as [-> Hall]. split; [reflexivity|]. constructor; assumption.
Qed.

Lemma find_not_type_error (m : ContributableViewsModel) (id : string) :
  states_cover m -> find m id <> Throw TypeError.
Proof.
  intros Hc. unfold find.
  pose proof (find_from_spec (viewStates m) id (viewDescriptors m) 0 0 Hc) as H.
  destruct (find_from _ _ _ _ _) as [f|e]; [discriminate|].
  destruct H as [-> _]. discriminate.
Qed.

Lemma find_present (m : ContributableViewsModel) (id : string) :
  states_cover m -> id ∈ map vd_id (viewDescriptors m) ->
  exists f, find m id = Ok f.
Proof.
  intros Hc Hin. unfold find.
  pose proof (find_from_spec (viewStates m) id (viewDescriptors m) 0 0 Hc) as H.
  destruct (find_from _ _ _ _ _) as [f|e]; [eauto|].
  destruct H as [_ Hall]. exfalso.
  apply list_elem_of_fmap in Hin as (d & -> & Hd).
  rewrite Forall_forall in Hall. exact (Hall d Hd eq_refl).
Qed.



(** ** setVisible *)

Lemma find_from_insert (states : gmap string IViewState) (id : string)
    (s' : IViewState) (vds : list IViewDescriptor) (i vi : nat) (f : Found) :
  find_from states id vds i vi = Ok f ->
  find_from (<[id := s']> states) id vds i vi
  = Ok (mkFound (f_index f) (f_visibleIndex f) (f_viewDescriptor f) (Some s')).
Proof.
  revert i vi. induction vds as [|vd vds IH]; intros i vi; simpl; [discriminate|].
  destruct (String.eqb_spec (vd_id vd) id) as [He|Hne].
  - intros [= <-]. simpl. rewrite He, lookup_insert_eq. reflexivity.
  - rewrite lookup_insert_ne by congruence.
    destruct (states !! vd_id vd) as [s|]; [|discriminate]. apply IH.
Qed.

Lemma find_from_id (states : gmap string IViewState) (id : string)
    (vds : list IViewDescriptor) (i vi : nat) (f : Found) :
  find_from states id vds i vi = Ok f -> vd_id (f_viewDescriptor f) = id.
Proof.
  revert i vi. induction vds as [|vd vds IH]; intros i vi; simpl; [discriminate|].
  destruct (String.eqb_spec (vd_id vd) id) as [He|Hne].
  - intros [= <-]. exact He.
  - destruct (states !! vd_id vd) as [s|]; [|discriminate]. apply IH.
Qed.

Lemma setVisible_found (m : ContributableViewsModel) (id : string) (v : bool)
    (f : Found) (s : IViewState) :
  find m id = Ok f -> f_state f = Some s ->
  setVisible id v m =
    if negb (vd_canToggleVisibility (f_viewDescriptor f))
    then Throw CantToggleVisibility
    else if Bool.eqb (visible s) v then Ok (m, [])
    else Ok (update_state m (f_viewDescriptor f) (set_visible v s),
             [if v then DidAdd (f_visibleIndex f) (f_viewDescriptor f)
                               (size s) (collapsed s)
              else DidRemove (f_visibleIndex f) (f_viewDescriptor f)]).
Proof.
  intros Hf Hs. unfold setVisible. rewrite Hf. simpl. rewrite Hs.
  destruct (negb _); [reflexivity|].
  destruct (Bool.eqb _ _); [reflexivity|]. destruct v; reflexivity.
Qed.

(** ** Default states *)

Lemma add_default_states_cons (vd : IViewDescriptor) (vds : list IViewDescriptor)
    (states : gmap string IViewState) :
  add_default_states (vd :: vds) states
  = add_default_states vds
      (match states !! vd_id vd with
       | Some _ => states
       | None => <[vd_id vd := default_state]> states
       end).
Proof. reflexivity. Qed.

Lemma add_default_states_lookup (vds : list IViewDescriptor)
    (states : gmap string IViewState) (id : string) :
  add_default_states vds states !! id
  = match states !! id with
    | Some s => Some s
    | None => if bool_decide (id ∈ map vd_id vds) then Some default_state else None
    end.
Proof.
  revert states. induction vds as [|vd vds IH]; intros states.
  - simpl. destruct (states !! id); reflexivity.
  - rewrite add_default_states_cons, IH. simpl.
    destruct (decide (vd_id vd = id)) as [<-|Hne].
    + destruct (states !! vd_id vd) as [s|] eqn:Hs.
      * rewrite Hs. reflexivity.
      * rewrite lookup_insert_eq.
        rewrite bool_decide_eq_true_2 by (left). reflexivity.
    + assert (Hlk : (match states !! vd_id vd with
                     | Some _ => states
                     | None => <[vd_id vd := default_state]> states
                     end) !! id = states !! id).
      { destruct (states !! vd_id vd); [reflexivity|].
        apply lookup_insert_ne. exact Hne. }
      rewrite Hlk. destruct (states !! id); [reflexivity|].
      apply (f_equal (fun b : bool => if b then Some default_state else None)).
      apply bool_decide_ext. rewrite elem_of_cons. split; [auto|].
      intros [?|?]; [congruence|assumption].
Qed.


Lemma add_default_states_covers (vds : list IViewDescriptor)
    (states : gmap string IViewState) :
  covered (add_default_states vds states) vds.
Proof.
  unfold covered. apply Forall_forall. intros vd Hin.
  rewrite add_default_states_lookup.
  destruct (states !! vd_id vd); [eauto|].
  rewrite bool_decide_eq_true_2; [eauto|].
  apply list_elem_of_fmap. eauto.
Qed.


Lemma resolved_order_add_default (vds : list IViewDescriptor)
    (states : gmap string IViewState) (a : IViewDescriptor) :
  resolved_order (add_default_states vds states) a = resolved_order states a.
Proof.
  unfold resolved_order. rewrite add_default_states_lookup.
  destruct (states !! vd_id a); [reflexivity|].
  destruct (bool_decide _); reflexivity.
Qed.



(** ** sortedDiff on equal lists *)

Lemma pushSplice_nothing {A} (result : list (ISplice A)) (i : nat) :
  pushSplice result i 0 [] = result.
Proof. reflexivity. Qed.



(** ** Reconcile twice *)

Lemma onDidChangeViewDescriptors_model (vds : list IViewDescriptor)
    (m m' : ContributableViewsModel) (events : list ViewEvent) :
  onDidChangeViewDescriptors vds m = Ok (m', events) ->
  m' = mkModel (js_sort (compareViewDescriptors (viewStates m)) vds)
               (add_default_states
                  (js_sort (compareViewDescriptors (viewStates m)) vds)
                  (viewStates m)).
Proof.
  unfold onDidChangeViewDescriptors.
  destruct (sortedDiff _ _ _) as [diff|]; [|discriminate].
  destruct (splices_events _ _) as [evs|]; [|discriminate].
  simpl. intros [= <- _]. reflexivity.
Qed.



(** ** The covering invariant *)

Lemma renumber_spec (vds : list (option IViewDescriptor)) (index : Z)
    (states : gmap string IViewState) (vds' : list IViewDescriptor)
    (states' : gmap string IViewState) :
  renumber vds index states = Ok (vds', states') ->
  vds = map Some vds'
  /\ (forall id, is_Some (states !! id) <-> is_Some (states' !! id)).
Proof.
  revert index states vds' states'.
  induction vds as [|[vd|] vds IH]; intros index states vds' states'; simpl.
  - intros [= <- <-]. split; [reflexivity|tauto].
  - destruct (states !! vd_id vd) as [s|] eqn:Hs; [|discriminate].
    destruct (renumber vds _ _) as [[rest' st']|] eqn:Hr; [|discriminate].
    simpl. intros [= <- <-].
    apply IH in Hr as [-> Hdom]. split; [reflexivity|].
    intros id. rewrite <- Hdom.
    destruct (decide (vd_id vd = id)) as [<-|Hne].
    + rewrite lookup_insert_eq, Hs. split; eauto.
    + rewrite lookup_insert_ne by exact Hne. tauto.
  - discriminate.
Qed.

Lemma js_splice_perm {A} (l : list A) (start' : Z) (items' : list A) :
  fst (js_splice l start' 1 []) ++ snd (js_splice l start' 1 []) ≡ₚ l.
Proof.
  unfold js_splice. simpl.
  set (s := splice_start l start').
  rewrite Permutation_app_swap_app.
  rewrite (take_drop 1 (drop s l)), (take_drop s l). reflexivity.
Qed.

Lemma js_splice_insert_perm {A} (l : list A) (to : Z) (x : A) :
  snd (js_splice l to 0 [x]) ≡ₚ x :: l.
Proof.
  unfold js_splice. simpl.
  set (s := splice_start l to).
  rewrite drop_0, <- Permutation_middle, (take_drop s l). reflexivity.
Qed.

Lemma arrays_move_elements {A} (l : list A) (from to : Z) (l' : list A) :
  arrays_move l from to = map Some l' -> l' ≡ₚ l.
Proof.
  unfold arrays_move.
  pose proof (js_splice_perm l from []) as Hp.
  destruct (js_splice l from 1 []) as [removed rest] eqn:Hs. simpl in Hp.
  intros Hm.
  pose proof (js_splice_insert_perm (map Some rest) to (head removed)) as Hi.
  rewrite Hm in Hi.
  assert (Hlen : (length removed <= 1)%nat).
  { unfold js_splice in Hs. injection Hs as <- _. rewrite length_take. lia. }
  destruct removed as [|x [|y removed]]; simpl in *; try lia.
  - exfalso.
    assert (Hin : None ∈ map Some l') by (rewrite Hi; left).
    apply list_elem_of_fmap in Hin as (? & ? & _). discriminate.
  - rewrite <- Hp.
    change (Some x :: map Some rest) with (map Some (x :: rest)) in Hi.
    apply Permutation_map_inv in Hi as (l3 & Heq & Hp3).
    apply (inj (fmap Some)) in Heq. subst l3. symmetry. exact Hp3.
Qed.

Lemma covered_perm (states : gmap string IViewState) (l l' : list IViewDescriptor) :
  l ≡ₚ l' -> covered states l -> covered states l'.
Proof. intros Hp. unfold covered. rewrite Hp. auto. Qed.

Lemma move_spec (from to : string) (m m' : ContributableViewsModel)
    (events : list ViewEvent) :
  move from to m = Ok (m', events) ->
  viewDescriptors m' ≡ₚ viewDescriptors m
  /\ (forall id, is_Some (viewStates m !! id) <-> is_Some (viewStates m' !! id)).
Proof.
  unfold move.
  destruct (renumber _ _ _) as [[vds st]|] eqn:Hr; [|discriminate].
  simpl. intros [= <- _]. simpl.
  apply renumber_spec in Hr as [Hm Hdom].
  split; [|exact Hdom].
  eapply arrays_move_elements. exact Hm.
Qed.

Lemma move_keeps_cover (from to : string) (m m' : ContributableViewsModel)
    (events : list ViewEvent) :
  states_cover m -> move from to m = Ok (m', events) -> states_cover m'.
Proof.
  intros Hc Hrun. apply move_spec in Hrun as [Hp Hdom].
  unfold states_cover. eapply covered_perm; [symmetry; exact Hp|].
  eapply covered_mono; [|exact Hc]. intros id. apply Hdom.
Qed.


(** ** move *)

Lemma nth_error_lookup {A} (l : list A) (i : nat) : nth_error l i = l !! i.
Proof.
  revert i. induction l as [|x l IH]; intros [|i]; simpl; auto.
Qed.

Lemma js_index_lookup {A} (l : list A) (i : nat) :
  js_index l (Z.of_nat i) = l !! i.
Proof.
  unfold js_index. destruct (Z.ltb_spec (Z.of_nat i) 0) as [?|_]; [lia|].
  rewrite Nat2Z.id. apply nth_error_lookup.
Qed.

Lemma firstIndex_from_found {A} (fn : A -> bool) (pre : list A) (a : A)
    (post : list A) (k : Z) :
  Forall (fun x => fn x = false) pre -> fn a = true ->
  firstIndex_from fn (pre ++ a :: post) k = k + Z.of_nat (length pre).
Proof.
  intros Hpre Ha. revert k.
  induction Hpre as [|x pre Hx _ IH]; intros k; simpl.
  - rewrite Ha. lia.
  - rewrite Hx, IH. lia.
Qed.

Lemma firstIndex_from_none {A} (fn : A -> bool) (l : list A) (k : Z) :
  Forall (fun x => fn x = false) l -> firstIndex_from fn l k = -1.
Proof.
  intros H. revert k. induction H as [|x l Hx _ IH]; intros k; simpl;
    [reflexivity|]. rewrite Hx. apply IH.
Qed.

Lemma NoDup_ids_before (l : list IViewDescriptor) (i : nat) (a : IViewDescriptor) :
  NoDup (map vd_id l) -> l !! i = Some a ->
  Forall (fun x => has_id (vd_id a) x = false) (take i l).
Proof.
  intros Hnd Ha. apply Forall_forall. intros x Hx.
  apply list_elem_of_lookup in Hx as [k Hk].
  apply lookup_take_Some in Hk as [Hk Hlt].
  unfold has_id. apply String.eqb_neq. intros He.
  assert (k = i); [|lia].
  eapply NoDup_lookup; [exact Hnd| |].
  - rewrite list_lookup_fmap, Hk. reflexivity.
  - rewrite list_lookup_fmap, Ha. simpl. congruence.
Qed.

Lemma firstIndex_NoDup (l : list IViewDescriptor) (i : nat) (a : IViewDescriptor) :
  NoDup (map vd_id l) -> l !! i = Some a ->
  firstIndex l (has_id (vd_id a)) = Z.of_nat i.
Proof.
  intros Hnd Ha. unfold firstIndex.
  pose proof (firstIndex_from_found (has_id (vd_id a)) (take i l) a
                (drop (S i) l) 0 (NoDup_ids_before l i a Hnd Ha)
                (String.eqb_refl _)) as H.
  rewrite (take_drop_middle l i a Ha) in H. rewrite H.
  rewrite length_take_le; [lia|]. apply lookup_lt_Some in Ha. lia.
Qed.

Lemma splice_start_in_range {A} (l : list A) (i : nat) :
  (i <= length l)%nat -> splice_start l (Z.of_nat i) = i.
Proof.
  intros Hi. unfold splice_start.
  destruct (Z.ltb_spec (Z.of_nat i) 0) as [?|_]; [lia|].
  rewrite Z.min_l by lia. apply Nat2Z.id.
Qed.

Lemma arrays_move_in_range {A} (l : list A) (i j : nat) (a : A) :
  l !! i = Some a -> (j < length l)%nat ->
  arrays_move l (Z.of_nat i) (Z.of_nat j) = map Some (list_move l i j a).
Proof.
  intros Ha Hj. pose proof (lookup_lt_Some _ _ _ Ha) as Hi.
  unfold arrays_move, js_splice, list_move.
  rewrite (splice_start_in_range l i) by lia. simpl.
  rewrite drop_drop, Nat.add_1_r, <- delete_take_drop.
  assert (Hhd : head (take 1 (drop i l)) = Some a).
  { rewrite <- (take_drop_middle l i a Ha).
    rewrite drop_app_length' by (rewrite length_take; lia). reflexivity. }
  rewrite Hhd.
  rewrite splice_start_in_range
    by (rewrite length_map, length_delete by eauto; lia).
  rewrite drop_0.
  rewrite map_app. simpl.
  rewrite <- !fmap_take, <- !fmap_drop. reflexivity.
Qed.

Lemma renumber_ok (vds : list IViewDescriptor) (k : Z)
    (states : gmap string IViewState) :
  covered states vds ->
  exists states',
    renumber (map Some vds) k states = Ok (vds, states')
    /\ (forall id, id ∉ map vd_id vds -> states' !! id = states !! id)
    /\ (NoDup (map vd_id vds) -> forall n d, vds !! n = Some d ->
        exists s, states !! vd_id d = Some s
                  /\ states' !! vd_id d = Some (set_order (k + Z.of_nat n) s)).
Proof.
  intros Hc. revert k states Hc.
  induction vds as [|vd vds IH]; intros k states Hc.
  - exists states. split; [reflexivity|]. split; [auto|].
    intros _ n d H. rewrite lookup_nil in H. discriminate.
  - inversion Hc as [|? ? [s Hs] Hc']; subst. simpl. rewrite Hs.
    destruct (IH (k + 1) (<[vd_id vd := set_order k s]> states))
      as (states' & Hr & Hout & Hin).
    { eapply covered_mono; [|exact Hc']. intros id His.
      destruct (decide (vd_id vd = id)) as [<-|Hne].
      - rewrite lookup_insert_eq. eauto.
      - rewrite lookup_insert_ne by exact Hne. exact His. }
    exists states'. rewrite Hr. simpl. split; [reflexivity|]. split.
    + intros id Hid. apply not_elem_of_cons in Hid as [Hne Hid].
      rewrite (Hout id Hid). apply lookup_insert_ne. congruence.
    + intros Hnd n d Hd. apply NoDup_cons in Hnd as [Hnotin Hnd].
      destruct n as [|n]; simpl in Hd.
      * injection Hd as <-. exists s. split; [exact Hs|].
        rewrite (Hout _ Hnotin), lookup_insert_eq. f_equal. f_equal. lia.
      * destruct (Hin Hnd n d Hd) as (s' & Hs' & Hst).
        assert (Hne : vd_id vd <> vd_id d).
        { intros He. apply Hnotin. rewrite He.
          apply list_elem_of_fmap. exists d. split; [reflexivity|].
          eapply list_elem_of_lookup_2. exact Hd. }
        rewrite lookup_insert_ne in Hs' by exact Hne.
        exists s'. split; [exact Hs'|]. rewrite Hst. f_equal. f_equal. lia.
Qed.

Lemma move_ok (m : ContributableViewsModel) (i j : nat) (a b : IViewDescriptor) :
  states_cover m -> NoDup (map vd_id (viewDescriptors m)) ->
  viewDescriptors m !! i = Some a -> viewDescriptors m !! j = Some b ->
  exists states',
    move (vd_id a) (vd_id b) m
    = Ok (mkModel (list_move (viewDescriptors m) i j a) states',
          [DidMove (Z.of_nat i) (Some a) (Z.of_nat j) (Some b)])
    /\ list_move (viewDescriptors m) i j a ≡ₚ viewDescriptors m
    /\ (forall id, id ∉ map vd_id (viewDescriptors m) ->
                   states' !! id = viewStates m !! id)
    /\ (forall n d, list_move (viewDescriptors m) i j a !! n = Some d ->
        exists s, viewStates m !! vd_id d = Some s
                  /\ states' !! vd_id d = Some (set_order (Z.of_nat n) s)).
Proof.
  intros Hc Hnd Ha Hb.
  pose proof (lookup_lt_Some _ _ _ Hb) as Hj.
  pose proof (arrays_move_in_range _ i j a Ha Hj) as Hmove.
  pose proof (arrays_move_elements _ _ _ _ Hmove) as Hperm.
  destruct (renumber_ok (list_move (viewDescriptors m) i j a) 0 (viewStates m))
    as (states' & Hr & Hout & Hin).
  { eapply covered_perm; [symmetry; exact Hperm|exact Hc]. }
  exists states'. unfold move.
  rewrite (firstIndex_NoDup _ i a Hnd Ha), (firstIndex_NoDup _ j b Hnd Hb).
  rewrite !js_index_lookup, Ha, Hb, Hmove, Hr. simpl.
  split; [reflexivity|]. split; [exact Hperm|]. split.
  - intros id Hid. apply Hout. rewrite Hperm. exact Hid.
  - intros n d Hd. apply Hin; [rewrite Hperm; exact Hnd|exact Hd].
Qed.

Lemma list_move_adjacent_fwd {A} (pre post : list A) (x y : A) :
  list_move (pre ++ x :: y :: post) (length pre) (S (length pre)) x
  = pre ++ y :: x :: post.
Proof.
  unfold list_move. induction pre as [|p pre IH]; simpl.
  - rewrite drop_0. reflexivity.
  - f_equal. exact IH.
Qed.

Lemma list_move_adjacent_bwd {A} (pre post : list A) (x y : A) :
  list_move (pre ++ y :: x :: post) (S (length pre)) (length pre) x
  = pre ++ x :: y :: post.
Proof.
  unfold list_move. induction pre as [|p pre IH]; simpl.
  - reflexivity.
  - f_equal. exact IH.
Qed.

Lemma lookup_two {A} (l : list A) (i : nat) (x y : A) :
  l !! i = Some x -> l !! S i = Some y ->
  l = take i l ++ x :: y :: drop (S (S i)) l /\ length (take i l) = i.
Proof.
  intros Hx Hy. split.
  - rewrite <- (take_drop_middle l i x Hx) at 1. f_equal. f_equal.
    rewrite <- (take_drop_middle (drop (S i) l) 0 y).
    + simpl. rewrite drop_drop. f_equal. f_equal. lia.
    + rewrite lookup_drop. rewrite Nat.add_0_r. exact Hy.
  - apply length_take_le. apply lookup_lt_Some in Hx. lia.
Qed.

Lemma list_move_back {A} (l : list A) (i j : nat) (a b : A) :
  l !! i = Some a -> l !! j = Some b -> j = S i \/ i = S j ->
  exists i', list_move l i j a !! i' = Some b
             /\ list_move (list_move l i j a) i' j b = l.
Proof.
  intros Ha Hb [-> | ->].
  - destruct (lookup_two _ _ _ _ Ha Hb) as [Hl Hlen].
    remember (take i l) as pre. remember (drop (S (S i)) l) as post.
    clear Heqpre Heqpost. subst i l.
    exists (length pre). rewrite list_move_adjacent_fwd. split.
    + apply list_lookup_middle. reflexivity.
    + apply list_move_adjacent_fwd.
  - destruct (lookup_two _ _ _ _ Hb Ha) as [Hl Hlen].
    remember (take j l) as pre. remember (drop (S (S j)) l) as post.
    clear Heqpre Heqpost. subst j l.
    exists (S (length pre)). rewrite list_move_adjacent_bwd. split.
    + rewrite (cons_middle a), app_assoc.
      apply list_lookup_middle. rewrite length_app. simpl. lia.
    + apply list_move_adjacent_bwd.
Qed.

(** ** CounterSet *)

Lemma counter_nonneg (key : string) (s : CounterSet.t) :
  counterset_wf s -> 0 <= CounterSet.counter key s.
Proof.
  intros Hwf. unfold CounterSet.counter.
  destruct (s !! key) as [c|] eqn:Hc; [|lia].
  specialize (Hwf key c Hc). destruct (Z.eqb_spec c 0); lia.
Qed.

Lemma counter_lookup (key : string) (s : CounterSet.t) :
  counterset_wf s ->
  CounterSet.counter key s = match s !! key with Some c => c | None => 0 end.
Proof.
  intros Hwf. unfold CounterSet.counter.
  destruct (s !! key) as [c|] eqn:Hc; [|reflexivity].
  specialize (Hwf key c Hc). destruct (Z.eqb_spec c 0); [lia|reflexivity].
Qed.

Lemma counterset_add_wf (value : string) (s : CounterSet.t) :
  counterset_wf s -> counterset_wf (CounterSet.add value s).
Proof.
  intros Hwf key c. unfold CounterSet.add.
  destruct (decide (value = key)) as [<-|Hne].
  - rewrite lookup_insert_eq. intros [= <-].
    pose proof (counter_nonneg value s Hwf). lia.
  - rewrite lookup_insert_ne by exact Hne. apply Hwf.
Qed.

Lemma counterset_delete_wf (value : string) (s : CounterSet.t) :
  counterset_wf s -> counterset_wf (snd (CounterSet.delete value s)).
Proof.
  intros Hwf key c. unfold CounterSet.delete.
  pose proof (counter_nonneg value s Hwf) as Hn.
  destruct (Z.eqb_spec (CounterSet.counter value s) 0) as [_|Hne]; simpl.
  - apply Hwf.
  - destruct (Z.eqb_spec (CounterSet.counter value s - 1) 0) as [_|Hne']; simpl.
    + destruct (decide (value = key)) as [<-|Hk].
      * rewrite lookup_delete_eq. discriminate.
      * rewrite lookup_delete_ne by exact Hk. apply Hwf.
    + destruct (decide (value = key)) as [<-|Hk].
      * rewrite lookup_insert_eq. intros [= <-]. lia.
      * rewrite lookup_insert_ne by exact Hk. apply Hwf.
Qed.

Lemma counter_delete (value key : string) (s : CounterSet.t) :
  counterset_wf s ->
  CounterSet.counter key (snd (CounterSet.delete value s))
  = if String.eqb key value then Z.max 0 (CounterSet.counter key s - 1)
    else CounterSet.counter key s.
Proof.
  intros Hwf.
  rewrite (counter_lookup key _ (counterset_delete_wf value s Hwf)).
  pose proof (counter_nonneg value s Hwf) as Hn.
  unfold CounterSet.delete.
  destruct (String.eqb_spec key value) as [->|Hne].
  - destruct (Z.eqb_spec (CounterSet.counter value s) 0) as [H0|H0]; simpl.
    + rewrite <- counter_lookup by exact Hwf. lia.
    + destruct (Z.eqb_spec (CounterSet.counter value s - 1) 0) as [H1|H1]; simpl.
      * rewrite lookup_delete_eq. lia.
      * rewrite lookup_insert_eq. lia.
  - destruct (Z.eqb_spec (CounterSet.counter value s) 0) as [H0|H0]; simpl.
    + rewrite <- counter_lookup by exact Hwf. reflexivity.
    + destruct (Z.eqb_spec (CounterSet.counter value s - 1) 0) as [H1|H1]; simpl.
      * rewrite lookup_delete_ne by congruence.
        rewrite <- counter_lookup by exact Hwf. reflexivity.
      * rewrite lookup_insert_ne by congruence.
        rewrite <- counter_lookup by exact Hwf. reflexivity.
Qed.

Lemma occurrences_nonneg (key : string) (keys : list string) :
  0 <= occurrences key keys.
Proof. unfold occurrences. lia. Qed.

Lemma occurrences_cons (key k : string) (keys : list string) :
  occurrences key (k :: keys)
  = (if String.eqb key k then 1 else 0) + occurrences key keys.
Proof.
  unfold occurrences. simpl. destruct (String.eqb key k); simpl; lia.
Qed.

Lemma occurrences_app (key : string) (l1 l2 : list string) :
  occurrences key (l1 ++ l2) = occurrences key l1 + occurrences key l2.
Proof.
  unfold occurrences. rewrite List.filter_app, length_app. lia.
Qed.

Lemma delete_keys_spec (keys : list string) (s : CounterSet.t) :
  counterset_wf s ->
  counterset_wf (foldl (fun s key => snd (CounterSet.delete key s)) s keys)
  /\ forall key,
      CounterSet.counter key
        (foldl (fun s key => snd (CounterSet.delete key s)) s keys)
      = Z.max 0 (CounterSet.counter key s - occurrences key keys).
Proof.
  revert s. induction keys as [|k keys IH]; intros s Hwf; simpl.
  - split; [exact Hwf|]. intros key.
    pose proof (counter_nonneg key s Hwf). unfold occurrences. simpl. lia.
  - destruct (IH _ (counterset_delete_wf k s Hwf)) as [Hwf' Hc].
    split; [exact Hwf'|]. intros key.
    rewrite Hc, counter_delete by exact Hwf. rewrite occurrences_cons.
    pose proof (counter_nonneg key s Hwf).
    pose proof (occurrences_nonneg key keys).
    destruct (String.eqb key k); lia.
Qed.

Lemma delete_when_keys_spec (vd : IViewDescriptor) (s : CounterSet.t) :
  counterset_wf s ->
  counterset_wf (delete_when_keys (vd_when vd) s)
  /\ forall key,
      CounterSet.counter key (delete_when_keys (vd_when vd) s)
      = Z.max 0 (CounterSet.counter key s
                 - occurrences key (item_keys (mkViewItem vd true))).
Proof.
  intros Hwf. unfold delete_when_keys, item_keys. simpl.
  destruct (vd_when vd) as [e|].
  - apply delete_keys_spec. exact Hwf.
  - split; [exact Hwf|]. intros key.
    pose proof (counter_nonneg key s Hwf). unfold occurrences. simpl. lia.
Qed.

(** ** Deregistration *)

Lemma firstIndex_cases {A} (fn : A -> bool) (l : list A) :
  (firstIndex l fn = -1 /\ Forall (fun x => fn x = false) l)
  \/ (exists pre a post,
        l = pre ++ a :: post /\ Forall (fun x => fn x = false) pre
        /\ fn a = true /\ firstIndex l fn = Z.of_nat (length pre)).
Proof.
  unfold firstIndex.
  induction l as [|x l IH].
  - left. split; [reflexivity|constructor].
  - destruct (fn x) eqn:Hx.
    + right. exists [], x, l. simpl. rewrite Hx. auto.
    + destruct IH as [[H1 H2]|(pre & a & post & -> & Hpre & Ha & Hi)].
      * left. split; [|constructor; assumption].
        simpl. rewrite Hx. apply firstIndex_from_none. exact H2.
      * right. exists (x :: pre), a, post. split; [reflexivity|].
        split; [constructor; assumption|]. split; [exact Ha|].
        change ((x :: pre) ++ a :: post) with (x :: pre ++ a :: post).
        simpl firstIndex_from. rewrite Hx.
        rewrite firstIndex_from_found by assumption.
        simpl length. lia.
Qed.

Lemma js_splice_delete_middle {A} (pre post : list A) (a : A) :
  snd (js_splice (pre ++ a :: post) (Z.of_nat (length pre)) 1 []) = pre ++ post.
Proof.
  unfold js_splice. rewrite splice_start_in_range by (rewrite length_app; lia).
  simpl. rewrite take_app_length, drop_app_length. reflexivity.
Qed.

Lemma named_in_cons (vd : IViewDescriptor) (rest : list IViewDescriptor)
    (i : IViewItem) :
  named_in (vd :: rest) i = item_has_id (vd_id vd) i || named_in rest i.
Proof.
  unfold named_in, item_has_id, item_id. simpl.
  destruct (String.eqb_spec (vd_id (viewDescriptor i)) (vd_id vd)) as [He|Hne]; simpl.
  - apply bool_decide_eq_true_2. rewrite He. left.
  - apply bool_decide_ext. rewrite elem_of_cons. split; [|auto].
    intros [?|?]; [contradiction|assumption].
Qed.

Lemma named_in_nil (i : IViewItem) : named_in [] i = false.
Proof.
  unfold named_in. apply bool_decide_eq_false_2. simpl. apply not_elem_of_nil.
Qed.

Lemma filter_named_nil (its : list IViewItem) :
  List.filter (named_in []) its = []
  /\ List.filter (fun i => negb (named_in [] i)) its = its.
Proof.
  induction its as [|x l [IH1 IH2]]; [split; reflexivity|].
  cbn [List.filter]. rewrite named_in_nil. cbn [negb].
  rewrite IH1, IH2. split; reflexivity.
Qed.

Lemma filter_named_other (vd : IViewDescriptor) (rest : list IViewDescriptor)
    (its : list IViewItem) (f : bool -> bool) :
  Forall (fun x => item_has_id (vd_id vd) x = false) its ->
  List.filter (fun i => f (named_in (vd :: rest) i)) its
  = List.filter (fun i => f (named_in rest i)) its.
Proof.
  intros Hall. apply List.filter_ext_in. intros i Hi.
  rewrite named_in_cons.
  rewrite Forall_forall in Hall. rewrite (Hall i); [reflexivity|].
  apply list_elem_of_In. exact Hi.
Qed.

Lemma NoDup_ids_after (pre post : list IViewItem) (a : IViewItem) :
  NoDup (map item_id (pre ++ a :: post)) ->
  Forall (fun x => item_has_id (item_id a) x = false) post.
Proof.
  rewrite map_app. simpl. intros Hnd.
  apply NoDup_app in Hnd as (_ & _ & Hnd).
  apply NoDup_cons in Hnd as [Hnotin _].
  apply Forall_forall. intros x Hx.
  unfold item_has_id. apply String.eqb_neq. intros He.
  apply Hnotin. unfold item_id in *. rewrite <- He.
  apply list_elem_of_fmap. exists x. auto.
Qed.

Lemma existsb_active_app (l1 l2 : list IViewItem) :
  existsb active (l1 ++ l2) = existsb active l1 || existsb active l2.
Proof. apply existsb_app. Qed.

Lemma onViewsDeregistered_loop_spec (batch : list IViewDescriptor)
    (c : ViewDescriptorCollection) (fire : bool) :
  counterset_wf (contextKeys c) ->
  NoDup (map item_id (items c)) ->
  delivers_registered batch (items c) ->
  exists c',
    onViewsDeregistered_loop batch c fire
    = Ok (c', fire || existsb active (List.filter (named_in batch) (items c)))
    /\ items c' = List.filter (fun i => negb (named_in batch i)) (items c)
    /\ counterset_wf (contextKeys c')
    /\ forall key,
        CounterSet.counter key (contextKeys c')
        = Z.max 0 (CounterSet.counter key (contextKeys c)
                   - occurrences key
                       (concat (map item_keys
                                  (List.filter (named_in batch) (items c))))).
Proof.
  revert c fire. induction batch as [|vd rest IH]; intros c fire Hwf Hnd Hreg.
  - exists c.
    destruct (filter_named_nil (items c)) as [Hnone Hall].
    rewrite Hnone, Hall. cbn [onViewsDeregistered_loop existsb map concat].
    rewrite orb_false_r.
    split; [reflexivity|]. split; [reflexivity|]. split; [exact Hwf|].
    intros key. pose proof (counter_nonneg key _ Hwf).
    unfold occurrences. simpl. lia.
  - cbn [onViewsDeregistered_loop].
    destruct (firstIndex_cases (item_has_id (vd_id vd)) (items c))
      as [[Hidx Hall]|(pre & it & post & Hits & Hpre & Hit & Hidx)].
    + rewrite Hidx. simpl.
      destruct (IH c fire Hwf Hnd) as (c' & Hrun & Hitems & Hwf' & Hcnt).
      { intros v i Hv. apply Hreg. right. exact Hv. }
      exists c'.
      assert (H1 : List.filter (named_in (vd :: rest)) (items c)
                   = List.filter (named_in rest) (items c))
        by exact (filter_named_other vd rest (items c) (fun b => b) Hall).
      rewrite H1.
      rewrite (filter_named_other vd rest (items c) negb Hall).
      auto.
    + rewrite Hidx.
      destruct (Z.eqb_spec (Z.of_nat (length pre)) (-1)) as [?|_]; [lia|].
      rewrite js_index_lookup, Hits, list_lookup_middle by reflexivity.
      rewrite js_splice_delete_middle.
      assert (Hpost : Forall (fun x => item_has_id (vd_id vd) x = false) post).
      { rewrite Hits in Hnd. apply NoDup_ids_after in Hnd.
        unfold item_has_id in Hit. apply String.eqb_eq in Hit.
        unfold item_id in Hnd at 1. rewrite Hit in Hnd. exact Hnd. }
      assert (Hvd : viewDescriptor it = vd).
      { apply Hreg; [left| |].
        - rewrite Hits. apply elem_of_app. right. left.
        - unfold item_has_id in Hit. apply String.eqb_eq in Hit. exact Hit. }
      destruct (delete_when_keys_spec vd _ Hwf) as [Hwf1 Hcnt1].
      set (c1 := mkCollection (delete_when_keys (vd_when vd) (contextKeys c))
                              (pre ++ post)).
      destruct (IH c1 (if active it then true else fire)) as (c' & Hrun & Hitems & Hwf' & Hcnt).
      { exact Hwf1. }
      { simpl. rewrite Hits in Hnd. rewrite map_app in Hnd |- *. simpl in Hnd.
        apply NoDup_app in Hnd as (H1 & H2 & H3).
        apply NoDup_cons in H3 as [_ H3].
        apply NoDup_app. split; [exact H1|]. split; [|exact H3].
        intros x Hx Hx'. apply (H2 x Hx). right. exact Hx'. }
      { intros v i Hv Hi. apply Hreg; [right; exact Hv|].
        rewrite Hits. simpl in Hi. apply elem_of_app in Hi as [Hi|Hi];
          apply elem_of_app; [left|right; right]; exact Hi. }
      exists c'. rewrite Hrun. simpl items in *.
      assert (Hf : forall f : bool -> bool,
                 List.filter (fun i => f (named_in (vd :: rest) i))
                             (pre ++ it :: post)
                 = List.filter (fun i => f (named_in rest i)) pre
                   ++ (if f true then [it] else [])
                   ++ List.filter (fun i => f (named_in rest i)) post).
      { intros f. rewrite List.filter_app. simpl.
        rewrite (named_in_cons vd rest it), Hit. simpl.
        rewrite (filter_named_other vd rest pre f Hpre).
        rewrite (filter_named_other vd rest post f Hpost).
        destruct (f true); reflexivity. }
      assert (Hf1 : List.filter (named_in (vd :: rest)) (pre ++ it :: post)
                    = List.filter (named_in rest) pre
                      ++ [it] ++ List.filter (named_in rest) post)
        by exact (Hf (fun b => b)).
      pose proof (Hf negb) as Hf2.
      cbn [negb app] in Hf2. rewrite Hf1, Hf2.
      rewrite !List.filter_app in *.
      split; [|split; [exact Hitems|split; [exact Hwf'|]]].
      * f_equal. f_equal. rewrite !existsb_active_app. simpl.
        destruct (active it), fire,
          (existsb active (List.filter (named_in rest) pre)),
          (existsb active (List.filter (named_in rest) post)); reflexivity.
      * assert (Hk : item_keys (mkViewItem vd true) = item_keys it)
          by (unfold item_keys; simpl; rewrite Hvd; reflexivity).
        intros key. rewrite Hcnt. subst c1. cbn [contextKeys]. rewrite Hcnt1, Hk.
        rewrite !map_app, !concat_app, !occurrences_app.
        cbn [map concat app]. rewrite !occurrences_app.
        pose proof (counter_nonneg key _ Hwf).
        pose proof (occurrences_nonneg key
                      (concat (map item_keys (List.filter (named_in rest) pre)))).
        pose proof (occurrences_nonneg key
                      (concat (map item_keys (List.filter (named_in rest) post)))).
        pose proof (occurrences_nonneg key (item_keys it)).
        change (occurrences key []) with 0.
        lia.
Qed.

(** ** Grouping comment threads *)

Lemma compareURIs_pos (a b : CommentThread) :
  Z.ltb 0 (_compareURIs a b) = true
  <-> String.compare (ct_resource a) (ct_resource b) = Gt.
Proof.
  unfold _compareURIs, String.ltb.
  rewrite (String.compare_antisym (ct_resource b) (ct_resource a)).
  destruct (String.compare (ct_resource a) (ct_resource b)); compute;
    split; congruence.
Qed.

Lemma compareURIs_zero (a b : CommentThread) :
  Z.eqb (_compareURIs a b) 0 = true <-> ct_resource a = ct_resource b.
Proof.
  rewrite <- string_compare_eq.
  unfold _compareURIs, String.ltb.
  rewrite (String.compare_antisym (ct_resource b) (ct_resource a)).
  destruct (String.compare (ct_resource a) (ct_resource b)); compute;
    split; congruence.
Qed.

Lemma resource_le_trans (a b c : CommentThread) :
  resource_le a b -> resource_le b c -> resource_le a c.
Proof.
  unfold resource_le. intros H1 H2 H3.
  apply string_compare_gt_lt in H3.
  destruct (String.compare (ct_resource a) (ct_resource b)) eqn:Hab;
    [|clear H1|contradiction].
  - apply string_compare_eq in Hab. rewrite Hab in H3.
    apply string_compare_gt_lt in H3. contradiction.
  - pose proof (string_compare_lt_trans _ _ _ H3 Hab) as Hcb.
    apply string_compare_gt_lt in Hcb. contradiction.
Qed.

Lemma mergeSort_insert_perm (x : CommentThread) (l : list CommentThread) :
  mergeSort_insert _compareURIs x l ≡ₚ x :: l.
Proof.
  induction l as [|y l IH]; simpl; [reflexivity|].
  destruct (Z.ltb 0 (_compareURIs x y)); [|reflexivity].
  rewrite IH. apply Permutation_swap.
Qed.

Lemma mergeSort_perm (l : list CommentThread) : mergeSort l _compareURIs ≡ₚ l.
Proof.
  unfold mergeSort. induction l as [|x l IH]; simpl; [reflexivity|].
  rewrite mergeSort_insert_perm, IH. reflexivity.
Qed.

Lemma mergeSort_insert_sorted (x : CommentThread) (l : list CommentThread) :
  Sorted resource_le l -> Sorted resource_le (mergeSort_insert _compareURIs x l).
Proof.
  induction 1 as [|y l Hs IH Hhd]; simpl; [repeat constructor|].
  destruct (Z.ltb 0 (_compareURIs x y)) eqn:Hg.
  - constructor; [exact IH|].
    assert (Hyx : resource_le y x).
    { apply compareURIs_pos in Hg. unfold resource_le.
      rewrite String.compare_antisym, Hg. discriminate. }
    destruct l as [|z l]; simpl; [constructor; exact Hyx|].
    destruct (Z.ltb 0 (_compareURIs x z)); constructor;
      [inversion Hhd; assumption|exact Hyx].
  - constructor; [constructor; assumption|]. constructor.
    unfold resource_le. intros Hgt. apply compareURIs_pos in Hgt. congruence.
Qed.

Lemma mergeSort_sorted (l : list CommentThread) :
  Sorted resource_le (mergeSort l _compareURIs).
Proof.
  unfold mergeSort. induction l as [|x l IH]; simpl; [constructor|].
  apply mergeSort_insert_sorted, IH.
Qed.

Lemma group_ok_single (t : CommentThread) : group_ok [t].
Proof. split; [discriminate|]. repeat constructor. Qed.

Lemma group_ok_snoc (g : list CommentThread) (t : CommentThread) :
  group_ok g -> ct_resource t = group_key g ->
  group_ok (g ++ [t]) /\ group_key (g ++ [t]) = group_key g.
Proof.
  intros [Hne Hall] Ht. destruct g as [|first others]; [contradiction|].
  split; [|reflexivity]. split; [discriminate|].
  change (group_key ((first :: others) ++ [t])) with (group_key (first :: others)).
  apply Forall_app. split; [exact Hall|]. repeat constructor. exact Ht.
Qed.

Lemma groupBy_loop_spec (sorted : list CommentThread)
    (result : list (list CommentThread)) :
  Sorted resource_le sorted ->
  Forall group_ok result ->
  StronglySorted key_desc result ->
  (forall g t, head result = Some g -> t ∈ sorted ->
               String.compare (group_key g) (ct_resource t) <> Gt) ->
  Forall group_ok (groupBy_loop _compareURIs sorted result)
  /\ StronglySorted key_desc (groupBy_loop _compareURIs sorted result)
  /\ concat (rev (groupBy_loop _compareURIs sorted result))
     = concat (rev result) ++ sorted.
Proof.
  revert result. induction sorted as [|element rest IH];
    intros result Hsorted Hok Hdesc Hle.
  - simpl. rewrite app_nil_r. auto.
  - assert (Hrest : Sorted resource_le rest) by (inversion Hsorted; assumption).
    assert (Hmin : forall t, t ∈ rest ->
                     String.compare (ct_resource element) (ct_resource t) <> Gt).
    { apply Sorted_StronglySorted in Hsorted;
        [|intros a b c; apply resource_le_trans].
      inversion Hsorted as [|? ? _ Hall]; subst.
      rewrite Forall_forall in Hall. intros t Ht. apply Hall. exact Ht. }
    assert (Hnew : forall earlier,
               Forall group_ok earlier ->
               StronglySorted key_desc earlier ->
               Forall (fun g => String.compare (group_key g) (ct_resource element) = Lt)
                      earlier ->
               Forall group_ok (groupBy_loop _compareURIs rest ([element] :: earlier))
               /\ StronglySorted key_desc
                    (groupBy_loop _compareURIs rest ([element] :: earlier))
               /\ concat (rev (groupBy_loop _compareURIs rest ([element] :: earlier)))
                  = concat (rev earlier) ++ element :: rest).
    { intros earlier Hok' Hdesc' Hlt.
      destruct (IH ([element] :: earlier)) as (H1 & H2 & H3).
      - exact Hrest.
      - constructor; [apply group_ok_single|exact Hok'].
      - constructor; [exact Hdesc'|]. exact Hlt.
      - intros g t [= <-] Ht. simpl. apply Hmin. exact Ht.
      - split; [exact H1|]. split; [exact H2|]. rewrite H3. simpl.
        rewrite concat_app. simpl. rewrite <- app_assoc. reflexivity. }
    destruct result as [|[|first others] earlier].
    + simpl. destruct (Hnew []) as (H1 & H2 & H3); auto; constructor.
    + inversion Hok as [|? ? [Hne _] _]; subst. contradiction.
    + cbn [groupBy_loop].
      inversion Hok as [|? ? Hg Hok']; subst.
      inversion Hdesc as [|? ? Hdesc' Hall]; subst.
      pose proof (Hle (first :: others) element eq_refl
                      ltac:(left)) as Hfe. simpl in Hfe.
      destruct (Z.eqb (_compareURIs first element) 0) eqn:Hz; simpl.
      * apply compareURIs_zero in Hz.
        destruct (group_ok_snoc (first :: others) element Hg (eq_sym Hz))
          as [Hg' Hk'].
        destruct (IH ((first :: others ++ [element]) :: earlier))
          as (H1 & H2 & H3).
        -- exact Hrest.
        -- constructor; assumption.
        -- constructor; [exact Hdesc'|]. exact Hall.
        -- intros g t [= <-] Ht. simpl. rewrite Hz. apply Hmin. exact Ht.
        -- split; [exact H1|]. split; [exact H2|]. rewrite H3. simpl.
           rewrite !concat_app. simpl. rewrite !app_nil_r, <- !app_assoc.
           simpl. rewrite <- !app_assoc. reflexivity.
      * assert (Hlt : String.compare (ct_resource first) (ct_resource element) = Lt).
        { destruct (String.compare (ct_resource first) (ct_resource element)) eqn:Hc;
            [|reflexivity|contradiction].
          apply string_compare_eq in Hc. apply compareURIs_zero in Hc. congruence. }
        apply Hnew; [exact Hok|exact Hdesc|].
        constructor; [exact Hlt|].
        eapply Forall_impl; [exact Hall|]. intros g Hg0. unfold key_desc in Hg0.
        simpl in Hg0. eapply string_compare_lt_trans; eassumption.
Qed.

Lemma key_desc_NoDup (gs : list (list CommentThread)) :
  StronglySorted key_desc gs -> NoDup (map group_key gs).
Proof.
  induction 1 as [|g gs _ IH Hall]; simpl; constructor; [|exact IH].
  intros Hin. apply list_elem_of_fmap in Hin as (g' & Hk & Hg').
  rewrite Forall_forall in Hall. specialize (Hall g' Hg').
  unfold key_desc in Hall. rewrite Hk, string_compare_refl in Hall. discriminate.
Qed.

Lemma groupBy_spec (threads : list CommentThread) :
  Forall group_ok (groupBy threads _compareURIs)
  /\ NoDup (map group_key (groupBy threads _compareURIs))
  /\ concat (groupBy threads _compareURIs) ≡ₚ threads.
Proof.
  unfold groupBy.
  destruct (groupBy_loop_spec (mergeSort threads _compareURIs) [])
    as (H1 & H2 & H3).
  - apply mergeSort_sorted.
  - constructor.
  - constructor.
  - intros g t [=].
  - split; [|split].
    + apply Forall_forall. intros g Hg. rewrite Forall_forall in H1.
      apply H1. apply list_elem_of_In. apply in_rev, list_elem_of_In. exact Hg.
    + rewrite map_rev. apply NoDup_ListNoDup, NoDup_rev, NoDup_ListNoDup.
      apply key_desc_NoDup. exact H2.
    + rewrite H3. simpl. apply mergeSort_perm.
Qed.

(** ** The comments model *)

Lemma map_set_fresh {V} (key : string) (value : V) (m : list (string * V)) :
  key ∉ map fst m -> map_set key value m = m ++ [(key, value)].
Proof.
  induction m as [|[k v] m IH]; simpl; intros Hnotin; [reflexivity|].
  apply not_elem_of_cons in Hnotin as [Hne Hnotin].
  destruct (String.eqb_spec k key) as [->|_]; [contradiction|].
  rewrite IH by exact Hnotin. reflexivity.
Qed.

Lemma foldl_push {A B} (f : A -> B) (old : list B) (entries : list A) :
  foldl (fun l entry => l ++ [f entry]) old entries = old ++ map f entries.
Proof.
  revert old. induction entries as [|e entries IH]; intros old; simpl.
  - rewrite app_nil_r. reflexivity.
  - rewrite IH, <- app_assoc. reflexivity.
Qed.

Lemma filter_length_pos {A} (P : A -> bool) (l : list A) (x : A) :
  x ∈ l -> P x = true -> (1 <= length (List.filter P l))%nat.
Proof.
  intros Hin HP. apply list_elem_of_In in Hin.
  assert (Hx : In x (List.filter P l)) by (apply filter_In; auto).
  destruct (List.filter P l); [contradiction|simpl; lia].
Qed.

Section CommentsProperties.

Context {URI : Type}.
Variable URI_parse : string -> URI.
Variable URI_toString : URI -> string.

Abbreviation entry := (group_entry URI_parse URI_toString).

Lemma groups_to_map_spec (groups : list (list CommentThread))
    (acc : list (string * ResourceWithCommentThreads URI)) :
  Forall group_ok groups ->
  NoDup (map group_key groups) ->
  (forall g, g ∈ groups -> group_key g ∉ map fst acc) ->
  groups_to_map URI_parse URI_toString groups acc
  = Ok (acc ++ map (fun g => (group_key g, entry g)) groups).
Proof.
  revert acc. induction groups as [|g groups IH]; intros acc Hok Hnd Hfresh.
  - simpl. rewrite app_nil_r. reflexivity.
  - inversion Hok as [|? ? [Hne _] Hok']; subst.
    apply NoDup_cons in Hnd as [Hnotin Hnd].
    destruct g as [|first others]; [contradiction|].
    cbn [groups_to_map].
    rewrite map_set_fresh by (apply (Hfresh (first :: others)); left).
    rewrite IH; [| exact Hok' | exact Hnd |].
    + rewrite <- app_assoc. reflexivity.
    + intros g Hg. rewrite map_app. simpl. intros Hin.
      apply elem_of_app in Hin as [Hin|Hin].
      * apply (Hfresh g); [right; exact Hg|exact Hin].
      * apply list_elem_of_singleton in Hin. apply Hnotin.
        simpl. rewrite <- Hin. apply list_elem_of_fmap. eauto.
Qed.

Lemma addCommentThreads_spec (threads : list CommentThread)
    (m : CommentsModel URI) :
  addCommentThreads URI_parse URI_toString threads m
  = Ok (mkCommentsModel
          (resourceCommentThreads m
           ++ map entry (groupBy threads _compareURIs))).
Proof.
  unfold addCommentThreads.
  destruct (groupBy_spec threads) as (Hok & Hnd & _).
  rewrite groups_to_map_spec; [|exact Hok|exact Hnd|].
  - simpl. rewrite foldl_push, map_map. reflexivity.
  - intros g _. simpl. apply not_elem_of_nil.
Qed.

End CommentsProperties.

(** ** Persisted states *)

Lemma state_json_roundtrip (s : IViewState) :
  state_of_json (state_to_json s) = Some s.
Proof.
  destruct s as [v c [o|] [z|]]; reflexivity.
Qed.

Lemma serialized_json_roundtrip (entry : string * IViewState) :
  serialized_of_json (serialized_to_json entry) = Some entry.
Proof.
  destruct entry as [id [v c [o|] [z|]]]; reflexivity.
Qed.

Lemma load_states_serialized (entries : list (string * IViewState))
    (acc : gmap string IViewState) :
  NoDup (map fst entries) ->
  exists loaded,
    load_states (map serialized_to_json entries) acc = Some loaded
    /\ forall id,
        loaded !! id
        = match (list_to_map entries : gmap string IViewState) !! id with
          | Some s => Some s
          | None => acc !! id
          end.
Proof.
  revert acc. induction entries as [|[k v] entries IH]; intros acc Hnd.
  - exists acc. split; [reflexivity|]. intros id. simpl.
    rewrite lookup_empty. reflexivity.
  - apply NoDup_cons in Hnd as [Hnotin Hnd].
    destruct (IH (<[k := v]> acc) Hnd) as (loaded & Hload & Hlk).
    exists loaded. split.
    + cbn [map load_states]. rewrite serialized_json_roundtrip. simpl. exact Hload.
    + intros id. rewrite Hlk. cbn [list_to_map foldr uncurry].
      destruct (decide (k = id)) as [<-|Hne].
      * rewrite !lookup_insert_eq.
        rewrite (not_elem_of_list_to_map_1 _ _ Hnotin). reflexivity.
      * rewrite !lookup_insert_ne by exact Hne. reflexivity.
Qed.

Lemma load_states_saved (states : gmap string IViewState) :
  load_states (map serialized_to_json (map_to_list states)) ∅ = Some states.
Proof.
  destruct (load_states_serialized (map_to_list states) ∅) as (loaded & Hload & Hlk).
  { apply NoDup_fst_map_to_list. }
  rewrite Hload. f_equal. apply map_eq. intros id. rewrite Hlk.
  rewrite list_to_map_to_list, lookup_empty.
  destruct (states !! id); reflexivity.
Qed.

Lemma storage_get_store (key : string) (value default : json)
    (scope : StorageScope) (s : IStorageService) :
  storage_get key scope default (storage_store key value scope s) = value.
Proof.
  unfold storage_get, storage_store. destruct scope; simpl;
    rewrite lookup_insert_eq; reflexivity.
Qed.

Lemma add_events_covered (states : gmap string IViewState) (k : nat)
    (vds : list IViewDescriptor) :
  covered states vds -> exists events, add_events states k vds = Ok events.
Proof.
  intros Hc. revert k. induction Hc as [|vd vds [s Hs] _ IH]; intros k; simpl.
  - eauto.
  - rewrite Hs. destruct (visible s).
    + destruct (IH (S k)) as [evs ->]. simpl. eauto.
    + apply IH.
Qed.

Lemma splices_events_from_empty (states : gmap string IViewState)
    (sorted : list IViewDescriptor) :
  covered states sorted ->
  exists events,
    splices_events (mkModel [] states) (pushSplice [] 0 0 sorted) = Ok events.
Proof.
  intros Hc. destruct sorted as [|vd sorted']; [simpl; eauto|].
  destruct (add_events_covered states 0 (vd :: sorted') Hc) as [evs Hevs].
  unfold pushSplice. cbn [length Nat.eqb andb splices_events].
  unfold splice_events.
  cbn [start deleteCount toInsert viewDescriptors viewStates nth_error
       remove_events length].
  simpl in Hevs |- *. rewrite Hevs. simpl. eauto.
Qed.


(** ** What sortedDiff returns *)









(** ** The events of one splice *)

Section SpliceEvents.

Variable states : gmap string IViewState.
Variable old : list IViewDescriptor.
Hypothesis old_covered : covered states old.
Hypothesis old_nodup : NoDup (map vd_id old).

Abbreviation vis := (visible_of states).
Abbreviation M := (mkModel old states).

Lemma visible_of_app (l1 l2 : list IViewDescriptor) :
  vis (l1 ++ l2) = vis l1 ++ vis l2.
Proof. apply List.filter_app. Qed.

Lemma find_from_at (d : IViewDescriptor) (b0 rest : list IViewDescriptor)
    (i vi : nat) :
  covered states b0 -> Forall (fun x => vd_id x <> vd_id d) b0 ->
  find_from states (vd_id d) (b0 ++ d :: rest) i vi
  = Ok (mkFound (i + length b0) (vi + length (vis b0)) d (states !! vd_id d)).
Proof.
  intros Hc Hne. revert i vi.
  induction b0 as [|x b0 IH]; intros i vi; simpl.
  - rewrite String.eqb_refl, !Nat.add_0_r. reflexivity.
  - inversion Hc as [|? ? [s Hs] Hc']; subst.
    inversion Hne as [|? ? Hx Hne']; subst.
    destruct (String.eqb_spec (vd_id x) (vd_id d)) as [?|_]; [contradiction|].
    assert (Hv : is_visible states x = visible s)
      by (unfold is_visible; rewrite Hs; reflexivity).
    rewrite Hs, (IH Hc' Hne'). unfold visible_of. cbn [List.filter].
    rewrite Hv. destruct (visible s); cbn [length]; do 2 f_equal; lia.
Qed.



Lemma add_events_run (k : nat) (ins : list IViewDescriptor) :
  covered states ins -> add_events states k ins = Ok (add_list states k (vis ins)).
Proof.
  intros Hc. revert k. induction Hc as [|vd ins [s Hs] _ IH]; intros k;
    [reflexivity|].
  simpl. unfold is_visible. rewrite Hs. destruct (visible s).
  - rewrite IH. simpl. rewrite Hs. reflexivity.
  - apply IH.
Qed.


End SpliceEvents.

(** ** Replaying events on a list of panels *)


Lemma replay_removes (pre dels post : list IViewDescriptor) :
  replay (pre ++ dels ++ post) (remove_list (length pre) dels) = Some (pre ++ post).
Proof.
  induction dels as [|d dels IH]; [reflexivity|].
  cbn [remove_list map replay replay_event app].
  rewrite nth_error_lookup.
  rewrite (list_lookup_middle pre (dels ++ post) d (length pre) eq_refl).
  destruct (decide (d = d)) as [_|Hne]; [|contradiction].
  rewrite take_app_length.
  rewrite (cons_middle d pre (dels ++ post)).
  rewrite app_assoc, drop_app_length' by (rewrite length_app; simpl; lia).
  exact IH.
Qed.

Lemma replay_adds (states : gmap string IViewState)
    (pre ins post : list IViewDescriptor) :
  replay (pre ++ post) (add_list states (length pre) ins) = Some (pre ++ ins ++ post).
Proof.
  revert pre. induction ins as [|vd ins IH]; intros pre; [reflexivity|].
  cbn [add_list replay].
  assert (Hstep : forall size' collapsed',
            replay_event (pre ++ post) (DidAdd (length pre) vd size' collapsed')
            = Some ((pre ++ [vd]) ++ post)).
  { intros ? ?. cbn [replay_event].
    rewrite (proj2 (Nat.leb_le _ _)) by (rewrite length_app; lia).
    rewrite take_app_length, drop_app_length, <- app_assoc. reflexivity. }
  specialize (IH (pre ++ [vd])). rewrite length_app, Nat.add_1_r in IH.
  destruct (states !! vd_id vd); rewrite Hstep, IH, <- app_assoc; reflexivity.
Qed.





(** ** The events of a reconcile pass, replayed *)

Section ReconcileEvents.

Variable states : gmap string IViewState.
Variable old : list IViewDescriptor.
Hypothesis old_covered : covered states old.
Hypothesis old_nodup : NoDup (map vd_id old).

Abbreviation vis := (visible_of states).
Abbreviation M := (mkModel old states).



End ReconcileEvents.

(** ** The reconcile pass as a whole *)



Lemma visible_of_ext (states states' : gmap string IViewState)
    (l : list IViewDescriptor) :
  (forall vd, vd ∈ l -> states' !! vd_id vd = states !! vd_id vd) ->
  visible_of states' l = visible_of states l.
Proof.
  intros Hext. apply List.filter_ext_in. intros vd Hvd.
  unfold is_visible. rewrite Hext by (apply list_elem_of_In; exact Hvd). reflexivity.
Qed.




(** ** The reconcile pass returns *)





(** ** move returns *)




(** ** The fields a call leaves behind *)

Lemma fields_visible_filter_defined (states : gmap string IViewState)
    (vds : list IViewDescriptor) :
  fields_visible_filter states (map Some vds) = visible_filter states vds.
Proof.
  induction vds as [|v vds IH]; simpl; [reflexivity|].
  rewrite IH. reflexivity.
Qed.

Lemma fields_find_from_defined (states : gmap string IViewState) (id : string)
    (vds : list IViewDescriptor) (i visibleIndex : nat) :
  fields_find_from states id (map Some vds) i visibleIndex
  = find_from states id vds i visibleIndex.
Proof.
  revert i visibleIndex. induction vds as [|v vds IH]; intros i vi; simpl;
    [reflexivity|].
  destruct (String.eqb (vd_id v) id); [reflexivity|].
  destruct (states !! vd_id v); [apply IH|reflexivity].
Qed.

Lemma all_defined_map_Some {A} (l : list A) : all_defined (map Some l) = Some l.
Proof. induction l as [|x l IH]; simpl; [|rewrite IH]; reflexivity. Qed.

(** On the fields of a model the getter, [find] and the reconcile pass are
    those of the model. *)
Lemma fields_of_model (m : ContributableViewsModel) :
  fields_visibleViewDescriptors (fields_of m) = visibleViewDescriptors m
  /\ (forall id, fields_find (fields_of m) id = find m id)
  /\ (forall vds,
        fields_onDidChangeViewDescriptors vds (fields_of m)
        = onDidChangeViewDescriptors vds m).
Proof.
  split; [|split].
  - apply fields_visible_filter_defined.
  - intros id. apply fields_find_from_defined.
  - intros vds. unfold fields_onDidChangeViewDescriptors, fields_of.
    cbn [fields_viewDescriptors fields_viewStates].
    rewrite all_defined_map_Some. destruct m. reflexivity.
Qed.

Lemma fields_cover_model (m : ContributableViewsModel) :
  fields_cover (fields_of m) <-> states_cover m.
Proof.
  unfold fields_cover, fields_of, states_cover.
  cbn [fields_viewDescriptors fields_viewStates]. split.
  - intros (vds & Heq & Hc).
    apply (f_equal all_defined) in Heq. rewrite !all_defined_map_Some in Heq.
    injection Heq as ->. exact Hc.
  - intros Hc. exists (viewDescriptors m). split; [reflexivity|exact Hc].
Qed.

Lemma renumber_states_returned (moved : list (option IViewDescriptor)) (index : Z)
    (states states' : gmap string IViewState) (vds : list IViewDescriptor) :
  renumber moved index states = Ok (vds, states') ->
  moved = map Some vds /\ renumber_states moved index states = states'.
Proof.
  revert index states states' vds.
  induction moved as [|[vd|] rest IH]; intros index states states' vds H; simpl in *.
  - injection H as <- <-. split; reflexivity.
  - destruct (states !! vd_id vd) as [s|]; [|discriminate].
    destruct (renumber rest (index + 1) _) as [[rest' states'']|e] eqn:Hr;
      [|discriminate].
    simpl in H. injection H as <- <-.
    destruct (IH _ _ _ _ Hr) as [-> Hs]. split; [reflexivity|exact Hs].
  - discriminate.
Qed.

(** When [move] returns, the fields it leaves are those of the model it
    returns. *)
Lemma move_fields_returned (from to : string) (m m' : ContributableViewsModel)
    (events : list ViewEvent) :
  move from to m = Ok (m', events) -> move_fields from to m = fields_of m'.
Proof.
  unfold move, move_fields. intros H.
  destruct (renumber _ 0 (viewStates m)) as [[vds states']|e] eqn:Hr;
    [|discriminate].
  simpl in H. injection H as <- _.
  destruct (renumber_states_returned _ _ _ _ _ Hr) as [-> ->]. reflexivity.
Qed.

(** ** The comparator over every number *)

Section AnyComparator.

Variable states : gmap string AnyNumber.IViewState.

Abbreviation cmp := (AnyNumber.compareViewDescriptors states).
Abbreviation ro := (AnyNumber.resolved_order states).

(** A [NaN] order makes every comparison [NaN], also of a descriptor with
    itself. *)
Lemma any_cmp_nan (a b : AnyNumber.IViewDescriptor) :
  ro a = NaN \/ ro b = NaN -> cmp a b = NaN.
Proof.
  unfold AnyNumber.compareViewDescriptors.
  intros [H|H]; rewrite H; [reflexivity|].
  destruct (ro a); reflexivity.
Qed.

Lemma any_cmp_ids (a b : AnyNumber.IViewDescriptor) :
  ordered states a -> ro a = ro b ->
  cmp a b = if String.eqb (AnyNumber.vd_id a) (AnyNumber.vd_id b) then Num 0
            else if String.ltb (AnyNumber.vd_id a) (AnyNumber.vd_id b)
                 then Num (-1) else Num 1.
Proof.
  unfold ordered, AnyNumber.compareViewDescriptors. intros Ha <-.
  destruct (ro a) as [x| | |]; simpl; [rewrite Z.eqb_refl| | |contradiction];
    reflexivity.
Qed.

Lemma any_cmp_orders (a b : AnyNumber.IViewDescriptor) :
  ordered states a -> ordered states b -> ro a <> ro b ->
  cmp a b = num_sub (ro a) (ro b)
  /\ (num_lt0 (num_sub (ro a) (ro b)) = true
      <-> rank_lt (order_rank (ro a)) (order_rank (ro b)))
  /\ (num_gt0 (num_sub (ro a) (ro b)) = true
      <-> rank_lt (order_rank (ro b)) (order_rank (ro a)))
  /\ num_eq0 (num_sub (ro a) (ro b)) = false.
Proof.
  unfold ordered, AnyNumber.compareViewDescriptors, rank_lt. intros Ha Hb Hne.
  destruct (ro a) as [x| | |], (ro b) as [y| | |]; try contradiction; simpl.
  - destruct (Z.eqb_spec x y) as [->|Hxy]; [contradiction|]. simpl.
    rewrite !Z.ltb_lt. split; [reflexivity|].
    split; [lia|]. split; [lia|]. apply Z.eqb_neq. lia.
  - repeat split; try discriminate; intros; lia.
  - repeat split; try discriminate; intros; lia.
  - repeat split; try discriminate; intros; lia.
  - repeat split; try discriminate; intros; lia.
  - repeat split; try discriminate; intros; lia.
  - repeat split; try discriminate; intros; lia.
Qed.

Lemma rank_lt_differs (p q : jsnum) :
  rank_lt (order_rank p) (order_rank q) -> p <> q.
Proof. unfold rank_lt. intros H ->. lia. Qed.

Lemma any_cmp_lt0 (a b : AnyNumber.IViewDescriptor) :
  ordered states a -> ordered states b ->
  num_lt0 (cmp a b) = true <-> any_key_lt states a b.
Proof.
  intros Ha Hb. unfold any_key_lt.
  destruct (decide (ro a = ro b)) as [He|Hne].
  - rewrite (any_cmp_ids a b Ha He).
    destruct (String.eqb (AnyNumber.vd_id a) (AnyNumber.vd_id b)) eqn:Hid.
    + apply string_eqb_compare in Hid. rewrite Hid. simpl.
      split; [discriminate|].
      intros [H|[_ H]]; [apply rank_lt_differs in H; contradiction|discriminate].
    + unfold String.ltb.
      destruct (String.compare (AnyNumber.vd_id a) (AnyNumber.vd_id b)); simpl;
        split; try discriminate; auto;
        intros [H|[_ H]];
        solve [apply rank_lt_differs in H; contradiction|discriminate].
  - destruct (any_cmp_orders a b Ha Hb Hne) as (-> & Hlt & _ & _).
    rewrite Hlt. split; [auto|]. intros [H|[H _]]; [exact H|contradiction].
Qed.

Lemma any_cmp_gt0 (a b : AnyNumber.IViewDescriptor) :
  ordered states a -> ordered states b ->
  num_gt0 (cmp a b) = true <-> any_key_lt states b a.
Proof.
  intros Ha Hb. unfold any_key_lt.
  destruct (decide (ro a = ro b)) as [He|Hne].
  - rewrite (any_cmp_ids a b Ha He), He.
    destruct (String.eqb (AnyNumber.vd_id a) (AnyNumber.vd_id b)) eqn:Hid.
    + apply string_eqb_compare in Hid. apply string_compare_eq in Hid.
      rewrite Hid, string_compare_refl. simpl.
      split; [discriminate|].
      intros [H|[_ H]]; [apply rank_lt_differs in H; contradiction|discriminate].
    + unfold String.ltb. rewrite <- string_compare_gt_lt.
      destruct (String.compare (AnyNumber.vd_id a) (AnyNumber.vd_id b)) eqn:Hc;
        simpl.
      * apply string_compare_eq in Hc. apply String.eqb_neq in Hid. contradiction.
      * split; [discriminate|].
        intros [H|[_ H]]; [apply rank_lt_differs in H; contradiction|discriminate].
      * split; auto.
  - destruct (any_cmp_orders a b Ha Hb Hne) as (-> & _ & Hgt & _).
    rewrite Hgt. split; [auto|]. intros [H|[H _]]; [exact H|].
    symmetry in H. contradiction.
Qed.

Lemma any_cmp_eq0 (a b : AnyNumber.IViewDescriptor) :
  ordered states a -> ordered states b ->
  num_eq0 (cmp a b) = true <-> any_key_eq states a b.
Proof.
  intros Ha Hb. unfold any_key_eq.
  destruct (decide (ro a = ro b)) as [He|Hne].
  - rewrite (any_cmp_ids a b Ha He).
    destruct (String.eqb_spec (AnyNumber.vd_id a) (AnyNumber.vd_id b)) as [Hid|Hid];
      simpl.
    + tauto.
    + destruct (String.ltb _ _); simpl; split; try discriminate; tauto.
  - destruct (any_cmp_orders a b Ha Hb Hne) as (-> & _ & _ & ->).
    split; [discriminate|]. intros [H _]. contradiction.
Qed.

Lemma any_key_lt_irrefl (a : AnyNumber.IViewDescriptor) : ~ any_key_lt states a a.
Proof.
  unfold any_key_lt, rank_lt. rewrite string_compare_refl.
  intros [[?|[_ ?]]|[_ ?]]; try lia. discriminate.
Qed.

Lemma any_key_lt_trans (a b c : AnyNumber.IViewDescriptor) :
  any_key_lt states a b -> any_key_lt states b c -> any_key_lt states a c.
Proof.
  unfold any_key_lt, rank_lt.
  intros [H1|[E1 L1]] [H2|[E2 L2]].
  - left. lia.
  - left. rewrite <- E2. exact H1.
  - left. rewrite E1. exact H2.
  - right. split; [congruence|]. eapply string_compare_lt_trans; eassumption.
Qed.

Lemma order_rank_inj (p q : jsnum) : order_rank p = order_rank q -> p = q.
Proof. destruct p, q; simpl; intros H; try discriminate; congruence. Qed.

Lemma any_key_trichotomy (a b : AnyNumber.IViewDescriptor) :
  any_key_lt states a b \/ any_key_eq states a b \/ any_key_lt states b a.
Proof.
  unfold any_key_lt, any_key_eq, rank_lt.
  destruct (decide (ro a = ro b)) as [He|Hne].
  - destruct (String.compare (AnyNumber.vd_id a) (AnyNumber.vd_id b)) eqn:Hc.
    + apply string_compare_eq in Hc. tauto.
    + tauto.
    + apply string_compare_gt_lt in Hc. right. right. right. split; auto.
  - assert (Hr : order_rank (ro a) <> order_rank (ro b)).
    { intros H. apply order_rank_inj in H. contradiction. }
    destruct (order_rank (ro a)) as [p1 p2], (order_rank (ro b)) as [q1 q2].
    simpl. destruct (Z.lt_trichotomy p1 q1) as [?|[->|?]]; [tauto| |tauto].
    destruct (Z.lt_trichotomy p2 q2) as [?|[->|?]]; [tauto| |tauto].
    contradiction.
Qed.

Lemma any_key_eq_not_lt (a b : AnyNumber.IViewDescriptor) :
  any_key_eq states a b -> ~ any_key_lt states a b.
Proof.
  unfold any_key_eq, any_key_lt, rank_lt. intros [Ho Hi].
  rewrite Ho, Hi, string_compare_refl.
  intros [[?|[_ ?]]|[_ ?]]; try lia. discriminate.
Qed.

Lemma any_key_le_iff (a b : AnyNumber.IViewDescriptor) :
  ordered states a -> ordered states b ->
  any_key_le states a b <-> any_key_lt states a b \/ any_key_eq states a b.
Proof.
  intros Ha Hb. unfold any_key_le.
  rewrite <- not_true_iff_false, (any_cmp_gt0 a b Ha Hb).
  split.
  - intros Hn. destruct (any_key_trichotomy a b) as [?|[?|?]]; tauto.
  - intros [Hl|He] Hg.
    + exact (any_key_lt_irrefl a (any_key_lt_trans _ _ _ Hl Hg)).
    + destruct He as [Ho Hi].
      apply (any_key_eq_not_lt b a); [split; congruence|exact Hg].
Qed.

Lemma any_key_le_trans (a b c : AnyNumber.IViewDescriptor) :
  ordered states a -> ordered states b -> ordered states c ->
  any_key_le states a b -> any_key_le states b c -> any_key_le states a c.
Proof.
  intros Ha Hb Hc.
  rewrite (any_key_le_iff a b Ha Hb), (any_key_le_iff b c Hb Hc),
    (any_key_le_iff a c Ha Hc).
  intros [L1|[O1 I1]] [L2|[O2 I2]].
  - left. eapply any_key_lt_trans; eassumption.
  - left. unfold any_key_lt in *. rewrite <- O2, <- I2. exact L1.
  - left. unfold any_key_lt in *. rewrite O1, I1. exact L2.
  - right. split; congruence.
Qed.

Lemma any_key_le_total (a b : AnyNumber.IViewDescriptor) :
  ordered states a -> ordered states b ->
  any_key_le states a b \/ any_key_le states b a.
Proof.
  intros Ha Hb.
  rewrite (any_key_le_iff a b Ha Hb), (any_key_le_iff b a Hb Ha).
  destruct (any_key_trichotomy a b) as [?|[[? ?]|?]]; auto.
  left. right. split; assumption.
Qed.

Lemma any_key_le_antisym (a b : AnyNumber.IViewDescriptor) :
  ordered states a -> ordered states b ->
  any_key_le states a b -> any_key_le states b a ->
  AnyNumber.vd_id a = AnyNumber.vd_id b.
Proof.
  intros Ha Hb.
  rewrite (any_key_le_iff a b Ha Hb), (any_key_le_iff b a Hb Ha).
  intros [L1|[_ I1]] [L2|[_ I2]]; auto.
  exfalso. exact (any_key_lt_irrefl a (any_key_lt_trans _ _ _ L1 L2)).
Qed.

Lemma any_cmp_sign (a b : AnyNumber.IViewDescriptor) :
  ordered states a -> ordered states b ->
  num_lt0 (cmp a b) || num_eq0 (cmp a b) || num_gt0 (cmp a b) = true.
Proof.
  intros Ha Hb.
  destruct (any_key_trichotomy a b) as [H|[H|H]].
  - apply (any_cmp_lt0 a b Ha Hb) in H. rewrite H. reflexivity.
  - apply (any_cmp_eq0 a b Ha Hb) in H. rewrite H.
    rewrite orb_true_r. reflexivity.
  - apply (any_cmp_gt0 a b Ha Hb) in H. rewrite H. apply orb_true_r.
Qed.

(** ** Sorting with the comparator over every number *)

Abbreviation ordered_le := (ordered_le states).

#[local] Instance ordered_le_transitive : Transitive ordered_le.
Proof.
  intros a b c (Ha & Hb & Hab) (_ & Hc & Hbc).
  split; [exact Ha|]. split; [exact Hc|].
  exact (any_key_le_trans a b c Ha Hb Hc Hab Hbc).
Qed.

Lemma any_sort_insert_perm (x : AnyNumber.IViewDescriptor)
    (l : list AnyNumber.IViewDescriptor) :
  sort_insert cmp x l ≡ₚ x :: l.
Proof.
  induction l as [|y l IH]; simpl; [reflexivity|].
  destruct (num_gt0 (cmp x y)); [|reflexivity].
  rewrite IH. apply Permutation_swap.
Qed.

Lemma any_js_sort_perm (l : list AnyNumber.IViewDescriptor) : js_sort cmp l ≡ₚ l.
Proof.
  induction l as [|x l IH]; simpl; [reflexivity|].
  unfold js_sort in *. simpl. rewrite any_sort_insert_perm, IH. reflexivity.
Qed.

Lemma any_sort_insert_hd (x y : AnyNumber.IViewDescriptor)
    (l : list AnyNumber.IViewDescriptor) :
  ordered_le y x -> HdRel ordered_le y l -> HdRel ordered_le y (sort_insert cmp x l).
Proof.
  intros Hyx Hhd. destruct l as [|z l]; simpl; [constructor; exact Hyx|].
  destruct (num_gt0 (cmp x z)); constructor; [|exact Hyx].
  inversion Hhd; assumption.
Qed.

Lemma any_sort_insert_sorted (x : AnyNumber.IViewDescriptor)
    (l : list AnyNumber.IViewDescriptor) :
  ordered states x -> Forall (ordered states) l ->
  Sorted ordered_le l -> Sorted ordered_le (sort_insert cmp x l).
Proof.
  intros Hx Hl Hs. induction Hs as [|y l Hs IH Hhd]; simpl; [repeat constructor|].
  apply Forall_cons in Hl as [Hy Hl].
  destruct (num_gt0 (cmp x y)) eqn:Hg.
  - constructor; [exact (IH Hl)|]. apply any_sort_insert_hd; [|exact Hhd].
    split; [exact Hy|]. split; [exact Hx|].
    destruct (any_key_le_total y x Hy Hx) as [H|H]; [exact H|].
    unfold any_key_le in H. congruence.
  - constructor; [constructor; assumption|]. constructor.
    split; [exact Hx|]. split; [exact Hy|]. exact Hg.
Qed.

Lemma any_js_sort_sorted (l : list AnyNumber.IViewDescriptor) :
  Forall (ordered states) l -> Sorted ordered_le (js_sort cmp l).
Proof.
  induction l as [|x l IH]; intros Hl; [constructor|].
  apply Forall_cons in Hl as [Hx Hl].
  unfold js_sort in *. simpl. apply any_sort_insert_sorted; [exact Hx| |exact (IH Hl)].
  apply Forall_forall. intros y Hy. rewrite Forall_forall in Hl. apply Hl.
  change (foldr (sort_insert cmp) [] l) with (js_sort cmp l) in Hy.
  rewrite any_js_sort_perm in Hy. exact Hy.
Qed.

Lemma ordered_le_sorted (l : list AnyNumber.IViewDescriptor) :
  Sorted ordered_le l -> Sorted (any_key_le states) l.
Proof.
  induction 1 as [|x l Hs IH Hhd]; constructor; [exact IH|].
  destruct Hhd as [|y l' (_ & _ & H)]; constructor. exact H.
Qed.

Lemma sorted_ordered_le (l : list AnyNumber.IViewDescriptor) :
  Forall (ordered states) l -> Sorted (any_key_le states) l -> Sorted ordered_le l.
Proof.
  intros Hl Hs. induction Hs as [|x l Hs IH Hhd]; constructor.
  - apply IH. apply Forall_cons in Hl as [_ Hl]. exact Hl.
  - apply Forall_cons in Hl as [Hx Hl].
    destruct Hhd as [|y l' H]; constructor.
    apply Forall_cons in Hl as [Hy _]. split; [exact Hx|]. split; [exact Hy|exact H].
Qed.

Lemma any_js_sort_of_sorted (l : list AnyNumber.IViewDescriptor) :
  Sorted (any_key_le states) l -> js_sort cmp l = l.
Proof.
  induction 1 as [|x l Hs IH Hhd]; [reflexivity|].
  unfold js_sort in *. simpl. rewrite IH.
  destruct Hhd as [|y l' Hxy]; simpl; [reflexivity|].
  unfold any_key_le in Hxy. rewrite Hxy. reflexivity.
Qed.

Lemma any_js_sort_idem (l : list AnyNumber.IViewDescriptor) :
  Forall (ordered states) l -> js_sort cmp (js_sort cmp l) = js_sort cmp l.
Proof.
  intros Hl. apply any_js_sort_of_sorted, ordered_le_sorted, any_js_sort_sorted.
  exact Hl.
Qed.

Lemma any_js_sort_perm_invariant (l l' : list AnyNumber.IViewDescriptor) :
  Forall (ordered states) l -> NoDup (map AnyNumber.vd_id l) -> l ≡ₚ l' ->
  js_sort cmp l = js_sort cmp l'.
Proof.
  intros Hl Hnd Hp.
  assert (Hl' : Forall (ordered states) l') by (rewrite <- Hp; exact Hl).
  apply (StronglySorted_unique_strong ordered_le).
  - intros x1 x2 H1 H2 (Ho1 & Ho2 & L1) (_ & _ & L2).
    rewrite any_js_sort_perm in H1. rewrite any_js_sort_perm, <- Hp in H2.
    pose proof (any_key_le_antisym _ _ Ho1 Ho2 L1 L2) as Hid.
    apply list_elem_of_lookup in H1 as [i Hi], H2 as [j Hj].
    assert (i = j) as ->.
    { eapply NoDup_lookup; [exact Hnd| |].
      - rewrite list_lookup_fmap, Hi. reflexivity.
      - rewrite list_lookup_fmap, Hj. simpl. congruence. }
    congruence.
  - apply Sorted_StronglySorted; [apply _|apply any_js_sort_sorted; exact Hl].
  - apply Sorted_StronglySorted; [apply _|apply any_js_sort_sorted; exact Hl'].
  - rewrite !any_js_sort_perm. exact Hp.
Qed.

End AnyComparator.

(** ** Persisted states, over every number *)

Lemma persisted_property_finite (value : AnyNumber.property) :
  finite_property value -> persisted_property value = value.
Proof.
  destruct value as [| |[z| | |]]; simpl; intros H; try reflexivity;
    contradiction.
Qed.

Lemma persisted_state_finite (s : AnyNumber.IViewState) :
  finite_state s -> persisted_state s = s.
Proof.
  destruct s as [v c o z]. unfold finite_state, persisted_state. simpl.
  intros [Ho Hz]. rewrite (persisted_property_finite o Ho),
    (persisted_property_finite z Hz). reflexivity.
Qed.

Lemma any_state_json_roundtrip (s : AnyNumber.IViewState) :
  AnyNumber.state_of_json (AnyNumber.state_to_json s) = Some (persisted_state s).
Proof.
  destruct s as [v c [| |[o| | |]] [| |[z| | |]]]; reflexivity.
Qed.

Lemma any_serialized_json_roundtrip (id : string) (s : AnyNumber.IViewState) :
  AnyNumber.serialized_of_json (AnyNumber.serialized_to_json (id, s))
  = Some (id, persisted_state s).
Proof.
  unfold AnyNumber.serialized_to_json, AnyNumber.serialized_of_json.
  cbn [member String.eqb Ascii.eqb Bool.eqb fst snd].
  rewrite any_state_json_roundtrip. reflexivity.
Qed.

Lemma any_load_states_serialized (entries : list (string * AnyNumber.IViewState))
    (acc : gmap string AnyNumber.IViewState) :
  NoDup (map fst entries) ->
  exists loaded,
    AnyNumber.load_states (map AnyNumber.serialized_to_json entries) acc
    = Some loaded
    /\ forall id,
        loaded !! id
        = match (list_to_map entries : gmap string AnyNumber.IViewState) !! id with
          | Some s => Some (persisted_state s)
          | None => acc !! id
          end.
Proof.
  revert acc. induction entries as [|[k v] entries IH]; intros acc Hnd.
  - exists acc. split; [reflexivity|]. intros id. simpl.
    rewrite lookup_empty. reflexivity.
  - apply NoDup_cons in Hnd as [Hnotin Hnd].
    destruct (IH (<[k := persisted_state v]> acc) Hnd) as (loaded & Hload & Hlk).
    exists loaded. split.
    + cbn [map AnyNumber.load_states]. rewrite any_serialized_json_roundtrip.
      simpl. exact Hload.
    + intros id. rewrite Hlk. cbn [list_to_map foldr uncurry].
      destruct (decide (k = id)) as [<-|Hne].
      * rewrite !lookup_insert_eq.
        rewrite (not_elem_of_list_to_map_1 _ _ Hnotin). reflexivity.
      * rewrite !lookup_insert_ne by exact Hne. reflexivity.
Qed.

(** The states a load gives back after a save. *)
Lemma any_load_states_saved (states : gmap string AnyNumber.IViewState) :
  AnyNumber.load_states
    (map AnyNumber.serialized_to_json (map_to_list states)) ∅
  = Some (persisted_state <$> states).
Proof.
  destruct (any_load_states_serialized (map_to_list states) ∅)
    as (loaded & Hload & Hlk).
  { apply NoDup_fst_map_to_list. }
  rewrite Hload. f_equal. apply map_eq. intros id. rewrite Hlk.
  rewrite list_to_map_to_list, lookup_empty, lookup_fmap.
  destruct (states !! id); reflexivity.
Qed.

Lemma any_add_default_states_cons (vd : AnyNumber.IViewDescriptor)
    (vds : list AnyNumber.IViewDescriptor)
    (states : gmap string AnyNumber.IViewState) :
  AnyNumber.add_default_states (vd :: vds) states
  = AnyNumber.add_default_states vds
      (match states !! AnyNumber.vd_id vd with
       | Some _ => states
       | None => <[AnyNumber.vd_id vd := AnyNumber.default_state]> states
       end).
Proof. reflexivity. Qed.

Lemma any_add_default_states_lookup (vds : list AnyNumber.IViewDescriptor)
    (states : gmap string AnyNumber.IViewState) (id : string) :
  AnyNumber.add_default_states vds states !! id
  = match states !! id with
    | Some s => Some s
    | None => if bool_decide (id ∈ map AnyNumber.vd_id vds)
              then Some AnyNumber.default_state else None
    end.
Proof.
  revert states. induction vds as [|vd vds IH]; intros states.
  - simpl. destruct (states !! id); reflexivity.
  - rewrite any_add_default_states_cons, IH. simpl.
    destruct (decide (AnyNumber.vd_id vd = id)) as [<-|Hne].
    + destruct (states !! AnyNumber.vd_id vd) as [s|] eqn:Hs.
      * rewrite Hs. reflexivity.
      * rewrite lookup_insert_eq.
        rewrite bool_decide_eq_true_2 by (left). reflexivity.
    + assert (Hlk : (match states !! AnyNumber.vd_id vd with
                     | Some _ => states
                     | None => <[AnyNumber.vd_id vd := AnyNumber.default_state]> states
                     end) !! id = states !! id).
      { destruct (states !! AnyNumber.vd_id vd); [reflexivity|].
        apply lookup_insert_ne. exact Hne. }
      rewrite Hlk. destruct (states !! id); [reflexivity|].
      rewrite (bool_decide_ext _ (id ∈ AnyNumber.vd_id vd :: map AnyNumber.vd_id vds));
        [reflexivity|].
      rewrite elem_of_cons. split; [auto|].
      intros [H|H]; [congruence|exact H].
Qed.

Lemma any_add_default_states_covers (vds : list AnyNumber.IViewDescriptor)
    (states : gmap string AnyNumber.IViewState) :
  any_covered (AnyNumber.add_default_states vds states) vds.
Proof.
  unfold any_covered. apply Forall_forall. intros vd Hin.
  rewrite any_add_default_states_lookup.
  destruct (states !! AnyNumber.vd_id vd); [eauto|].
  rewrite bool_decide_eq_true_2; [eauto|].
  apply list_elem_of_fmap. eauto.
Qed.

Lemma any_add_default_states_covered (vds : list AnyNumber.IViewDescriptor)
    (states : gmap string AnyNumber.IViewState) :
  any_covered states vds -> AnyNumber.add_default_states vds states = states.
Proof.
  intros Hc. apply map_eq. intros id. rewrite any_add_default_states_lookup.
  destruct (states !! id) eqn:Hs; [reflexivity|].
  rewrite bool_decide_eq_false_2; [reflexivity|].
  intros Hin. apply list_elem_of_fmap in Hin as (vd & -> & Hvd).
  unfold any_covered in Hc. rewrite Forall_forall in Hc.
  destruct (Hc vd Hvd) as [s Hs']. congruence.
Qed.

Lemma any_add_events_covered (states : gmap string AnyNumber.IViewState) (k : nat)
    (vds : list AnyNumber.IViewDescriptor) :
  any_covered states vds ->
  exists events, AnyNumber.add_events states k vds = Ok events.
Proof.
  intros Hc. revert k. induction Hc as [|vd vds [s Hs] _ IH]; intros k; simpl.
  - eauto.
  - rewrite Hs. destruct (AnyNumber.visible s).
    + destruct (IH (S k)) as [evs ->]. simpl. eauto.
    + apply IH.
Qed.

Lemma any_splices_events_from_empty (states : gmap string AnyNumber.IViewState)
    (sorted : list AnyNumber.IViewDescriptor) :
  any_covered states sorted ->
  AnyNumber.splices_events (AnyNumber.mkModel [] states) (pushSplice [] 0 0 sorted)
  = AnyNumber.add_events states 0 sorted.
Proof.
  intros Hc. destruct sorted as [|vd sorted']; [reflexivity|].
  destruct (any_add_events_covered states 0 (vd :: sorted') Hc) as [evs Hevs].
  unfold pushSplice. cbn [length Nat.eqb andb AnyNumber.splices_events].
  unfold AnyNumber.splice_events.
  cbn [start deleteCount toInsert AnyNumber.viewDescriptors AnyNumber.viewStates
       nth_error AnyNumber.remove_events length].
  cbn [mbind result_bind mret result_ret app]. rewrite Hevs.
  cbn [mbind result_bind mret result_ret app]. rewrite app_nil_r. reflexivity.
Qed.

(** The constructor of the base class returns, whatever the orders are: it
    starts from an empty list, so [sortedDiff] never calls the comparator. *)
Lemma any_new_model_ok (vds : list AnyNumber.IViewDescriptor)
    (states : gmap string AnyNumber.IViewState) :
  let sorted := js_sort (AnyNumber.compareViewDescriptors states) vds in
  let states' := AnyNumber.add_default_states sorted states in
  exists events,
    AnyNumber.add_events states' 0 sorted = Ok events
    /\ AnyNumber.new_model vds states = Ok (AnyNumber.mkModel sorted states', events).
Proof.
  intros sorted states'.
  destruct (any_add_events_covered states' 0 sorted
              (any_add_default_states_covers sorted states)) as [evs Hevs].
  exists evs. split; [exact Hevs|].
  unfold AnyNumber.new_model, AnyNumber.onDidChangeViewDescriptors.
  cbn [AnyNumber.viewStates AnyNumber.viewDescriptors].
  unfold sortedDiff. cbn [sortedDiff_loop]. rewrite rev_involutive.
  fold sorted. fold states'.
  rewrite (any_splices_events_from_empty states' sorted
             (any_add_default_states_covers sorted states)), Hevs.
  reflexivity.
Qed.

(** ** The integer orders among all numbers *)

Lemma resolved_order_any (states : gmap string IViewState) (a : IViewDescriptor) :
  AnyNumber.resolved_order (any_state <$> states) (any_descriptor a)
  = resolved_order states a.
Proof.
  unfold AnyNumber.resolved_order, resolved_order. cbn [any_descriptor AnyNumber.vd_id
    AnyNumber.vd_order].
  rewrite lookup_fmap.
  destruct (states !! vd_id a) as [[v c [o|] z]|]; simpl;
    try reflexivity; destruct (vd_order a); reflexivity.
Qed.

(** On descriptors and states with integer orders the comparator over every
    number is the comparator above. *)
Lemma compareViewDescriptors_any (states : gmap string IViewState)
    (a b : IViewDescriptor) :
  AnyNumber.compareViewDescriptors (any_state <$> states)
    (any_descriptor a) (any_descriptor b)
  = compareViewDescriptors states a b.
Proof.
  unfold AnyNumber.compareViewDescriptors, compareViewDescriptors.
  rewrite !resolved_order_any. reflexivity.
Qed.

Lemma ordered_any (states : gmap string IViewState) (a : IViewDescriptor) :
  ordered (any_state <$> states) (any_descriptor a).
Proof.
  unfold ordered. rewrite resolved_order_any.
  destruct (resolved_order_cases states a) as [[z ->]| ->]; discriminate.
Qed.

(** On states with integer orders and sizes the states are written as
    above, read back as they were, and kept whole by a save and a load. *)
Lemma state_to_json_any (s : IViewState) :
  AnyNumber.state_to_json (any_state s) = state_to_json s
  /\ AnyNumber.state_of_json (state_to_json s) = Some (any_state s).
Proof. destruct s as [v c [o|] [z|]]; split; reflexivity. Qed.

(** ** The reconcile pass on integer orders among all numbers *)

Section Images.

Context {A B : Type}.
Variable f : A -> B.
Variable compareA : A -> A -> jsnum.
Variable compareB : B -> B -> jsnum.
Hypothesis compare_image : forall x y, compareB (f x) (f y) = compareA x y.

Abbreviation splice_image := (splice_image f).

Lemma sort_insert_image (x : A) (l : list A) :
  sort_insert compareB (f x) (map f l) = map f (sort_insert compareA x l).
Proof.
  induction l as [|y l IH]; simpl; [reflexivity|].
  rewrite compare_image. destruct (num_gt0 (compareA x y)); simpl;
    [rewrite IH|]; reflexivity.
Qed.

Lemma js_sort_image (l : list A) :
  js_sort compareB (map f l) = map f (js_sort compareA l).
Proof.
  induction l as [|x l IH]; [reflexivity|].
  unfold js_sort in *. simpl. rewrite IH. apply sort_insert_image.
Qed.

Lemma pushSplice_image (result : list (ISplice A)) (start' deleteCount' : nat)
    (toInsert' : list A) :
  pushSplice (map splice_image result) start' deleteCount' (map f toInsert')
  = map splice_image (pushSplice result start' deleteCount' toInsert').
Proof.
  unfold pushSplice. rewrite length_map.
  destruct (Nat.eqb deleteCount' 0 && Nat.eqb (length toInsert') 0);
    [reflexivity|].
  destruct result as [|latest earlier]; [reflexivity|].
  cbn [map splice_image start deleteCount toInsert].
  destruct (Nat.eqb (start latest + deleteCount latest) start'); [|reflexivity].
  cbn [map]. unfold splice_image at 2. cbn [start deleteCount toInsert].
  rewrite map_app. reflexivity.
Qed.

Lemma sortedDiff_loop_image (before : list A) :
  forall (beforeIdx : nat) (after : list A) (result : list (ISplice A)),
    sortedDiff_loop compareB (map f before) beforeIdx (map f after)
      (map splice_image result)
    = option_map (map splice_image)
        (sortedDiff_loop compareA before beforeIdx after result).
Proof.
  induction before as [|b before IH]; intros beforeIdx after result.
  - cbn [map sortedDiff_loop option_map]. rewrite pushSplice_image. reflexivity.
  - revert result. induction after as [|a after IHa]; intros result.
    + cbn [map sortedDiff_loop option_map].
      rewrite <- (pushSplice_image result beforeIdx (length (b :: before)) []).
      cbn [map length]. rewrite length_map. reflexivity.
    + cbn [map sortedDiff_loop]. rewrite compare_image.
      destruct (num_eq0 (compareA b a)); [apply IH|].
      destruct (num_lt0 (compareA b a)).
      * rewrite <- (IH (S beforeIdx) (a :: after)).
        rewrite <- (pushSplice_image result beforeIdx 1 []). reflexivity.
      * destruct (num_gt0 (compareA b a)); [|reflexivity].
        change [f a] with (map f [a]). rewrite pushSplice_image.
        exact (IHa (pushSplice result beforeIdx 0 [a])).
Qed.

Lemma sortedDiff_image (before after : list A) :
  sortedDiff (map f before) (map f after) compareB
  = option_map (map splice_image) (sortedDiff before after compareA).
Proof.
  unfold sortedDiff.
  change (@nil (ISplice B)) with (map splice_image []).
  rewrite (sortedDiff_loop_image before 0 after []).
  destruct (sortedDiff_loop compareA before 0 after []) as [result|];
    [|reflexivity].
  simpl. rewrite map_rev. reflexivity.
Qed.

End Images.

Lemma add_default_states_any (vds : list IViewDescriptor)
    (states : gmap string IViewState) :
  AnyNumber.add_default_states (map any_descriptor vds) (any_state <$> states)
  = any_state <$> add_default_states vds states.
Proof.
  revert states. induction vds as [|vd vds IH]; intros states; [reflexivity|].
  cbn [map]. rewrite any_add_default_states_cons, add_default_states_cons.
  cbn [any_descriptor AnyNumber.vd_id]. rewrite lookup_fmap.
  destruct (states !! vd_id vd) as [s|]; simpl; [apply IH|].
  rewrite <- IH, fmap_insert. reflexivity.
Qed.

Lemma find_from_any (states : gmap string IViewState) (id : string)
    (vds : list IViewDescriptor) (i visibleIndex : nat) :
  AnyNumber.find_from (any_state <$> states) id (map any_descriptor vds)
    i visibleIndex
  = result_map any_found (find_from states id vds i visibleIndex).
Proof.
  revert i visibleIndex. induction vds as [|vd vds IH]; intros i vi;
    [reflexivity|].
  cbn [map AnyNumber.find_from find_from any_descriptor AnyNumber.vd_id].
  rewrite lookup_fmap.
  destruct (String.eqb (vd_id vd) id); [reflexivity|].
  destruct (states !! vd_id vd) as [s|]; simpl; [apply IH|reflexivity].
Qed.

Lemma find_any (m : ContributableViewsModel) (id : string) :
  AnyNumber.find (any_model m) id = result_map any_found (find m id).
Proof. apply find_from_any. Qed.

Lemma remove_events_any (m : ContributableViewsModel) (startIndex idx count : nat) :
  AnyNumber.remove_events (any_model m) startIndex idx count
  = result_map (map any_event) (remove_events m startIndex idx count).
Proof.
  revert idx. induction count as [|count IH]; intros idx; [reflexivity|].
  cbn [AnyNumber.remove_events remove_events any_model AnyNumber.viewDescriptors].
  rewrite nth_error_map.
  destruct (nth_error (viewDescriptors m) idx) as [vd|]; [|reflexivity].
  cbn [option_map any_descriptor AnyNumber.vd_id].
  change (AnyNumber.mkModel (map any_descriptor (viewDescriptors m))
            (any_state <$> viewStates m)) with (any_model m).
  rewrite find_any.
  destruct (find m (vd_id vd)) as [fd|e]; [|reflexivity].
  cbn [result_map mbind result_bind any_found AnyNumber.f_state].
  destruct (f_state fd) as [s|]; [|reflexivity].
  cbn [option_map any_state AnyNumber.visible]. rewrite IH.
  destruct (remove_events m startIndex (S idx) count) as [rest|e]; [|reflexivity].
  cbn [result_map mbind result_bind mret result_ret].
  destruct (visible s); reflexivity.
Qed.

Lemma add_events_any (states : gmap string IViewState) (startIndex : nat)
    (toInsert' : list IViewDescriptor) :
  AnyNumber.add_events (any_state <$> states) startIndex
    (map any_descriptor toInsert')
  = result_map (map any_event) (add_events states startIndex toInsert').
Proof.
  revert startIndex. induction toInsert' as [|vd rest IH]; intros startIndex;
    [reflexivity|].
  cbn [map AnyNumber.add_events add_events any_descriptor AnyNumber.vd_id].
  rewrite lookup_fmap.
  destruct (states !! vd_id vd) as [s|]; [|reflexivity].
  cbn [fmap option_fmap option_map any_state AnyNumber.visible AnyNumber.size
       AnyNumber.collapsed].
  destruct (visible s); [|apply IH].
  rewrite IH.
  destruct (add_events states (S startIndex) rest) as [rest'|e]; reflexivity.
Qed.

Lemma splice_events_any (m : ContributableViewsModel)
    (splice : ISplice IViewDescriptor) :
  AnyNumber.splice_events (any_model m) (splice_image any_descriptor splice)
  = result_map (map any_event) (splice_events m splice).
Proof.
  unfold AnyNumber.splice_events, splice_events.
  cbn [splice_image start deleteCount toInsert].
  cbn [any_model AnyNumber.viewDescriptors AnyNumber.viewStates].
  rewrite nth_error_map, length_map.
  change (AnyNumber.mkModel (map any_descriptor (viewDescriptors m))
            (any_state <$> viewStates m)) with (any_model m).
  assert (Hstart :
    match option_map any_descriptor (nth_error (viewDescriptors m) (start splice)) with
    | Some startViewDescriptor =>
        f ← AnyNumber.find (any_model m) (AnyNumber.vd_id startViewDescriptor);
        mret (AnyNumber.f_visibleIndex f)
    | None => mret (length (viewDescriptors m))
    end
    = match nth_error (viewDescriptors m) (start splice) with
      | Some startViewDescriptor =>
          f ← find m (vd_id startViewDescriptor); mret (f_visibleIndex f)
      | None => mret (length (viewDescriptors m))
      end).
  { destruct (nth_error (viewDescriptors m) (start splice)) as [vd|];
      [|reflexivity].
    cbn [option_map any_descriptor AnyNumber.vd_id]. rewrite find_any.
    destruct (find m (vd_id vd)); reflexivity. }
  rewrite Hstart.
  destruct (match nth_error (viewDescriptors m) (start splice) with
            | Some startViewDescriptor =>
                f ← find m (vd_id startViewDescriptor); mret (f_visibleIndex f)
            | None => mret (length (viewDescriptors m))
            end) as [startIndex|e]; [|reflexivity].
  cbn [mbind result_bind]. rewrite remove_events_any.
  destruct (remove_events m startIndex (start splice) (deleteCount splice))
    as [removes|e]; [|reflexivity].
  cbn [result_map mbind result_bind]. rewrite add_events_any.
  destruct (add_events (viewStates m) startIndex (toInsert splice)) as [adds|e];
    [|reflexivity].
  cbn [result_map mbind result_bind mret result_ret]. rewrite map_app. reflexivity.
Qed.

Lemma splices_events_any (m : ContributableViewsModel)
    (splices : list (ISplice IViewDescriptor)) :
  AnyNumber.splices_events (any_model m) (map (splice_image any_descriptor) splices)
  = result_map (map any_event) (splices_events m splices).
Proof.
  induction splices as [|splice rest IH]; [reflexivity|].
  cbn [map AnyNumber.splices_events splices_events].
  rewrite splice_events_any, IH.
  destruct (splice_events m splice) as [evs|e]; [|reflexivity].
  destruct (splices_events m rest) as [evs'|e]; [|reflexivity].
  cbn [result_map mbind result_bind mret result_ret]. rewrite map_app. reflexivity.
Qed.

(** The reconcile pass above is the reconcile pass over every number, run on
    descriptors and states whose orders and sizes are integers. *)
Lemma onDidChangeViewDescriptors_any (vds : list IViewDescriptor)
    (m : ContributableViewsModel) :
  AnyNumber.onDidChangeViewDescriptors (map any_descriptor vds) (any_model m)
  = result_map (fun r => (any_model (fst r), map any_event (snd r)))
      (onDidChangeViewDescriptors vds m).
Proof.
  unfold AnyNumber.onDidChangeViewDescriptors, onDidChangeViewDescriptors.
  cbn [any_model AnyNumber.viewDescriptors AnyNumber.viewStates].
  rewrite (js_sort_image any_descriptor (compareViewDescriptors (viewStates m))
             (AnyNumber.compareViewDescriptors (any_state <$> viewStates m))
             (compareViewDescriptors_any (viewStates m))).
  rewrite add_default_states_any.
  set (sorted := js_sort (compareViewDescriptors (viewStates m)) vds).
  set (states := add_default_states sorted (viewStates m)).
  rewrite (sortedDiff_image any_descriptor (compareViewDescriptors states)
             (AnyNumber.compareViewDescriptors (any_state <$> states))
             (compareViewDescriptors_any states)).
  destruct (sortedDiff (viewDescriptors m) sorted (compareViewDescriptors states))
    as [diff|]; [|reflexivity].
  cbn [option_map]. rewrite <- map_rev.
  change (AnyNumber.mkModel (map any_descriptor (viewDescriptors m))
            (any_state <$> states))
    with (any_model (mkModel (viewDescriptors m) states)).
  rewrite splices_events_any.
  destruct (splices_events (mkModel (viewDescriptors m) states) (rev diff))
    as [events|e]; reflexivity.
Qed.

Lemma any_add_events_run (states : gmap string AnyNumber.IViewState) (k : nat)
    (ins : list AnyNumber.IViewDescriptor) :
  any_covered states ins ->
  AnyNumber.add_events states k ins
  = Ok (any_add_list states k (any_visible_of states ins)).
Proof.
  intros Hc. revert k. induction Hc as [|vd ins [s Hs] _ IH]; intros k;
    [reflexivity|].
  simpl. unfold any_is_visible. rewrite Hs. destruct (AnyNumber.visible s).
  - rewrite IH. simpl. rewrite Hs. reflexivity.
  - apply IH.
Qed.

Lemma persisted_states_finite (states : gmap string AnyNumber.IViewState) :
  (forall id s, states !! id = Some s -> finite_state s) ->
  persisted_state <$> states = states.
Proof.
  intros Hfinite. apply map_eq. intros id. rewrite lookup_fmap.
  destruct (states !! id) as [s|] eqn:Hs; [|reflexivity].
  simpl. rewrite (persisted_state_finite s (Hfinite id s Hs)). reflexivity.
Qed.

Lemma any_js_sort_settles (states : gmap string AnyNumber.IViewState)
    (vds l : list AnyNumber.IViewDescriptor) :
  Forall (ordered states) l -> Sorted (any_key_le states) l ->
  NoDup (map AnyNumber.vd_id l) -> vds ≡ₚ l ->
  js_sort (AnyNumber.compareViewDescriptors states) vds = l.
Proof.
  intros Ho Hsorted Hnd Hp.
  rewrite (any_js_sort_perm_invariant states vds l).
  - apply any_js_sort_of_sorted. exact Hsorted.
  - rewrite Hp. exact Ho.
  - rewrite Hp. exact Hnd.
  - exact Hp.
Qed.

(** * Main results *)

(** ** Indices of the reconcile pass *)

(** C1 (at the failing input): the stored list is [a], [b] with [a] hidden,
    and [c] becomes active.  The pass fires one add event for [c] with index
    [2], the length of the stored list, while the visible projection at that
    moment is [b] alone, whose insertion points are [0] and [1]; a consumer
    that requires a position of its list cannot apply the event, although
    the visible projection afterwards is [b], [c]. *)
Theorem reconcile_append_index_beyond_visible :
  exists m',
    onDidChangeViewDescriptors [view_a; view_b; view_c] model_a_hidden
    = Ok (m', [DidAdd 2 view_c None false])
    /\ visibleViewDescriptors model_a_hidden = Ok [view_b]
    /\ visibleViewDescriptors m' = Ok [view_b; view_c]
    /\ replay [view_b] [DidAdd 2 view_c None false] = None
    /\ replay [view_b] [DidAdd 1 view_c None false] = Some [view_b; view_c].
Proof.
  eexists. split; [vm_compute; reflexivity|].
  split; [vm_compute; reflexivity|].
  split; [vm_compute; reflexivity|].
  split; reflexivity.
Qed.

(** ** The order on descriptors *)

(** C2 (amended): over every number an order can be, for all descriptors
    [a], [b], [c] whose order, as the comparator resolves it, is not [NaN],
    and any state map, the comparator is antisymmetric (swapping the
    arguments swaps negative and positive and keeps zero), has a sign, is
    transitive, and is zero only when the ids are equal, so that descriptors
    with different ids are strictly ordered; for a list of such descriptors,
    sorting the sorted list gives it back, and two lists holding the same
    descriptors (with pairwise different ids) sort to the same list. *)
Theorem compareViewDescriptors_strict_total_order
    (states : gmap string AnyNumber.IViewState)
    (a b c : AnyNumber.IViewDescriptor)
    (l l' : list AnyNumber.IViewDescriptor)
    (Ha : ordered states a) (Hb : ordered states b) (Hc : ordered states c)
    (Hl : Forall (ordered states) l) :
  let cmp := AnyNumber.compareViewDescriptors states in
  num_lt0 (cmp a b) = num_gt0 (cmp b a)
  /\ num_eq0 (cmp a b) = num_eq0 (cmp b a)
  /\ (num_lt0 (cmp a b) || num_eq0 (cmp a b) || num_gt0 (cmp a b) = true)
  /\ (num_lt0 (cmp a b) = true -> num_lt0 (cmp b c) = true ->
      num_lt0 (cmp a c) = true)
  /\ (num_eq0 (cmp a b) = true -> AnyNumber.vd_id a = AnyNumber.vd_id b)
  /\ (AnyNumber.vd_id a <> AnyNumber.vd_id b ->
      num_lt0 (cmp a b) = true \/ num_lt0 (cmp b a) = true)
  /\ js_sort cmp (js_sort cmp l) = js_sort cmp l
  /\ (NoDup (map AnyNumber.vd_id l) -> l ≡ₚ l' -> js_sort cmp l = js_sort cmp l').
Proof.
  intros cmp. subst cmp. repeat split.
  - apply eq_true_iff_eq.
    rewrite (any_cmp_lt0 states a b Ha Hb), (any_cmp_gt0 states b a Hb Ha).
    reflexivity.
  - apply eq_true_iff_eq.
    rewrite (any_cmp_eq0 states a b Ha Hb), (any_cmp_eq0 states b a Hb Ha).
    unfold any_key_eq. split; intros [? ?]; split; congruence.
  - apply any_cmp_sign; assumption.
  - rewrite (any_cmp_lt0 states a b Ha Hb), (any_cmp_lt0 states b c Hb Hc),
      (any_cmp_lt0 states a c Ha Hc).
    apply any_key_lt_trans.
  - rewrite (any_cmp_eq0 states a b Ha Hb). intros [_ H]. exact H.
  - intros Hne.
    rewrite (any_cmp_lt0 states a b Ha Hb), (any_cmp_lt0 states b a Hb Ha).
    destruct (any_key_trichotomy states a b) as [?|[[_ ?]|?]]; auto. contradiction.
  - apply any_js_sort_idem. exact Hl.
  - apply any_js_sort_perm_invariant. exact Hl.
Qed.

Lemma compareViewDescriptors_strict_total_order_witness :
  ordered ∅ view_first /\ ordered ∅ view_three /\ ordered ∅ view_last
  /\ Forall (ordered ∅) [view_last; view_three; view_first]
  /\ num_lt0 (AnyNumber.compareViewDescriptors ∅ view_first view_three) = true
  /\ num_lt0 (AnyNumber.compareViewDescriptors ∅ view_three view_last) = true
  /\ num_lt0 (AnyNumber.compareViewDescriptors ∅ view_first view_last) = true
  /\ NoDup (map AnyNumber.vd_id [view_last; view_three; view_first])
  /\ [view_last; view_three; view_first] ≡ₚ [view_first; view_last; view_three]
  /\ js_sort (AnyNumber.compareViewDescriptors ∅) [view_last; view_three; view_first]
     = js_sort (AnyNumber.compareViewDescriptors ∅)
         [view_first; view_last; view_three].
Proof.
  assert (H1 : ordered ∅ view_first) by (vm_compute; discriminate).
  assert (H2 : ordered ∅ view_three) by (vm_compute; discriminate).
  assert (H3 : ordered ∅ view_last) by (vm_compute; discriminate).
  assert (Hl : Forall (ordered ∅) [view_last; view_three; view_first]).
  { repeat constructor; assumption. }
  pose proof (compareViewDescriptors_strict_total_order ∅
                view_first view_three view_last
                [view_last; view_three; view_first]
                [view_first; view_last; view_three] H1 H2 H3 Hl) as H.
  simpl in H. destruct H as (_ & _ & _ & Htrans & _ & _ & _ & Hperm).
  assert (L1 : num_lt0 (AnyNumber.compareViewDescriptors ∅ view_first view_three)
               = true) by (vm_compute; reflexivity).
  assert (L2 : num_lt0 (AnyNumber.compareViewDescriptors ∅ view_three view_last)
               = true) by (vm_compute; reflexivity).
  assert (Hnd : NoDup (map AnyNumber.vd_id [view_last; view_three; view_first])).
  { apply NoDup_ListNoDup. repeat constructor; simpl; intuition discriminate. }
  assert (Hp : [view_last; view_three; view_first]
               ≡ₚ [view_first; view_last; view_three]).
  { symmetry. apply (Permutation_cons_append [view_last; view_three] view_first). }
  split; [exact H1|]. split; [exact H2|]. split; [exact H3|]. split; [exact Hl|].
  split; [exact L1|]. split; [exact L2|].
  split; [exact (Htrans L1 L2)|].
  split; [exact Hnd|]. split; [exact Hp|].
  exact (Hperm Hnd Hp).
Defined.

(** A descriptor whose order is [NaN] passes the [typeof] test of the
    comparator.  Compared with itself or with any other descriptor it gives
    [NaN], which is neither negative, zero nor positive: it is not in front
    of a descriptor with another id, nor is that one in front of it. *)
Lemma compareViewDescriptors_nan_order_counterexample :
  AnyNumber.compareViewDescriptors ∅ view_nan view_nan = NaN
  /\ AnyNumber.compareViewDescriptors ∅ view_nan view_three = NaN
  /\ AnyNumber.compareViewDescriptors ∅ view_three view_nan = NaN
  /\ AnyNumber.vd_id view_nan <> AnyNumber.vd_id view_three
  /\ ~ strictly_ordered_pair ∅ view_nan view_three.
Proof.
  split; [reflexivity|]. split; [reflexivity|]. split; [reflexivity|].
  split; [discriminate|].
  intros (Hsign & _). vm_compute in Hsign. discriminate.
Qed.

(** ** setVisible *)

(** C3: for an id present in the model, [setVisible] finds the first
    descriptor with that id and its state; it throws "Can't toggle this
    view's visibility" when the descriptor cannot be toggled; it returns the
    model unchanged and fires nothing when the state already has the target
    value; otherwise it stores the flipped state and fires exactly one event
    at the visible index (the number of visible descriptors in front of it):
    an add carrying the state's size and collapsed flag, or a remove.  Two
    calls in a row with the same value fire at most one event. *)
Theorem setVisible_spec (m : ContributableViewsModel) (id : string) (v : bool)
    (Hcover : states_cover m) (Hin : id ∈ map vd_id (viewDescriptors m)) :
  exists pre vd post s,
    viewDescriptors m = pre ++ vd :: post
    /\ vd_id vd = id
    /\ Forall (fun d => vd_id d <> id) pre
    /\ viewStates m !! id = Some s
    /\ (vd_canToggleVisibility vd = false ->
        setVisible id v m = Throw CantToggleVisibility)
    /\ (vd_canToggleVisibility vd = true -> visible s = v ->
        setVisible id v m = Ok (m, []))
    /\ (vd_canToggleVisibility vd = true -> visible s <> v ->
        let vi := length (visible_of (viewStates m) pre) in
        setVisible id v m =
          Ok (mkModel (viewDescriptors m)
                      (<[id := mkViewState v (collapsed s) (order s) (size s)]>
                         (viewStates m)),
              [if v then DidAdd vi vd (size s) (collapsed s)
               else DidRemove vi vd]))
    /\ (length (events_of (setVisible id v m)) <= 1)%nat
    /\ events_of (setVisible id v (model_after m (setVisible id v m))) = [].
Proof.
  pose proof (find_from_spec (viewStates m) id (viewDescriptors m) 0 0 Hcover) as Hf.
  destruct (find_present m id Hcover Hin) as [f Hfind].
  unfold find in Hfind. rewrite Hfind in Hf.
  destruct Hf as (pre & post & s & Hvds & Hid & Hpre & Hst & Hlk & _ & Hvi).
  simpl in Hvi.
  exists pre, (f_viewDescriptor f), post, s.
  pose proof (setVisible_found m id v f s Hfind Hst) as Hm.
  split; [exact Hvds|]. split; [exact Hid|]. split; [exact Hpre|].
  split; [exact Hlk|].
  split; [|split; [|split; [|split]]].
  - intros Hc. rewrite Hm, Hc. reflexivity.
  - intros Hc Hv. rewrite Hm, Hc, Hv, eqb_reflx. reflexivity.
  - intros Hc Hv vi. rewrite Hm, Hc. simpl.
    destruct (Bool.eqb (visible s) v) eqn:He;
      [apply eqb_prop in He; contradiction|].
    unfold update_state, set_visible. rewrite Hid, Hvi. reflexivity.
  - rewrite Hm. destruct (negb _); [simpl; lia|].
    destruct (Bool.eqb _ _); simpl; lia.
  - destruct (negb (vd_canToggleVisibility (f_viewDescriptor f))) eqn:Hc.
    + rewrite Hm, ?Hc. simpl. rewrite Hm, ?Hc. reflexivity.
    + destruct (Bool.eqb (visible s) v) eqn:He.
      * rewrite Hm, ?Hc, ?He. simpl. rewrite Hm, ?Hc, ?He. reflexivity.
      * rewrite Hm at 1. rewrite ?Hc, ?He. simpl.
        pose proof (find_from_insert _ _ (set_visible v s) _ _ _ _ Hfind) as Hf'.
        rewrite (setVisible_found _ id v
                   (mkFound (f_index f) (f_visibleIndex f) (f_viewDescriptor f)
                            (Some (set_visible v s)))
                   (set_visible v s)).
        -- simpl. rewrite Hc, eqb_reflx. reflexivity.
        -- unfold find, update_state. simpl. rewrite Hid. exact Hf'.
        -- reflexivity.
Qed.

Lemma setVisible_spec_witness :
  states_cover model_a_hidden
  /\ "b" ∈ map vd_id (viewDescriptors model_a_hidden)
  /\ (length (events_of (setVisible "b" false model_a_hidden)) <= 1)%nat
  /\ events_of (setVisible "b" false
                  (model_after model_a_hidden
                     (setVisible "b" false model_a_hidden))) = [].
Proof.
  assert (Hcover : states_cover model_a_hidden).
  { repeat constructor; vm_compute; eauto. }
  assert (Hin : "b" ∈ map vd_id (viewDescriptors model_a_hidden)).
  { vm_compute. set_solver. }
  split; [exact Hcover|]. split; [exact Hin|].
  destruct (setVisible_spec model_a_hidden "b" false Hcover Hin)
    as (pre & vd & post & s & _ & _ & _ & _ & _ & _ & _ & Hone & Htwice).
  split; [exact Hone|exact Htwice].
Defined.

(** ** Reconciling twice *)



(** ** move *)

(** C5 (amended): for two ids of the stored list, [move] moves the [from]
    descriptor from its raw position to the raw position of [to], sets the
    [order] of the state of every descriptor of the list to its new raw
    index and leaves the other states alone, and fires exactly one move
    event with the raw index of [from] before the move and its descriptor,
    and the raw index it has after the move together with the descriptor
    that was there.  When the two descriptors are adjacent, moving back with
    the ids swapped gives back the stored order. *)
Theorem move_renumbers_and_adjacent_move_back
    (m : ContributableViewsModel) (i j : nat) (a b : IViewDescriptor)
    (Hcover : states_cover m)
    (Hnodup : NoDup (map vd_id (viewDescriptors m)))
    (Ha : viewDescriptors m !! i = Some a)
    (Hb : viewDescriptors m !! j = Some b) :
  exists m',
    move (vd_id a) (vd_id b) m
    = Ok (m', [DidMove (Z.of_nat i) (Some a) (Z.of_nat j) (Some b)])
    /\ viewDescriptors m' = take j (delete i (viewDescriptors m)) ++
                            a :: drop j (delete i (viewDescriptors m))
    /\ viewDescriptors m' !! j = Some a
    /\ (forall n d, viewDescriptors m' !! n = Some d ->
        exists s, viewStates m !! vd_id d = Some s
                  /\ viewStates m' !! vd_id d
                     = Some (mkViewState (visible s) (collapsed s)
                                         (Some (Z.of_nat n)) (size s)))
    /\ (forall id, id ∉ map vd_id (viewDescriptors m) ->
                   viewStates m' !! id = viewStates m !! id)
    /\ (j = S i \/ i = S j -> move_back_restores m (vd_id a) (vd_id b)).
Proof.
  destruct (move_ok m i j a b Hcover Hnodup Ha Hb)
    as (states' & Hmove & Hperm & Hout & Hin).
  set (m' := mkModel (list_move (viewDescriptors m) i j a) states') in *.
  exists m'. split; [exact Hmove|]. split; [reflexivity|].
  assert (Hj : viewDescriptors m' !! j = Some a).
  { simpl. unfold list_move. apply list_lookup_middle.
    rewrite length_take_le; [reflexivity|].
    rewrite length_delete by eauto.
    apply lookup_lt_Some in Hb. lia. }
  split; [exact Hj|]. split; [exact Hin|]. split; [exact Hout|].
  intros Hadj.
  assert (Hcover' : states_cover m').
  { eapply move_keeps_cover; [exact Hcover|exact Hmove]. }
  assert (Hnodup' : NoDup (map vd_id (viewDescriptors m'))).
  { simpl. rewrite Hperm. exact Hnodup. }
  assert (Hback : exists i', viewDescriptors m' !! i' = Some b
                    /\ list_move (viewDescriptors m') i' j b = viewDescriptors m).
  { apply list_move_back; assumption. }
  destruct Hback as (i' & Hb' & Hrestored).
  destruct (move_ok m' i' j b a Hcover' Hnodup' Hb' Hj)
    as (states'' & Hmove' & _).
  unfold move_back_restores.
  eexists _, _, _, _. split; [exact Hmove|]. split; [exact Hmove'|].
  simpl. exact Hrestored.
Qed.

Lemma move_renumbers_and_adjacent_move_back_witness :
  states_cover model_a_hidden
  /\ NoDup (map vd_id (viewDescriptors model_a_hidden))
  /\ viewDescriptors model_a_hidden !! 0%nat = Some view_a
  /\ viewDescriptors model_a_hidden !! 1%nat = Some view_b
  /\ move_back_restores model_a_hidden "a" "b".
Proof.
  assert (Hcover : states_cover model_a_hidden).
  { repeat constructor; vm_compute; eauto. }
  assert (Hnd : NoDup (map vd_id (viewDescriptors model_a_hidden))).
  { apply NoDup_ListNoDup. repeat constructor; simpl; intuition discriminate. }
  split; [exact Hcover|]. split; [exact Hnd|].
  split; [reflexivity|]. split; [reflexivity|].
  destruct (move_renumbers_and_adjacent_move_back model_a_hidden 0 1
              view_a view_b Hcover Hnd eq_refl eq_refl)
    as (m' & _ & _ & _ & _ & _ & Hback).
  apply Hback. left. reflexivity.
Defined.

(** For a pair two positions apart the stored order does not come back:
    with [a], [c], [b] stored in this order, moving [a] onto [b] gives [c],
    [b], [a]; moving [b] onto [a] then gives [c], [a], [b]. *)
Lemma move_back_two_apart_counterexample :
  states_cover model_a_c_b
  /\ NoDup (map vd_id (viewDescriptors model_a_c_b))
  /\ viewDescriptors model_a_c_b !! 0%nat = Some view_a
  /\ viewDescriptors model_a_c_b !! 2%nat = Some view_b
  /\ ~ move_back_restores model_a_c_b "a" "b".
Proof.
  split; [repeat constructor; vm_compute; eauto|].
  split; [apply NoDup_ListNoDup; repeat constructor; simpl; intuition discriminate|].
  split; [reflexivity|]. split; [reflexivity|].
  intros (m1 & events1 & m2 & events2 & H1 & H2 & H3).
  vm_compute in H1. injection H1 as <- _.
  vm_compute in H2. injection H2 as <- _.
  vm_compute in H3. discriminate.
Qed.

(** ** Deregistration *)

(** C6: a deregistration batch removes the items it names, lowers the
    reference count of every predicate key of a removed item by the number
    of times the removed items mention it, and fires the changed signal
    once when a removed item was active and not at all otherwise; a batch
    that names inactive items only does not fire. *)
Theorem onViewsDeregistered_spec (batch : list IViewDescriptor)
    (c : ViewDescriptorCollection)
    (Hwf : counterset_wf (contextKeys c))
    (Hnodup : NoDup (map item_id (items c)))
    (Hreg : delivers_registered batch (items c)) :
  exists c' fires,
    onViewsDeregistered batch c = Ok (c', fires)
    /\ items c' = List.filter (fun i => negb (named_in batch i)) (items c)
    /\ (forall key,
          CounterSet.counter key (contextKeys c')
          = Z.max 0 (CounterSet.counter key (contextKeys c)
                     - occurrences key
                         (concat (map item_keys
                                    (List.filter (named_in batch) (items c))))))
    /\ (fires = 0%nat \/ fires = 1%nat)
    /\ (fires = 1%nat <->
          exists i, i ∈ List.filter (named_in batch) (items c) /\ active i = true)
    /\ (Forall (fun i => active i = false) (List.filter (named_in batch) (items c)) ->
        fires = 0%nat).
Proof.
  destruct (onViewsDeregistered_loop_spec batch c false Hwf Hnodup Hreg)
    as (c' & Hrun & Hitems & _ & Hcnt).
  set (removed := List.filter (named_in batch) (items c)) in *.
  exists c', (fire_if (existsb active removed)).
  unfold onViewsDeregistered. rewrite Hrun. simpl.
  split; [reflexivity|]. split; [exact Hitems|]. split; [exact Hcnt|].
  assert (Hex : existsb active removed = true <->
                exists i, i ∈ removed /\ active i = true).
  { rewrite existsb_exists. split; intros (i & Hi & Ha); exists i;
      (split; [apply list_elem_of_In; exact Hi|exact Ha]). }
  split; [|split].
  - destruct (existsb active removed); simpl; auto.
  - rewrite <- Hex. destruct (existsb active removed); simpl;
      split; congruence.
  - intros Hall. destruct (existsb active removed) eqn:He; [|reflexivity].
    destruct (proj1 Hex eq_refl) as (i & Hi & Ha).
    rewrite Forall_forall in Hall. rewrite (Hall i Hi) in Ha. discriminate.
Qed.

Lemma onViewsDeregistered_spec_witness :
  counterset_wf (contextKeys collection_a_w)
  /\ NoDup (map item_id (items collection_a_w))
  /\ delivers_registered [view_when] (items collection_a_w)
  /\ exists c',
      onViewsDeregistered [view_when] collection_a_w = Ok (c', 0%nat)
      /\ map item_id (items c') = ["a"]
      /\ CounterSet.counter "k" (contextKeys collection_a_w) = 1
      /\ CounterSet.counter "k" (contextKeys c') = 0.
Proof.
  assert (Hwf : counterset_wf (contextKeys collection_a_w)).
  { change (counterset_wf (CounterSet.add "k" CounterSet.empty)).
    apply counterset_add_wf. intros key c H.
    unfold CounterSet.empty in H. rewrite lookup_empty in H. discriminate. }
  assert (Hnd : NoDup (map item_id (items collection_a_w))).
  { apply NoDup_ListNoDup. repeat constructor; simpl; intuition discriminate. }
  assert (Hreg : delivers_registered [view_when] (items collection_a_w)).
  { intros vd i Hvd Hi Hid.
    apply list_elem_of_singleton in Hvd. subst vd.
    change (items collection_a_w)
      with [mkViewItem view_a true; mkViewItem view_when false] in Hi.
    apply elem_of_cons in Hi as [->|Hi]; [discriminate Hid|].
    apply list_elem_of_singleton in Hi. subst i. reflexivity. }
  split; [exact Hwf|]. split; [exact Hnd|]. split; [exact Hreg|].
  destruct (onViewsDeregistered_spec [view_when] collection_a_w Hwf Hnd Hreg)
    as (c' & fires & Hrun & Hitems & Hcnt & _ & _ & Hnone).
  exists c'. rewrite Hrun, Hitems, Hcnt.
  rewrite Hnone by (repeat constructor).
  split; [reflexivity|]. split; [reflexivity|]. split; reflexivity.
Defined.

(** ** Comment nodes *)

(** C7: a thread with at least one comment becomes the node of its first
    comment, and the other comments become that node's replies, each one a
    node without replies of its own; a thread without comments gives no
    node.  A single thread with two comments for one resource yields one
    resource entry holding one node whose replies are the second comment. *)
Theorem createCommentNode_first_and_replies {URI : Type}
    (URI_parse : string -> URI) (URI_toString : URI -> string)
    (resource' : URI) (threadId' resource_text : string) (range' : IRange)
    (first second : Comment) (rest : list Comment) (m : CommentsModel URI) :
  createCommentNode resource'
    (mkCommentThread threadId' resource_text range' (first :: rest))
  = Some (mkCommentNode threadId' range' first
            (map (fun c => mkCommentNode threadId' range' c [] resource') rest)
            resource')
  /\ createCommentNode resource'
       (mkCommentThread threadId' resource_text range' [])
     = None
  /\ setCommentThreads URI_parse URI_toString
       [mkCommentThread threadId' resource_text range' [first; second]] m
     = Ok (mkCommentsModel
             [mkResource (URI_toString (URI_parse resource_text))
                [Some (mkCommentNode threadId' range' first
                         [mkCommentNode threadId' range' second []
                                        (URI_parse resource_text)]
                         (URI_parse resource_text))]
                (URI_parse resource_text)]).
Proof.
  split; [|split; reflexivity].
  unfold createCommentNode, new_CommentNode, set_replies. simpl.
  destruct rest as [|c rest]; simpl; [reflexivity|].
  rewrite firstn_all. reflexivity.
Qed.

(** ** Added comment threads *)

(** C8: once the removed and the changed threads have been applied, the
    added phase sorts the added threads into groups, one per resource, and
    appends one resource entry per group behind the entries the model
    already has; the existing entries stay as they are, so that a resource
    that already has an entry and receives an added thread ends up with (at
    least) two entries carrying its id. *)
Theorem addCommentThreads_appends_without_merging {URI : Type}
    (URI_parse : string -> URI) (URI_toString : URI -> string)
    (event : CommentThreadChangedEvent) (m m1 m2 : CommentsModel URI)
    (Hremoved : for_each remove_thread (removed event) m = Ok m1)
    (Hchanged : for_each (change_thread URI_parse) (changed event) m1 = Ok m2) :
  let groups := groupBy (added event) _compareURIs in
  let entries := map (group_entry URI_parse URI_toString) groups in
  updateCommentThreads URI_parse URI_toString event m
  = Ok (mkCommentsModel (resourceCommentThreads m2 ++ entries))
  /\ Forall group_ok groups
  /\ NoDup (map group_key groups)
  /\ concat groups ≡ₚ added event
  /\ (forall e0 t,
        e0 ∈ resourceCommentThreads m2 -> t ∈ added event ->
        id e0 = URI_toString (URI_parse (ct_resource t)) ->
        (2 <= length (List.filter (resource_has_id (id e0))
                                  (resourceCommentThreads m2 ++ entries)))%nat).
Proof.
  intros groups entries.
  destruct (groupBy_spec (added event)) as (Hok & Hnd & Hperm).
  fold groups in Hok, Hnd, Hperm.
  split; [|split; [exact Hok|split; [exact Hnd|split; [exact Hperm|]]]].
  - unfold updateCommentThreads. rewrite Hremoved. simpl. rewrite Hchanged. simpl.
    apply addCommentThreads_spec.
  - intros e0 t He0 Ht Hid.
    assert (Hg : exists g, g ∈ groups /\ t ∈ g).
    { rewrite <- Hperm in Ht. apply list_elem_of_In, in_concat in Ht.
      destruct Ht as (g & Hg & Htg). exists g.
      split; apply list_elem_of_In; assumption. }
    destruct Hg as (g & Hg & Htg).
    assert (Hkey : ct_resource t = group_key g).
    { rewrite Forall_forall in Hok. destruct (Hok g Hg) as [_ Hall].
      rewrite Forall_forall in Hall. apply Hall. exact Htg. }
    rewrite List.filter_app, length_app.
    pose proof (filter_length_pos (resource_has_id (id e0)) _ e0 He0
                  (String.eqb_refl _)) as H1.
    assert (H2 : (1 <= length (List.filter (resource_has_id (id e0)) entries))%nat).
    { apply (filter_length_pos _ _ (group_entry URI_parse URI_toString g)).
      - apply list_elem_of_fmap. eauto.
      - unfold resource_has_id, group_entry. simpl.
        rewrite Hid, Hkey. apply String.eqb_refl. }
    lia.
Qed.

Lemma addCommentThreads_appends_without_merging_witness :
  updateCommentThreads text_uri text_uri
    (mkChangedEvent [thread_t2] [] []) comments_model_t1
  = Ok (mkCommentsModel [group_entry text_uri text_uri [thread_t1];
                         group_entry text_uri text_uri [thread_t2]])
  /\ map id [group_entry text_uri text_uri [thread_t1];
             group_entry text_uri text_uri [thread_t2]]
     = ["file:///a.ts"; "file:///a.ts"].
Proof.
  destruct (addCommentThreads_appends_without_merging text_uri text_uri
              (mkChangedEvent [thread_t2] [] [])
              comments_model_t1 comments_model_t1 comments_model_t1
              eq_refl eq_refl) as (Hrun & _).
  split; [exact Hrun|reflexivity].
Defined.

(** ** Persisted states *)

(** C9 (amended): when a persistent model saves its states and a new
    persistent model is constructed for the same store key while the
    workbench state selects the same scope (whatever descriptors are active
    then), the constructor returns, and the new model holds a state for
    every id of the saved map: with the same visible and collapsed flags,
    and with an order and a size that are the saved ones except that a
    number that was [NaN] or infinite has become [null].  So a saved state
    whose order and size are finite numbers, [null] or absent comes back
    identical. *)
Theorem persisted_states_roundtrip
    (p : AnyNumber.PersistentContributableViewsModel)
    (storageService : IStorageService)
    (active_descriptors : list AnyNumber.IViewDescriptor)
    (workbenchState' : WorkbenchState)
    (Hscope : scope_of workbenchState' = scope_of (AnyNumber.workbenchState p)) :
  exists p' events,
    AnyNumber.new_persistent_model active_descriptors
      (AnyNumber.viewletStateStorageId p)
      (AnyNumber.saveViewsStates p storageService) workbenchState'
    = Some (Ok (p', events))
    /\ AnyNumber.viewletStateStorageId p' = AnyNumber.viewletStateStorageId p
    /\ (forall id s,
          AnyNumber.viewStates (AnyNumber.base_model p) !! id = Some s ->
          AnyNumber.viewStates (AnyNumber.base_model p') !! id
          = Some (persisted_state s))
    /\ (forall id s,
          AnyNumber.viewStates (AnyNumber.base_model p) !! id = Some s ->
          finite_state s ->
          AnyNumber.viewStates (AnyNumber.base_model p') !! id = Some s).
Proof.
  unfold AnyNumber.new_persistent_model, AnyNumber.saveViewsStates.
  rewrite Hscope, storage_get_store, any_load_states_saved.
  set (loaded := persisted_state <$> AnyNumber.viewStates (AnyNumber.base_model p)).
  destruct (any_new_model_ok active_descriptors loaded) as (events & _ & Hnew).
  rewrite Hnew. cbn [mbind result_bind mret result_ret].
  eexists _, events. split; [reflexivity|]. split; [reflexivity|].
  cbn [AnyNumber.base_model AnyNumber.viewStates].
  assert (Hkept : forall id s,
             AnyNumber.viewStates (AnyNumber.base_model p) !! id = Some s ->
             AnyNumber.add_default_states
               (js_sort (AnyNumber.compareViewDescriptors loaded) active_descriptors)
               loaded !! id = Some (persisted_state s)).
  { intros id s Hs. rewrite any_add_default_states_lookup.
    unfold loaded. rewrite lookup_fmap, Hs. reflexivity. }
  split; [exact Hkept|].
  intros id s Hs Hfinite. rewrite (Hkept id s Hs).
  rewrite (persisted_state_finite s Hfinite). reflexivity.
Qed.

Lemma persisted_states_roundtrip_witness :
  scope_of WORKSPACE_STATE = scope_of FOLDER
  /\ finite_state (AnyNumber.set_order 1 AnyNumber.default_state)
  /\ exists p' events,
      AnyNumber.new_persistent_model [any_view "b" None; any_view "a" None]
        "viewlet.state"
        (AnyNumber.saveViewsStates any_model_infinite_size (mkStorage ∅ ∅))
        WORKSPACE_STATE
      = Some (Ok (p', events))
      /\ AnyNumber.viewStates (AnyNumber.base_model p') !! "b"
         = Some (AnyNumber.set_order 1 AnyNumber.default_state)
      /\ AnyNumber.viewStates (AnyNumber.base_model p') !! "a"
         = Some (AnyNumber.mkViewState true false AnyNumber.Undefined AnyNumber.Null).
Proof.
  split; [reflexivity|]. split; [split; exact I|].
  destruct (persisted_states_roundtrip any_model_infinite_size (mkStorage ∅ ∅)
              [any_view "b" None; any_view "a" None] WORKSPACE_STATE eq_refl)
    as (p' & events & Hrun & _ & Himage & Hsame).
  exists p', events. split; [exact Hrun|]. split.
  - apply Hsame; [reflexivity|split; exact I].
  - apply (Himage "a" infinite_size_state). reflexivity.
Defined.

(** After [setSize("a", Infinity)], a save and the construction of a new
    model for the same key and scope, the state of [a] has the size [null]:
    the new model does not hold the state that was saved. *)
Lemma persisted_infinite_size_counterexample :
  AnyNumber.viewStates (AnyNumber.base_model any_model_infinite_size) !! "a"
  = Some (AnyNumber.mkViewState true false AnyNumber.Undefined
            (AnyNumber.Number PosInf))
  /\ (exists p' events,
        AnyNumber.new_persistent_model [any_view "a" None; any_view "b" None]
          "viewlet.state"
          (AnyNumber.saveViewsStates any_model_infinite_size (mkStorage ∅ ∅))
          FOLDER
        = Some (Ok (p', events))
        /\ AnyNumber.viewStates (AnyNumber.base_model p') !! "a"
           = Some (AnyNumber.mkViewState true false AnyNumber.Undefined
                     AnyNumber.Null))
  /\ ~ roundtrip_identical any_model_infinite_size (mkStorage ∅ ∅)
         [any_view "a" None; any_view "b" None] FOLDER.
Proof.
  split; [reflexivity|]. split.
  - eexists _, _. split; [vm_compute; reflexivity|]. vm_compute. reflexivity.
  - intros (p' & events & Hrun & Hsame).
    specialize (Hsame "a" _ eq_refl).
    vm_compute in Hrun. injection Hrun as <- _.
    vm_compute in Hsame. discriminate.
Qed.

(** ** The covering invariant *)


(** * Further properties *)

(** ** Reference counting *)

Lemma counterset_empty_wf : counterset_wf CounterSet.empty.
Proof.
  intros key c H. unfold CounterSet.empty in H. rewrite lookup_empty in H.
  discriminate.
Qed.

Lemma counter_add (value key : string) (s : CounterSet.t) :
  counterset_wf s ->
  CounterSet.counter key (CounterSet.add value s)
  = CounterSet.counter key s + (if String.eqb key value then 1 else 0).
Proof.
  intros Hwf.
  rewrite (counter_lookup key _ (counterset_add_wf value s Hwf)).
  unfold CounterSet.add.
  destruct (String.eqb_spec key value) as [->|Hne].
  - rewrite lookup_insert_eq. reflexivity.
  - rewrite lookup_insert_ne by congruence.
    rewrite <- counter_lookup by exact Hwf. lia.
Qed.

Lemma counterset_ext (s s' : CounterSet.t) :
  counterset_wf s -> counterset_wf s' ->
  (forall key, CounterSet.counter key s = CounterSet.counter key s') -> s = s'.
Proof.
  intros Hwf Hwf' Heq. apply map_eq. intros key.
  specialize (Heq key).
  rewrite (counter_lookup key s Hwf), (counter_lookup key s' Hwf') in Heq.
  destruct (s !! key) as [c|] eqn:Hc, (s' !! key) as [c'|] eqn:Hc'.
  - congruence.
  - specialize (Hwf key c Hc). lia.
  - specialize (Hwf' key c' Hc'). lia.
  - reflexivity.
Qed.

Lemma has_counter (key : string) (s : CounterSet.t) :
  counterset_wf s ->
  CounterSet.has key s = true <-> 0 < CounterSet.counter key s.
Proof.
  intros Hwf. rewrite (counter_lookup key s Hwf). unfold CounterSet.has.
  rewrite bool_decide_eq_true.
  destruct (s !! key) as [c|] eqn:Hc.
  - split; [intros _; exact (Hwf key c Hc)|intros _; eexists; reflexivity].
  - split; [intros [x Hx]; discriminate|lia].
Qed.

Lemma counterset_delete_add (value : string) (s : CounterSet.t) :
  counterset_wf s -> CounterSet.delete value (CounterSet.add value s) = (true, s).
Proof.
  intros Hwf.
  pose proof (counter_nonneg value s Hwf) as Hn.
  assert (Hc : CounterSet.counter value (CounterSet.add value s)
               = CounterSet.counter value s + 1).
  { rewrite counter_add by exact Hwf. rewrite String.eqb_refl. reflexivity. }
  unfold CounterSet.delete. rewrite Hc.
  destruct (Z.eqb_spec (CounterSet.counter value s + 1) 0) as [?|_]; [lia|].
  replace (CounterSet.counter value s + 1 - 1) with (CounterSet.counter value s)
    by lia.
  pose proof (counter_lookup value s Hwf) as Hl.
  destruct (Z.eqb_spec (CounterSet.counter value s) 0) as [H0|H0];
    f_equal; unfold CounterSet.add.
  - apply delete_insert_id.
    destruct (s !! value) as [c|] eqn:Hs; [|reflexivity].
    specialize (Hwf value c Hs). lia.
  - rewrite insert_insert_eq. apply insert_id.
    destruct (s !! value) as [c|] eqn:Hs; [congruence|]. lia.
Qed.

Lemma add_keys_spec (keys : list string) (s : CounterSet.t) :
  counterset_wf s ->
  counterset_wf (foldl (fun s key => CounterSet.add key s) s keys)
  /\ forall key,
      CounterSet.counter key (foldl (fun s key => CounterSet.add key s) s keys)
      = CounterSet.counter key s + occurrences key keys.
Proof.
  revert s. induction keys as [|k keys IH]; intros s Hwf.
  - split; [exact Hwf|]. intros key. unfold occurrences. simpl. lia.
  - simpl foldl.
    destruct (IH _ (counterset_add_wf k s Hwf)) as [Hwf' Hcnt].
    split; [exact Hwf'|]. intros key.
    rewrite Hcnt, counter_add, occurrences_cons by exact Hwf. lia.
Qed.

Lemma add_when_keys_spec (vd : IViewDescriptor) (s : CounterSet.t) :
  counterset_wf s ->
  counterset_wf (add_when_keys (vd_when vd) s)
  /\ forall key,
      CounterSet.counter key (add_when_keys (vd_when vd) s)
      = CounterSet.counter key s + occurrences key (batch_keys [vd]).
Proof.
  intros Hwf. unfold add_when_keys, batch_keys. cbn [map concat].
  rewrite app_nil_r.
  destruct (vd_when vd) as [e|].
  - apply add_keys_spec. exact Hwf.
  - split; [exact Hwf|]. intros key. unfold occurrences. simpl. lia.
Qed.

Lemma batch_keys_cons (vd : IViewDescriptor) (batch : list IViewDescriptor) :
  batch_keys (vd :: batch) = batch_keys [vd] ++ batch_keys batch.
Proof. unfold batch_keys. cbn [map concat]. rewrite app_nil_r. reflexivity. Qed.

Lemma batch_keys_items (contextMatchesRules : ContextKeyExpr -> bool)
    (batch : list IViewDescriptor) :
  collection_keys (map (new_item contextMatchesRules) batch) = batch_keys batch.
Proof.
  unfold collection_keys, batch_keys. rewrite map_map. reflexivity.
Qed.

Lemma collection_keys_app (l1 l2 : list IViewItem) :
  collection_keys (l1 ++ l2) = collection_keys l1 ++ collection_keys l2.
Proof. unfold collection_keys. rewrite map_app, concat_app. reflexivity. Qed.

(** ** Registration *)

Lemma onViewsRegistered_loop_spec (contextMatchesRules : ContextKeyExpr -> bool)
    (batch : list IViewDescriptor) (c : ViewDescriptorCollection) (fire : bool) :
  counterset_wf (contextKeys c) ->
  exists c',
    onViewsRegistered_loop contextMatchesRules batch c fire
    = (c', fire || existsb (isViewDescriptorActive contextMatchesRules) batch)
    /\ items c' = items c ++ map (new_item contextMatchesRules) batch
    /\ counterset_wf (contextKeys c')
    /\ forall key,
        CounterSet.counter key (contextKeys c')
        = CounterSet.counter key (contextKeys c) + occurrences key (batch_keys batch).
Proof.
  revert c fire. induction batch as [|vd rest IH]; intros c fire Hwf.
  - exists c. cbn [onViewsRegistered_loop existsb map].
    rewrite orb_false_r, app_nil_r.
    repeat split; [exact Hwf|]. intros key. unfold occurrences. simpl. lia.
  - cbn [onViewsRegistered_loop active].
    destruct (add_when_keys_spec vd _ Hwf) as [Hwf1 Hcnt1].
    set (c1 := mkCollection (add_when_keys (vd_when vd) (contextKeys c))
                            (items c ++ [mkViewItem vd
                                           (isViewDescriptorActive contextMatchesRules vd)])).
    destruct (IH c1 (if isViewDescriptorActive contextMatchesRules vd
                     then true else fire) Hwf1)
      as (c' & Hrun & Hitems & Hwf' & Hcnt).
    exists c'. rewrite Hrun. split; [|split; [|split; [exact Hwf'|]]].
    + f_equal. cbn [existsb].
      destruct (isViewDescriptorActive contextMatchesRules vd), fire; reflexivity.
    + rewrite Hitems. subst c1. cbn [items map]. rewrite <- app_assoc. reflexivity.
    + intros key. rewrite Hcnt. subst c1. cbn [contextKeys].
      rewrite Hcnt1, (batch_keys_cons vd rest), occurrences_app. lia.
Qed.

Lemma fire_if_one (b : bool) : fire_if b = 1%nat <-> b = true.
Proof. destruct b; simpl; split; intros; congruence. Qed.

Lemma fire_if_cases (b : bool) : fire_if b = 0%nat \/ fire_if b = 1%nat.
Proof. destruct b; simpl; auto. Qed.

Lemma filter_active_new_items (contextMatchesRules : ContextKeyExpr -> bool)
    (batch : list IViewDescriptor) :
  map viewDescriptor (List.filter active (map (new_item contextMatchesRules) batch))
  = List.filter (isViewDescriptorActive contextMatchesRules) batch.
Proof.
  induction batch as [|vd rest IH]; [reflexivity|].
  cbn [map List.filter new_item active].
  destruct (isViewDescriptorActive contextMatchesRules vd); cbn [map viewDescriptor];
    rewrite IH; reflexivity.
Qed.

Lemma active_current_new_items (contextMatchesRules : ContextKeyExpr -> bool)
    (batch : list IViewDescriptor) :
  active_current contextMatchesRules (map (new_item contextMatchesRules) batch).
Proof.
  unfold active_current. apply Forall_forall. intros i Hi.
  apply list_elem_of_fmap in Hi as (vd & -> & _). reflexivity.
Qed.

Lemma occurrences_filter_split (key : string) (P : IViewItem -> bool)
    (its : list IViewItem) :
  occurrences key (collection_keys its)
  = occurrences key (collection_keys (List.filter P its))
    + occurrences key (collection_keys (List.filter (fun i => negb (P i)) its)).
Proof.
  induction its as [|i rest IH]; [reflexivity|].
  change (collection_keys (i :: rest)) with (item_keys i ++ collection_keys rest).
  rewrite occurrences_app, IH. cbn [List.filter].
  destruct (P i); cbn [negb];
    change (collection_keys (i :: ?l)) with (item_keys i ++ collection_keys l);
    rewrite ?occurrences_app; lia.
Qed.

Lemma occurrences_pos (key : string) (keys : list string) :
  0 < occurrences key keys <-> key ∈ keys.
Proof.
  induction keys as [|k rest IH].
  - unfold occurrences. simpl. split; [lia|]. intros H. inversion H.
  - rewrite occurrences_cons, elem_of_cons.
    pose proof (occurrences_nonneg key rest).
    destruct (String.eqb_spec key k) as [->|Hne].
    + split; [auto|lia].
    + split.
      * intros H0. right. apply IH. lia.
      * intros [?|Hin]; [congruence|]. apply IH in Hin. lia.
Qed.

Lemma elem_of_collection_keys (key : string) (its : list IViewItem) :
  key ∈ collection_keys its <-> exists i, i ∈ its /\ key ∈ item_keys i.
Proof.
  unfold collection_keys. rewrite list_elem_of_In, in_concat. split.
  - intros (ks & Hks & Hk). apply in_map_iff in Hks as (i & <- & Hi).
    exists i. rewrite !list_elem_of_In. auto.
  - intros (i & Hi & Hk). exists (item_keys i).
    apply list_elem_of_In in Hi. apply list_elem_of_In in Hk.
    split; [apply in_map; exact Hi|exact Hk].
Qed.

(** ** Context changes *)

Lemma onContextChanged_loop_spec (contextMatchesRules : ContextKeyExpr -> bool)
    (its : list IViewItem) (fire : bool) :
  onContextChanged_loop contextMatchesRules its fire
  = (map (fun i => new_item contextMatchesRules (viewDescriptor i)) its,
     fire || existsb (fun i => negb (Bool.eqb (active i)
                                       (isViewDescriptorActive contextMatchesRules
                                          (viewDescriptor i)))) its).
Proof.
  revert fire. induction its as [|i rest IH]; intros fire.
  - simpl. rewrite orb_false_r. reflexivity.
  - cbn [onContextChanged_loop]. rewrite IH. cbn [map existsb]. f_equal.
    destruct (negb (Bool.eqb (active i)
                      (isViewDescriptorActive contextMatchesRules (viewDescriptor i)))),
      fire; reflexivity.
Qed.

Lemma refresh_current (contextMatchesRules : ContextKeyExpr -> bool)
    (its : list IViewItem) :
  active_current contextMatchesRules its ->
  map (fun i => new_item contextMatchesRules (viewDescriptor i)) its = its
  /\ existsb (fun i => negb (Bool.eqb (active i)
                               (isViewDescriptorActive contextMatchesRules
                                  (viewDescriptor i)))) its = false.
Proof.
  induction 1 as [|i rest Hi Hrest [IH1 IH2]]; [split; reflexivity|].
  cbn [map existsb]. rewrite IH1, IH2, <- Hi.
  split.
  - destruct i as [vd a]. unfold new_item. simpl in *. rewrite <- Hi. reflexivity.
  - destruct (active i); reflexivity.
Qed.

Lemma refreshed_keys (contextMatchesRules : ContextKeyExpr -> bool)
    (its : list IViewItem) :
  collection_keys (map (fun i => new_item contextMatchesRules (viewDescriptor i)) its)
  = collection_keys its.
Proof. unfold collection_keys. rewrite map_map. reflexivity. Qed.


(** ** The descriptor collection *)

(** X1: [CounterSet] counts references.  On a set whose stored counters are
    positive, [add] raises the counter of its value by one and of no other
    key, and the value is in the set afterwards; [delete] after [add] gives
    back the set as it was and reports [true]; a value is in the set exactly
    when its counter is positive; [delete] of a value that is not in the set
    reports [false] and changes nothing; [delete] of a value that is in the
    set reports [true], and the value stays in the set exactly when it had
    been added more than once.  Both operations keep the stored counters
    positive. *)
Theorem counterset_reference_counting (s : CounterSet.t) (value key : string)
    (Hwf : counterset_wf s) :
  CounterSet.has value (CounterSet.add value s) = true
  /\ CounterSet.counter key (CounterSet.add value s)
     = CounterSet.counter key s + (if String.eqb key value then 1 else 0)
  /\ CounterSet.delete value (CounterSet.add value s) = (true, s)
  /\ (CounterSet.has value s = true <-> 0 < CounterSet.counter value s)
  /\ (CounterSet.has value s = false -> CounterSet.delete value s = (false, s))
  /\ (CounterSet.has value s = true ->
      fst (CounterSet.delete value s) = true
      /\ (CounterSet.has value (snd (CounterSet.delete value s)) = true
          <-> 1 < CounterSet.counter value s))
  /\ counterset_wf (CounterSet.add value s)
  /\ counterset_wf (snd (CounterSet.delete value s)).
Proof.
  pose proof (counterset_add_wf value s Hwf) as Hwfa.
  pose proof (counterset_delete_wf value s Hwf) as Hwfd.
  pose proof (counter_nonneg value s Hwf) as Hn.
  split; [|split; [|split; [|split; [|split; [|split; [|split]]]]]].
  - apply (has_counter value _ Hwfa). rewrite counter_add by exact Hwf.
    rewrite String.eqb_refl. lia.
  - apply counter_add. exact Hwf.
  - apply counterset_delete_add. exact Hwf.
  - apply has_counter. exact Hwf.
  - intros Hhas. unfold CounterSet.delete.
    destruct (Z.eqb_spec (CounterSet.counter value s) 0) as [_|H0]; [reflexivity|].
    assert (CounterSet.has value s = true) by (apply has_counter; [exact Hwf|lia]).
    congruence.
  - intros Hhas. apply (has_counter value s Hwf) in Hhas.
    split.
    + unfold CounterSet.delete.
      destruct (Z.eqb_spec (CounterSet.counter value s) 0) as [?|_]; [lia|].
      destruct (Z.eqb (CounterSet.counter value s - 1) 0); reflexivity.
    + rewrite (has_counter value _ Hwfd), counter_delete by exact Hwf.
      rewrite String.eqb_refl. lia.
  - exact Hwfa.
  - exact Hwfd.
Qed.

Lemma counterset_reference_counting_witness :
  counterset_wf counterset_k
  /\ CounterSet.has "k" (CounterSet.add "k" counterset_k) = true
  /\ CounterSet.delete "k" (CounterSet.add "k" counterset_k) = (true, counterset_k)
  /\ CounterSet.has "j" counterset_k = false
  /\ CounterSet.delete "j" counterset_k = (false, counterset_k).
Proof.
  assert (Hwf : counterset_wf counterset_k).
  { apply counterset_add_wf, counterset_empty_wf. }
  destruct (counterset_reference_counting counterset_k "k" "k" Hwf)
    as (Hhas & _ & Hdel & _).
  destruct (counterset_reference_counting counterset_k "j" "j" Hwf)
    as (_ & _ & _ & _ & Habsent & _).
  split; [exact Hwf|]. split; [exact Hhas|]. split; [exact Hdel|].
  split; [reflexivity|]. apply Habsent. reflexivity.
Defined.

(** X2: [onViewsRegistered] appends one item per descriptor of the batch, in
    the order of the batch and behind the items already held, each with the
    flag its predicate gives in the current context; it leaves the items
    already held as they are; it raises the counter of every context key by
    the number of times the predicates of the batch mention it; the getter
    [viewDescriptors] grows by the active descriptors of the batch; and the
    change signal fires once when some descriptor of the batch is active and
    not at all otherwise, so not for an empty batch. *)
Theorem onViewsRegistered_spec (contextMatchesRules : ContextKeyExpr -> bool)
    (batch : list IViewDescriptor) (c : ViewDescriptorCollection)
    (Hwf : counterset_wf (contextKeys c)) :
  exists c' fires,
    onViewsRegistered contextMatchesRules batch c = (c', fires)
    /\ items c' = items c ++ map (new_item contextMatchesRules) batch
    /\ counterset_wf (contextKeys c')
    /\ (forall key,
          CounterSet.counter key (contextKeys c')
          = CounterSet.counter key (contextKeys c)
            + occurrences key (batch_keys batch))
    /\ collection_viewDescriptors c'
       = collection_viewDescriptors c
         ++ List.filter (isViewDescriptorActive contextMatchesRules) batch
    /\ (fires = 0%nat \/ fires = 1%nat)
    /\ (fires = 1%nat <->
        exists vd, vd ∈ batch
                   /\ isViewDescriptorActive contextMatchesRules vd = true).
Proof.
  destruct (onViewsRegistered_loop_spec contextMatchesRules batch c false Hwf)
    as (c' & Hrun & Hitems & Hwf' & Hcnt).
  exists c', (fire_if (existsb (isViewDescriptorActive contextMatchesRules) batch)).
  unfold onViewsRegistered. rewrite Hrun. cbn [orb].
  split; [reflexivity|]. split; [exact Hitems|]. split; [exact Hwf'|].
  split; [exact Hcnt|]. split; [|split].
  - unfold collection_viewDescriptors.
    rewrite Hitems, List.filter_app, map_app, filter_active_new_items. reflexivity.
  - apply fire_if_cases.
  - rewrite fire_if_one, existsb_exists. split.
    + intros (vd & Hin & Hact). exists vd. split; [|exact Hact].
      apply list_elem_of_In. exact Hin.
    + intros (vd & Hin & Hact). exists vd. split; [|exact Hact].
      apply list_elem_of_In. exact Hin.
Qed.

Lemma onViewsRegistered_spec_witness :
  counterset_wf (contextKeys collection_a_w)
  /\ exists c',
      onViewsRegistered context_k_holds [view_b; view_when] collection_a_w
      = (c', 1%nat)
      /\ map item_id (items c') = ["a"; "w"; "b"; "w"]
      /\ CounterSet.counter "k" (contextKeys c') = 2
      /\ map vd_id (collection_viewDescriptors c') = ["a"; "b"; "w"].
Proof.
  assert (Hwf : counterset_wf (contextKeys collection_a_w)).
  { change (counterset_wf (CounterSet.add "k" CounterSet.empty)).
    apply counterset_add_wf, counterset_empty_wf. }
  split; [exact Hwf|].
  destruct (onViewsRegistered_spec context_k_holds [view_b; view_when]
              collection_a_w Hwf)
    as (c' & fires & Hrun & Hitems & _ & Hcnt & Hget & _ & Hfires).
  assert (Hone : fires = 1%nat).
  { apply Hfires. exists view_b. split; [left|reflexivity]. }
  exists c'. rewrite Hrun, Hone, Hitems, Hcnt, Hget.
  split; [reflexivity|]. split; [reflexivity|]. split; reflexivity.
Defined.

Lemma NoDup_ids_inj {A} (f : A -> string) (l : list A) (x y : A) :
  NoDup (map f l) -> x ∈ l -> y ∈ l -> f x = f y -> x = y.
Proof.
  induction l as [|a rest IH]; intros Hnd Hx Hy Hf.
  - inversion Hx.
  - simpl in Hnd. apply NoDup_cons in Hnd as [Hna Hnd].
    assert (Hin : forall z, z ∈ rest -> f z ∈ map f rest).
    { intros z Hz. apply list_elem_of_fmap. exists z. auto. }
    apply elem_of_cons in Hx as [->|Hx]; apply elem_of_cons in Hy as [->|Hy].
    + reflexivity.
    + exfalso. apply Hna. rewrite Hf. apply Hin. exact Hy.
    + exfalso. apply Hna. rewrite <- Hf. apply Hin. exact Hx.
    + apply IH; assumption.
Qed.

Lemma filter_all {A} (P : A -> bool) (l : list A) :
  Forall (fun x => P x = true) l -> List.filter P l = l.
Proof.
  induction 1 as [|x rest Hx _ IH]; [reflexivity|].
  simpl. rewrite Hx, IH. reflexivity.
Qed.

Lemma filter_none {A} (P : A -> bool) (l : list A) :
  Forall (fun x => P x = false) l -> List.filter P l = [].
Proof.
  induction 1 as [|x rest Hx _ IH]; [reflexivity|].
  simpl. rewrite Hx, IH. reflexivity.
Qed.

Lemma named_in_true (batch : list IViewDescriptor) (i : IViewItem) :
  named_in batch i = true <-> item_id i ∈ map vd_id batch.
Proof. unfold named_in. apply bool_decide_eq_true. Qed.

Lemma named_in_false (batch : list IViewDescriptor) (i : IViewItem) :
  named_in batch i = false <-> item_id i ∉ map vd_id batch.
Proof. unfold named_in. apply bool_decide_eq_false. Qed.

Lemma existsb_new_items (contextMatchesRules : ContextKeyExpr -> bool)
    (batch : list IViewDescriptor) :
  existsb active (map (new_item contextMatchesRules) batch)
  = existsb (isViewDescriptorActive contextMatchesRules) batch.
Proof.
  induction batch as [|vd rest IH]; [reflexivity|].
  simpl. rewrite IH. reflexivity.
Qed.

Lemma collection_eta (c : ViewDescriptorCollection) :
  mkCollection (contextKeys c) (items c) = c.
Proof. destruct c. reflexivity. Qed.

Lemma register_then_deregister (contextMatchesRules : ContextKeyExpr -> bool)
    (batch : list IViewDescriptor) (c : ViewDescriptorCollection) :
  counterset_wf (contextKeys c) ->
  NoDup (map item_id (items c)) ->
  NoDup (map vd_id batch) ->
  (forall vd, vd ∈ batch -> vd_id vd ∉ map item_id (items c)) ->
  onViewsDeregistered_loop batch
    (fst (onViewsRegistered contextMatchesRules batch c)) false
  = Ok (c, existsb (isViewDescriptorActive contextMatchesRules) batch).
Proof.
  intros Hwf Hnd Hndb Hfresh.
  destruct (onViewsRegistered_loop_spec contextMatchesRules batch c false Hwf)
    as (c1 & Hrun & Hitems & Hwf1 & Hcnt1).
  unfold onViewsRegistered. rewrite Hrun. cbn [fst].
  assert (Hids : map item_id (map (new_item contextMatchesRules) batch)
                 = map vd_id batch).
  { rewrite map_map. reflexivity. }
  assert (Hnd1 : NoDup (map item_id (items c1))).
  { rewrite Hitems, map_app, Hids. apply NoDup_app.
    split; [exact Hnd|]. split; [|exact Hndb].
    intros x Hx Hx'. apply list_elem_of_fmap in Hx' as (vd & -> & Hvd).
    exact (Hfresh vd Hvd Hx). }
  assert (Hreg : delivers_registered batch (items c1)).
  { intros vd i Hvd Hi Hid. rewrite Hitems in Hi.
    apply elem_of_app in Hi as [Hi|Hi].
    - exfalso. apply (Hfresh vd Hvd). rewrite <- Hid.
      apply list_elem_of_fmap. exists i. auto.
    - apply list_elem_of_fmap in Hi as (vd' & -> & Hvd').
      simpl. apply (NoDup_ids_inj vd_id batch); assumption. }
  destruct (onViewsDeregistered_loop_spec batch c1 false Hwf1 Hnd1 Hreg)
    as (c2 & Hrun2 & Hitems2 & Hwf2 & Hcnt2).
  assert (Hold : Forall (fun i => named_in batch i = false) (items c)).
  { apply Forall_forall. intros i Hi. apply named_in_false.
    intros Hin. apply list_elem_of_fmap in Hin as (vd & Hid & Hvd).
    apply (Hfresh vd Hvd). rewrite <- Hid.
    apply list_elem_of_fmap. exists i. auto. }
  assert (Hnew : Forall (fun i => named_in batch i = true)
                        (map (new_item contextMatchesRules) batch)).
  { apply Forall_forall. intros i Hi. apply named_in_true.
    apply list_elem_of_fmap in Hi as (vd & -> & Hvd).
    apply list_elem_of_fmap. exists vd. auto. }
  assert (Hnamed : List.filter (named_in batch) (items c1)
                   = map (new_item contextMatchesRules) batch).
  { rewrite Hitems, List.filter_app, (filter_none _ _ Hold), (filter_all _ _ Hnew).
    reflexivity. }
  assert (Hkept : List.filter (fun i => negb (named_in batch i)) (items c1)
                  = items c).
  { rewrite Hitems, List.filter_app.
    rewrite (filter_all (fun i => negb (named_in batch i)) (items c)).
    - rewrite (filter_none (fun i => negb (named_in batch i))); [apply app_nil_r|].
      eapply Forall_impl; [exact Hnew|]. intros i Hi. simpl. rewrite Hi. reflexivity.
    - eapply Forall_impl; [exact Hold|]. intros i Hi. simpl. rewrite Hi. reflexivity. }
  rewrite Hrun2, Hnamed, existsb_new_items. cbn [orb]. f_equal. f_equal.
  rewrite <- (collection_eta c2), <- (collection_eta c). f_equal.
  - apply counterset_ext; [exact Hwf2|exact Hwf|].
    intros key. rewrite Hcnt2, Hnamed, Hcnt1.
    change (concat (map item_keys (map (new_item contextMatchesRules) batch)))
      with (collection_keys (map (new_item contextMatchesRules) batch)).
    rewrite batch_keys_items.
    pose proof (counter_nonneg key _ Hwf). lia.
  - rewrite Hitems2. exact Hkept.
Qed.

Lemma deregistered_items_kept (batch : list IViewDescriptor)
    (c c' : ViewDescriptorCollection) (fire fire' : bool) :
  onViewsDeregistered_loop batch c fire = Ok (c', fire') ->
  forall i, i ∈ items c' -> i ∈ items c.
Proof.
  revert c fire. induction batch as [|vd rest IH]; intros c fire Hrun i Hi.
  - simpl in Hrun. injection Hrun as <- _. exact Hi.
  - cbn [onViewsDeregistered_loop] in Hrun.
    destruct (Z.eqb _ (-1)).
    + exact (IH _ _ Hrun i Hi).
    + destruct (js_index _ _) as [item|]; [|discriminate].
      specialize (IH _ _ Hrun i Hi). cbn [items] in IH.
      unfold js_splice in IH. cbn [snd app] in IH.
      apply elem_of_app in IH as [IH|IH].
      * rewrite <- (firstn_skipn (splice_start (items c)
                       (firstIndex (items c) (item_has_id (vd_id vd)))) (items c)).
        apply elem_of_app. left. exact IH.
      * rewrite <- (firstn_skipn (splice_start (items c)
                       (firstIndex (items c) (item_has_id (vd_id vd)))) (items c)).
        apply elem_of_app. right.
        rewrite <- (firstn_skipn 1 (skipn _ (items c))).
        apply elem_of_app. right. exact IH.
Qed.

Lemma unaffected_keys (e : IContextKeyChangeEvent) (c : ViewDescriptorCollection)
    (i : IViewItem) (key : string) :
  keys_counted c -> affectsSome e (contextKeys c) = false ->
  i ∈ items c -> key ∈ item_keys i -> key ∉ changed_keys e.
Proof.
  intros [Hwf Hcnt] Haff Hi Hkey Hch.
  assert (Hhas : CounterSet.has key (contextKeys c) = true).
  { apply has_counter; [exact Hwf|]. rewrite Hcnt. apply occurrences_pos.
    apply elem_of_collection_keys. exists i. auto. }
  unfold affectsSome in Haff.
  assert (Hex : existsb (fun key => CounterSet.has key (contextKeys c))
                        (changed_keys e) = true).
  { apply existsb_exists. exists key. split; [|exact Hhas].
    apply list_elem_of_In. exact Hch. }
  congruence.
Qed.

Lemma registered_keys_counted (contextMatchesRules : ContextKeyExpr -> bool)
    (batch : list IViewDescriptor) (c : ViewDescriptorCollection) :
  keys_counted c ->
  keys_counted (fst (onViewsRegistered contextMatchesRules batch c)).
Proof.
  intros [Hwf Hcnt].
  destruct (onViewsRegistered_loop_spec contextMatchesRules batch c false Hwf)
    as (c' & Hrun & Hitems & Hwf' & Hcnt').
  unfold onViewsRegistered. rewrite Hrun. cbn [fst].
  split; [exact Hwf'|]. intros key.
  rewrite Hcnt', Hcnt, Hitems, collection_keys_app, occurrences_app,
    batch_keys_items. reflexivity.
Qed.

Lemma new_collection_keys_counted (contextMatchesRules : ContextKeyExpr -> bool)
    (registered : list IViewDescriptor) :
  keys_counted (new_collection contextMatchesRules registered).
Proof.
  apply registered_keys_counted. split; [apply counterset_empty_wf|].
  intros key. reflexivity.
Qed.

(** X3: the context keys of a collection are reference counts of its items.
    In the collection the constructor builds, and after every registration,
    deregistration and context change that follows, the counter of a key is
    the number of times the predicates of the items held mention it.  So a
    key is in [contextKeys] exactly when the predicate of some item held
    mentions it. *)
Theorem keys_counted_invariant (contextMatchesRules : ContextKeyExpr -> bool)
    (registered batch : list IViewDescriptor) (c : ViewDescriptorCollection) :
  keys_counted (new_collection contextMatchesRules registered)
  /\ (keys_counted c ->
      keys_counted (fst (onViewsRegistered contextMatchesRules batch c)))
  /\ (keys_counted c -> NoDup (map item_id (items c)) ->
      delivers_registered batch (items c) ->
      exists c' fires,
        onViewsDeregistered batch c = Ok (c', fires) /\ keys_counted c')
  /\ (keys_counted c ->
      keys_counted (fst (onContextChanged contextMatchesRules c)))
  /\ (keys_counted c -> forall key,
      CounterSet.has key (contextKeys c) = true
      <-> exists i, i ∈ items c /\ key ∈ item_keys i).
Proof.
  split; [|split; [|split; [|split]]].
  - apply new_collection_keys_counted.
  - apply registered_keys_counted.
  - intros [Hwf Hcnt] Hnd Hdel.
    destruct (onViewsDeregistered_loop_spec batch c false Hwf Hnd Hdel)
      as (c' & Hrun & Hitems & Hwf' & Hcnt').
    exists c', (fire_if (existsb active (List.filter (named_in batch) (items c)))).
    unfold onViewsDeregistered. rewrite Hrun. split; [reflexivity|].
    split; [exact Hwf'|]. intros key.
    rewrite Hcnt', Hcnt, Hitems.
    rewrite (occurrences_filter_split key (named_in batch) (items c)).
    unfold collection_keys.
    pose proof (occurrences_nonneg key
                  (concat (map item_keys
                     (List.filter (fun i => negb (named_in batch i)) (items c))))).
    lia.
  - intros [Hwf Hcnt]. unfold onContextChanged.
    rewrite onContextChanged_loop_spec. cbn [fst contextKeys items].
    split; [exact Hwf|]. intros key.
    cbn [contextKeys items]. rewrite refreshed_keys. apply Hcnt.
  - intros [Hwf Hcnt] key.
    rewrite (has_counter key _ Hwf), Hcnt, occurrences_pos.
    apply elem_of_collection_keys.
Qed.

Lemma keys_counted_invariant_witness :
  keys_counted collection_a_w
  /\ CounterSet.has "k" (contextKeys collection_a_w) = true
  /\ exists i, i ∈ items collection_a_w /\ "k" ∈ item_keys i.
Proof.
  destruct (keys_counted_invariant (fun _ => false) [view_a; view_when] []
              collection_a_w) as (Hnew & _ & _ & _ & Hhas).
  change (new_collection (fun _ => false) [view_a; view_when])
    with collection_a_w in Hnew.
  split; [exact Hnew|]. split; [reflexivity|].
  apply (Hhas Hnew "k"). reflexivity.
Defined.

(** X4: deregistering a batch right after registering it gives back the
    collection as it was, items and reference counts, when the descriptors
    of the batch have ids that differ from one another and from the ids of
    the items already held; the change signal of the deregistration fires
    exactly when some descriptor of the batch is active. *)
Theorem register_deregister_roundtrip
    (contextMatchesRules : ContextKeyExpr -> bool)
    (batch : list IViewDescriptor) (c : ViewDescriptorCollection)
    (Hwf : counterset_wf (contextKeys c))
    (Hnodup : NoDup (map item_id (items c)))
    (Hbatch : NoDup (map vd_id batch))
    (Hfresh : forall vd, vd ∈ batch -> vd_id vd ∉ map item_id (items c)) :
  exists fires,
    onViewsDeregistered batch
      (fst (onViewsRegistered contextMatchesRules batch c)) = Ok (c, fires)
    /\ (fires = 0%nat \/ fires = 1%nat)
    /\ (fires = 1%nat <->
        exists vd, vd ∈ batch
                   /\ isViewDescriptorActive contextMatchesRules vd = true).
Proof.
  exists (fire_if (existsb (isViewDescriptorActive contextMatchesRules) batch)).
  unfold onViewsDeregistered.
  rewrite (register_then_deregister contextMatchesRules batch c Hwf Hnodup
             Hbatch Hfresh).
  split; [reflexivity|]. split; [apply fire_if_cases|].
  rewrite fire_if_one, existsb_exists. split.
  - intros (vd & Hin & Hact). exists vd. split; [|exact Hact].
    apply list_elem_of_In. exact Hin.
  - intros (vd & Hin & Hact). exists vd. split; [|exact Hact].
    apply list_elem_of_In. exact Hin.
Qed.

Lemma register_deregister_roundtrip_witness :
  counterset_wf (contextKeys collection_a_w)
  /\ NoDup (map item_id (items collection_a_w))
  /\ NoDup (map vd_id [view_b; view_key_k])
  /\ (forall vd, vd ∈ [view_b; view_key_k] ->
                 vd_id vd ∉ map item_id (items collection_a_w))
  /\ onViewsDeregistered [view_b; view_key_k]
       (fst (onViewsRegistered context_k_holds [view_b; view_key_k] collection_a_w))
     = Ok (collection_a_w, 1%nat).
Proof.
  assert (Hwf : counterset_wf (contextKeys collection_a_w)).
  { change (counterset_wf (CounterSet.add "k" CounterSet.empty)).
    apply counterset_add_wf, counterset_empty_wf. }
  assert (Hnd : NoDup (map item_id (items collection_a_w))).
  { apply NoDup_ListNoDup. repeat constructor; simpl; intuition discriminate. }
  assert (Hndb : NoDup (map vd_id [view_b; view_key_k])).
  { apply NoDup_ListNoDup. repeat constructor; simpl; intuition discriminate. }
  assert (Hfresh : forall vd, vd ∈ [view_b; view_key_k] ->
                              vd_id vd ∉ map item_id (items collection_a_w)).
  { intros vd Hvd Hin.
    change (map item_id (items collection_a_w)) with ["a"; "w"] in Hin.
    apply elem_of_cons in Hvd as [->|Hvd];
      [|apply list_elem_of_singleton in Hvd; subst vd];
      apply elem_of_cons in Hin as [Hin|Hin]; try discriminate Hin;
      apply list_elem_of_singleton in Hin; discriminate Hin. }
  split; [exact Hwf|]. split; [exact Hnd|]. split; [exact Hndb|].
  split; [exact Hfresh|].
  destruct (register_deregister_roundtrip context_k_holds [view_b; view_key_k]
              collection_a_w Hwf Hnd Hndb Hfresh) as (fires & Hrun & _ & Hfires).
  rewrite Hrun. f_equal. f_equal. apply Hfires.
  exists view_b. split; [left|reflexivity].
Defined.

(** X5: [onContextChanged] re-evaluates every item.  It keeps the
    descriptors, their order and the reference counts; afterwards the flag
    of every item is what its predicate gives in the new context, so the
    getter [viewDescriptors] returns the held descriptors whose predicate
    holds, in order; the change signal fires once when the flag of some item
    changed and not at all otherwise; and a second pass in the same context
    changes nothing and fires nothing. *)
Theorem onContextChanged_spec (contextMatchesRules : ContextKeyExpr -> bool)
    (c : ViewDescriptorCollection) :
  exists c' fires,
    onContextChanged contextMatchesRules c = (c', fires)
    /\ contextKeys c' = contextKeys c
    /\ map viewDescriptor (items c') = map viewDescriptor (items c)
    /\ active_current contextMatchesRules (items c')
    /\ collection_viewDescriptors c'
       = List.filter (isViewDescriptorActive contextMatchesRules)
                     (map viewDescriptor (items c))
    /\ (fires = 0%nat \/ fires = 1%nat)
    /\ (fires = 1%nat <->
        exists i, i ∈ items c
                  /\ active i <> isViewDescriptorActive contextMatchesRules
                                   (viewDescriptor i))
    /\ onContextChanged contextMatchesRules c' = (c', 0%nat).
Proof.
  unfold onContextChanged at 1. rewrite onContextChanged_loop_spec. cbn [orb].
  eexists _, _. split; [reflexivity|]. cbn [contextKeys items].
  assert (Hcur : active_current contextMatchesRules
                   (map (fun i => new_item contextMatchesRules (viewDescriptor i))
                        (items c))).
  { apply Forall_forall. intros i Hi.
    apply list_elem_of_fmap in Hi as (i0 & -> & _). reflexivity. }
  split; [reflexivity|]. split; [|split; [exact Hcur|split; [|split; [|split]]]].
  - rewrite map_map. reflexivity.
  - unfold collection_viewDescriptors. cbn [items].
    rewrite <- (map_map viewDescriptor (new_item contextMatchesRules)).
    apply filter_active_new_items.
  - apply fire_if_cases.
  - rewrite fire_if_one, existsb_exists. split.
    + intros (i & Hin & Hne). exists i. split; [apply list_elem_of_In; exact Hin|].
      intros Heq. rewrite Heq in Hne.
      destruct (isViewDescriptorActive _ _); discriminate.
    + intros (i & Hin & Hne). exists i. split; [apply list_elem_of_In; exact Hin|].
      destruct (active i), (isViewDescriptorActive _ _); simpl; congruence.
  - unfold onContextChanged. rewrite onContextChanged_loop_spec.
    cbn [contextKeys items orb].
    destruct (refresh_current _ _ Hcur) as [-> ->]. reflexivity.
Qed.

(** X6: the flags of a collection stay current, and the filter in front of
    [onContextChanged] loses nothing.  Take a collection whose reference
    counts are those of its items and whose flags are current in a context.
    Registering and deregistering in that context keep the flags current,
    and the getter [viewDescriptors] returns the held descriptors whose
    predicate holds.  When the context changes and the value of a predicate
    can only change with one of the keys it mentions, then after the change
    has gone through the filter the flags are current in the new context;
    for a change the filter drops, running [onContextChanged] would have
    changed nothing and fired nothing. *)
Theorem active_flags_stay_current
    (contextMatchesRules contextMatchesRules' : ContextKeyExpr -> bool)
    (e : IContextKeyChangeEvent) (batch : list IViewDescriptor)
    (c : ViewDescriptorCollection)
    (Hkeys : keys_counted c)
    (Hcurrent : active_current contextMatchesRules (items c)) :
  active_current contextMatchesRules
    (items (fst (onViewsRegistered contextMatchesRules batch c)))
  /\ (forall c' fires,
        onViewsDeregistered batch c = Ok (c', fires) ->
        active_current contextMatchesRules (items c'))
  /\ collection_viewDescriptors c
     = List.filter (isViewDescriptorActive contextMatchesRules)
                   (map viewDescriptor (items c))
  /\ ((forall expr,
          (forall key, key ∈ expr_keys expr -> key ∉ changed_keys e) ->
          contextMatchesRules' expr = contextMatchesRules expr) ->
      active_current contextMatchesRules'
        (items (fst (onRelevantContextChange contextMatchesRules' e c)))
      /\ (affectsSome e (contextKeys c) = false ->
          onContextChanged contextMatchesRules' c = (c, 0%nat))).
Proof.
  split; [|split; [|split]].
  - destruct Hkeys as [Hwf _].
    destruct (onViewsRegistered_loop_spec contextMatchesRules batch c false Hwf)
      as (c' & Hrun & Hitems & _).
    unfold onViewsRegistered. rewrite Hrun. cbn [fst]. rewrite Hitems.
    apply Forall_app. split; [exact Hcurrent|apply active_current_new_items].
  - intros c' fires Hrun. unfold onViewsDeregistered in Hrun.
    destruct (onViewsDeregistered_loop batch c false) as [[c2 f2]|err] eqn:Hloop;
      [|discriminate].
    simpl in Hrun. injection Hrun as <- _.
    apply Forall_forall. intros i Hi.
    pose proof (deregistered_items_kept _ _ _ _ _ Hloop i Hi) as Hold.
    exact (proj1 (Forall_forall _ _) Hcurrent i Hold).
  - unfold collection_viewDescriptors.
    induction Hcurrent as [|i rest Hi _ IH]; [reflexivity|].
    cbn [List.filter map]. rewrite <- Hi.
    destruct (active i); cbn [map]; rewrite IH; reflexivity.
  - intros Hlocal.
    assert (Hskip : affectsSome e (contextKeys c) = false ->
                    active_current contextMatchesRules' (items c)).
    { intros Haff. apply Forall_forall. intros i Hi.
      rewrite (proj1 (Forall_forall _ _) Hcurrent i Hi).
      unfold isViewDescriptorActive.
      destruct (vd_when (viewDescriptor i)) as [expr|] eqn:Hwhen; [|reflexivity].
      symmetry. apply Hlocal. intros key Hkey.
      apply (unaffected_keys e c i key Hkeys Haff Hi).
      unfold item_keys. rewrite Hwhen. exact Hkey. }
    split.
    + unfold onRelevantContextChange.
      destruct (affectsSome e (contextKeys c)) eqn:Haff.
      * unfold onContextChanged. rewrite onContextChanged_loop_spec.
        cbn [fst items]. apply Forall_forall. intros i Hi.
        apply list_elem_of_fmap in Hi as (i0 & -> & _). reflexivity.
      * apply Hskip. reflexivity.
    + intros Haff. unfold onContextChanged. rewrite onContextChanged_loop_spec.
      destruct (refresh_current _ _ (Hskip Haff)) as [-> ->].
      cbn [orb fire_if]. rewrite collection_eta. reflexivity.
Qed.

Lemma active_flags_stay_current_witness :
  keys_counted collection_a_w
  /\ active_current (fun _ => false) (items collection_a_w)
  /\ affectsSome change_of_other (contextKeys collection_a_w) = false
  /\ onContextChanged (fun _ => false) collection_a_w = (collection_a_w, 0%nat)
  /\ map vd_id (collection_viewDescriptors collection_a_w) = ["a"].
Proof.
  assert (Hkeys : keys_counted collection_a_w).
  { apply new_collection_keys_counted. }
  assert (Hcur : active_current (fun _ => false) (items collection_a_w)).
  { repeat constructor. }
  destruct (active_flags_stay_current (fun _ => false) (fun _ => false)
              change_of_other [] collection_a_w Hkeys Hcur)
    as (_ & _ & Hget & Hchange).
  destruct (Hchange (fun _ _ => eq_refl)) as [_ Hskip].
  split; [exact Hkeys|]. split; [exact Hcur|]. split; [reflexivity|].
  split; [apply Hskip; reflexivity|].
  rewrite Hget. reflexivity.
Defined.

(** ** Setters and getters *)

Lemma lookup_split {A} (l : list A) (i : nat) (a : A) :
  l !! i = Some a -> l = take i l ++ a :: drop (S i) l /\ length (take i l) = i.
Proof.
  intros H. split.
  - symmetry. apply take_drop_middle. exact H.
  - apply length_take_le. apply lookup_lt_Some in H. lia.
Qed.

Lemma NoDup_ids_split (pre post : list IViewDescriptor) (d : IViewDescriptor) :
  NoDup (map vd_id (pre ++ d :: post)) ->
  Forall (fun x => vd_id x <> vd_id d) pre
  /\ Forall (fun x => vd_id x <> vd_id d) post.
Proof.
  rewrite map_app. cbn [map]. intros Hnd.
  apply NoDup_app in Hnd as (_ & Hdis & Hnd).
  apply NoDup_cons in Hnd as [Hnot _].
  split; apply Forall_forall; intros x Hx Heq.
  - apply (Hdis (vd_id x)).
    + apply list_elem_of_fmap. exists x. auto.
    + rewrite Heq. left.
  - apply Hnot. rewrite <- Heq. apply list_elem_of_fmap. exists x. auto.
Qed.

Lemma find_at (m : ContributableViewsModel) (i : nat) (vd : IViewDescriptor) :
  states_cover m -> NoDup (map vd_id (viewDescriptors m)) ->
  viewDescriptors m !! i = Some vd ->
  exists s,
    viewStates m !! vd_id vd = Some s
    /\ find m (vd_id vd)
       = Ok (mkFound i (length (visible_of (viewStates m) (take i (viewDescriptors m))))
                     vd (Some s)).
Proof.
  intros Hc Hnd Hvd.
  destruct (lookup_split _ _ _ Hvd) as [Hl Hlen].
  assert (Hs : is_Some (viewStates m !! vd_id vd)).
  { unfold states_cover, covered in Hc. rewrite Forall_forall in Hc.
    apply Hc. eapply list_elem_of_lookup_2. exact Hvd. }
  destruct Hs as [s Hs]. exists s. split; [exact Hs|].
  unfold find. rewrite Hl at 1.
  rewrite Hl in Hnd. apply NoDup_ids_split in Hnd as [Hpre _].
  rewrite find_from_at.
  - rewrite Hs, Hlen. reflexivity.
  - unfold states_cover in Hc. rewrite Hl in Hc.
    apply covered_app in Hc as [Hc _]. exact Hc.
  - exact Hpre.
Qed.

Lemma find_absent (m : ContributableViewsModel) (id : string) :
  states_cover m -> id ∉ map vd_id (viewDescriptors m) ->
  find m id = Throw (ViewNotFound id).
Proof.
  intros Hc Hid. unfold find.
  pose proof (find_from_spec (viewStates m) id (viewDescriptors m) 0 0 Hc) as H.
  destruct (find_from _ _ _ _ _) as [f|e].
  - destruct H as (pre & post & s & Hl & Hfid & _).
    exfalso. apply Hid. rewrite Hl, map_app. apply elem_of_app. right.
    rewrite <- Hfid. left.
  - destruct H as [-> _]. reflexivity.
Qed.

Lemma is_visible_insert_ne (states : gmap string IViewState) (id : string)
    (s : IViewState) (l : list IViewDescriptor) :
  Forall (fun x => vd_id x <> id) l ->
  visible_of (<[id := s]> states) l = visible_of states l.
Proof.
  intros H. apply visible_of_ext. intros vd Hvd.
  rewrite Forall_forall in H. apply lookup_insert_ne.
  intros Heq. exact (H vd Hvd (eq_sym Heq)).
Qed.

Lemma visible_of_single (states : gmap string IViewState) (vd : IViewDescriptor)
    (s : IViewState) :
  states !! vd_id vd = Some s ->
  visible_of states [vd] = if visible s then [vd] else [].
Proof.
  intros Hs. unfold visible_of. cbn [List.filter]. unfold is_visible.
  rewrite Hs. reflexivity.
Qed.

Lemma visible_of_split (states : gmap string IViewState)
    (pre post : list IViewDescriptor) (vd : IViewDescriptor) (s : IViewState) :
  states !! vd_id vd = Some s ->
  visible_of states (pre ++ vd :: post)
  = visible_of states pre ++ (if visible s then [vd] else [])
    ++ visible_of states post.
Proof.
  intros Hs. rewrite visible_of_app.
  change (vd :: post) with ([vd] ++ post).
  rewrite visible_of_app, (visible_of_single states vd s Hs). reflexivity.
Qed.

Lemma visible_of_same_flags (states states' : gmap string IViewState)
    (l : list IViewDescriptor) :
  (forall id, (visible <$> states' !! id) = (visible <$> states !! id)) ->
  visible_of states' l = visible_of states l.
Proof.
  intros H. unfold visible_of. induction l as [|vd l IH]; [reflexivity|].
  cbn [List.filter]. rewrite IH.
  assert (Hv : is_visible states' vd = is_visible states vd).
  { unfold is_visible. specialize (H (vd_id vd)).
    destruct (states' !! vd_id vd), (states !! vd_id vd); simpl in H;
      congruence. }
  rewrite Hv. reflexivity.
Qed.

(** ** The canonical order *)

Lemma compareViewDescriptors_ext (states states' : gmap string IViewState)
    (a b : IViewDescriptor) :
  resolved_order states' a = resolved_order states a ->
  resolved_order states' b = resolved_order states b ->
  compareViewDescriptors states' a b = compareViewDescriptors states a b.
Proof. intros Ha Hb. unfold compareViewDescriptors. rewrite Ha, Hb. reflexivity. Qed.

Lemma Sorted_key_le_ext (states states' : gmap string IViewState)
    (l : list IViewDescriptor) :
  (forall a, resolved_order states' a = resolved_order states a) ->
  Sorted (key_le states) l -> Sorted (key_le states') l.
Proof.
  intros Hext. induction 1 as [|x l Hs IH Hhd]; constructor; [exact IH|].
  destruct Hhd as [|y l' Hxy]; constructor.
  unfold key_le in *.
  rewrite (compareViewDescriptors_ext states states'); auto.
Qed.

Lemma resolved_order_insert (states : gmap string IViewState) (id : string)
    (s s' : IViewState) (a : IViewDescriptor) :
  states !! id = Some s -> order s' = order s ->
  resolved_order (<[id := s']> states) a = resolved_order states a.
Proof.
  intros Hs Ho. unfold resolved_order.
  destruct (decide (id = vd_id a)) as [->|Hne].
  - rewrite lookup_insert_eq, Hs, Ho. reflexivity.
  - rewrite lookup_insert_ne by exact Hne. reflexivity.
Qed.

Lemma update_state_canonical (m : ContributableViewsModel) (vd : IViewDescriptor)
    (s s' : IViewState) :
  viewStates m !! vd_id vd = Some s -> order s' = order s ->
  canonical m -> canonical (update_state m vd s').
Proof.
  intros Hs Ho [Hsorted Hnd]. split; [|exact Hnd].
  cbn [update_state viewStates viewDescriptors].
  eapply Sorted_key_le_ext; [|exact Hsorted].
  intros a. apply (resolved_order_insert _ _ s); assumption.
Qed.

Lemma find_state (states : gmap string IViewState) (id : string)
    (vds : list IViewDescriptor) (i vi : nat) (f : Found) :
  find_from states id vds i vi = Ok f ->
  f_state f = states !! vd_id (f_viewDescriptor f).
Proof.
  revert i vi. induction vds as [|vd rest IH]; intros i vi; simpl; [discriminate|].
  destruct (String.eqb (vd_id vd) id).
  - intros [= <-]. reflexivity.
  - destruct (states !! vd_id vd); [|discriminate]. apply IH.
Qed.

Lemma sorted_by_index (states : gmap string IViewState) (l : list IViewDescriptor)
    (k : Z) :
  (forall n d, l !! n = Some d -> resolved_order states d = Num (k + Z.of_nat n)) ->
  Sorted (key_le states) l.
Proof.
  revert k. induction l as [|x l IH]; intros k H; constructor.
  - apply (IH (k + 1)). intros n d Hd.
    rewrite (H (S n) d Hd). f_equal. lia.
  - destruct l as [|y l']; constructor.
    unfold key_le, compareViewDescriptors.
    rewrite (H 0%nat x eq_refl), (H 1%nat y eq_refl). cbn [num_strict_eq].
    destruct (Z.eqb_spec (k + Z.of_nat 0) (k + Z.of_nat 1)) as [?|_]; [lia|].
    cbn [negb num_sub num_gt0]. apply Z.ltb_ge. lia.
Qed.

Lemma move_canonical (from to : string) (m m' : ContributableViewsModel)
    (events : list ViewEvent) :
  states_cover m -> NoDup (map vd_id (viewDescriptors m)) ->
  move from to m = Ok (m', events) -> canonical m'.
Proof.
  intros Hc Hnd Hrun.
  pose proof (move_spec _ _ _ _ _ Hrun) as [Hperm _].
  unfold move in Hrun.
  destruct (renumber _ 0 (viewStates m)) as [[vds states]|] eqn:Hr; [|discriminate].
  simpl in Hrun. injection Hrun as <- _. cbn [viewDescriptors viewStates] in *.
  pose proof (renumber_spec _ _ _ _ _ Hr) as [Hmoved _].
  rewrite Hmoved in Hr.
  assert (Hnd' : NoDup (map vd_id vds)).
  { rewrite Hperm. exact Hnd. }
  destruct (renumber_ok vds 0 (viewStates m)) as (states' & Hr' & _ & Hin).
  { eapply covered_perm; [symmetry; exact Hperm|exact Hc]. }
  rewrite Hr in Hr'. injection Hr' as <-.
  split; [|exact Hnd'].
  apply (sorted_by_index states vds 0). intros n d Hd.
  destruct (Hin Hnd' n d Hd) as (s & _ & Hs).
  unfold resolved_order. rewrite Hs. reflexivity.
Qed.

Lemma reconcile_canonical (vds : list IViewDescriptor)
    (m m' : ContributableViewsModel) (events : list ViewEvent) :
  onDidChangeViewDescriptors vds m = Ok (m', events) ->
  Sorted (key_le (viewStates m')) (viewDescriptors m')
  /\ viewDescriptors m' ≡ₚ vds.
Proof.
  intros Hrun. apply onDidChangeViewDescriptors_model in Hrun. subst m'.
  cbn [viewStates viewDescriptors]. split; [|apply js_sort_perm].
  eapply Sorted_key_le_ext; [|apply js_sort_sorted].
  intros a. apply resolved_order_add_default.
Qed.

(** ** Moving with an id that is not in the list *)

Lemma arrays_move_at {A} (l : list A) (from to : Z) (x : A) :
  l !! splice_start l from = Some x ->
  arrays_move l from to
  = map Some
      (take (splice_start (delete (splice_start l from) l) to)
            (delete (splice_start l from) l)
       ++ x :: drop (splice_start (delete (splice_start l from) l) to)
                    (delete (splice_start l from) l)).
Proof.
  intros Hx. unfold arrays_move, js_splice.
  set (s := splice_start l from) in *.
  assert (Hdrop : drop s l = x :: drop (S s) l).
  { apply drop_S. exact Hx. }
  rewrite Hdrop. cbn [firstn skipn app head fst snd].
  rewrite drop_0, <- delete_take_drop.
  assert (Hs : splice_start (map Some (delete s l)) to
               = splice_start (delete s l) to).
  { unfold splice_start. rewrite length_map. reflexivity. }
  rewrite Hs, map_app. cbn [map].
  rewrite <- !fmap_take, <- !fmap_drop. reflexivity.
Qed.

Lemma splice_start_last {A} (init : list A) (last : A) :
  splice_start (init ++ [last]) (-1) = length init.
Proof.
  unfold splice_start. rewrite length_app. cbn [length].
  destruct (Z.ltb_spec (-1) 0) as [_|?]; [|lia]. lia.
Qed.

Lemma delete_last {A} (init : list A) (last : A) :
  delete (length init) (init ++ [last]) = init.
Proof.
  rewrite delete_take_drop, take_app_length.
  change (init ++ [last]) with (init ++ [last] ++ []).
  rewrite app_assoc, drop_app_length'
    by (rewrite length_app; simpl; lia).
  apply app_nil_r.
Qed.

Lemma firstIndex_absent (l : list IViewDescriptor) (id : string) :
  id ∉ map vd_id l -> firstIndex l (has_id id) = -1.
Proof.
  intros Hid. apply firstIndex_from_none. apply Forall_forall. intros x Hx.
  unfold has_id. apply String.eqb_neq. intros Heq. apply Hid.
  rewrite <- Heq. apply list_elem_of_fmap. exists x. auto.
Qed.

Lemma move_renumbered (m : ContributableViewsModel) (from to : string)
    (l' : list IViewDescriptor) :
  states_cover m -> NoDup (map vd_id (viewDescriptors m)) ->
  arrays_move (viewDescriptors m) (firstIndex (viewDescriptors m) (has_id from))
              (firstIndex (viewDescriptors m) (has_id to))
  = map Some l' ->
  exists states',
    move from to m
    = Ok (mkModel l' states',
          [DidMove (firstIndex (viewDescriptors m) (has_id from))
                   (js_index (viewDescriptors m)
                      (firstIndex (viewDescriptors m) (has_id from)))
                   (firstIndex (viewDescriptors m) (has_id to))
                   (js_index (viewDescriptors m)
                      (firstIndex (viewDescriptors m) (has_id to)))])
    /\ (forall n d, l' !! n = Some d ->
        exists s, viewStates m !! vd_id d = Some s
                  /\ states' !! vd_id d = Some (set_order (Z.of_nat n) s)).
Proof.
  intros Hc Hnd Hmove.
  pose proof (arrays_move_elements _ _ _ _ Hmove) as Hperm.
  destruct (renumber_ok l' 0 (viewStates m)) as (states' & Hr & _ & Hin).
  { eapply covered_perm; [symmetry; exact Hperm|exact Hc]. }
  exists states'. unfold move. rewrite Hmove, Hr. split; [reflexivity|].
  intros n d Hd. apply Hin; [rewrite Hperm; exact Hnd|exact Hd].
Qed.

Lemma splices_events_of_empty (states : gmap string IViewState)
    (sorted : list IViewDescriptor) :
  covered states sorted ->
  splices_events (mkModel [] states) (pushSplice [] 0 0 sorted)
  = Ok (add_list states 0 (visible_of states sorted)).
Proof.
  intros Hc. destruct sorted as [|vd sorted']; [reflexivity|].
  unfold pushSplice. cbn [length Nat.eqb andb splices_events].
  unfold splice_events.
  cbn [start deleteCount toInsert viewDescriptors viewStates nth_error
       remove_events length].
  change (mret 0%nat ≫= ?k) with (k 0%nat). cbv beta.
  change (Ok [] ≫= ?k) with (k (@nil ViewEvent)). cbv beta.
  rewrite (add_events_run states 0 (vd :: sorted') Hc).
  simpl. rewrite app_nil_r. reflexivity.
Qed.


(** ** The views model *)

(** X7: [setCollapsed] and [setSize] on a model whose listed descriptors
    all have a state.  For an id of the list they store the new value in
    the state of that id, leave every other field and every other state as
    it is, fire no event and leave the visible descriptors as they are;
    [isCollapsed] and [getSize] read the new value back.  For an id that is
    not in the list the three setters throw "view descriptor not found",
    also when the state map still holds a state for the id, which
    [isVisible], [isCollapsed] and [getSize] go on reading; these three
    throw "Unknown view" exactly when the map has no state for the id. *)
Theorem setCollapsed_setSize_spec (m : ContributableViewsModel) (id : string)
    (c : bool) (z : Z) (Hcover : states_cover m) :
  (id ∈ map vd_id (viewDescriptors m) ->
   exists s,
     viewStates m !! id = Some s
     /\ setCollapsed id c m
        = Ok (mkModel (viewDescriptors m)
                      (<[id := mkViewState (visible s) c (order s) (size s)]>
                         (viewStates m)), [])
     /\ setSize id z m
        = Ok (mkModel (viewDescriptors m)
                      (<[id := mkViewState (visible s) (collapsed s) (order s)
                                           (Some z)]>
                         (viewStates m)), [])
     /\ isCollapsed (model_after m (setCollapsed id c m)) id = Ok c
     /\ getSize (model_after m (setSize id z m)) id = Ok (Some z)
     /\ visibleViewDescriptors (model_after m (setCollapsed id c m))
        = visibleViewDescriptors m
     /\ visibleViewDescriptors (model_after m (setSize id z m))
        = visibleViewDescriptors m)
  /\ (id ∉ map vd_id (viewDescriptors m) ->
      setCollapsed id c m = Throw (ViewNotFound id)
      /\ setSize id z m = Throw (ViewNotFound id)
      /\ setVisible id c m = Throw (ViewNotFound id))
  /\ (forall s, viewStates m !! id = Some s ->
      isVisible m id = Ok (visible s)
      /\ isCollapsed m id = Ok (collapsed s)
      /\ getSize m id = Ok (size s))
  /\ (viewStates m !! id = None ->
      isVisible m id = Throw (UnknownView id)
      /\ isCollapsed m id = Throw (UnknownView id)
      /\ getSize m id = Throw (UnknownView id)).
Proof.
  split; [|split; [|split]].
  - intros Hin.
    pose proof (find_from_spec (viewStates m) id (viewDescriptors m) 0 0 Hcover)
      as Hspec.
    destruct (find_present m id Hcover Hin) as [f Hf].
    unfold find in Hf. rewrite Hf in Hspec.
    destruct Hspec as (pre & post & s & _ & Hid & _ & Hst & Hlk & _).
    exists s. split; [exact Hlk|].
    assert (Hvis : forall s',
               visible s' = visible s ->
               visibleViewDescriptors
                 (mkModel (viewDescriptors m) (<[id := s']> (viewStates m)))
               = visibleViewDescriptors m).
    { intros s' Hv. unfold visibleViewDescriptors.
      cbn [viewStates viewDescriptors].
      rewrite !visible_filter_covered.
      - f_equal. apply visible_of_same_flags. intros id'.
        destruct (decide (id = id')) as [<-|Hne].
        + rewrite lookup_insert_eq, Hlk. simpl. rewrite Hv. reflexivity.
        + rewrite lookup_insert_ne by exact Hne. reflexivity.
      - exact Hcover.
      - eapply covered_mono; [|exact Hcover]. intros id' His.
        destruct (decide (id = id')) as [<-|Hne].
        + rewrite lookup_insert_eq. eauto.
        + rewrite lookup_insert_ne by exact Hne. exact His. }
    assert (Hc : setCollapsed id c m
                 = Ok (mkModel (viewDescriptors m)
                         (<[id := mkViewState (visible s) c (order s) (size s)]>
                            (viewStates m)), [])).
    { unfold setCollapsed, find. rewrite Hf. simpl. rewrite Hst.
      unfold update_state. rewrite Hid. reflexivity. }
    assert (Hz : setSize id z m
                 = Ok (mkModel (viewDescriptors m)
                         (<[id := mkViewState (visible s) (collapsed s) (order s)
                                              (Some z)]>
                            (viewStates m)), [])).
    { unfold setSize, find. rewrite Hf. simpl. rewrite Hst.
      unfold update_state. rewrite Hid. reflexivity. }
    rewrite Hc, Hz. cbn [model_after].
    split; [reflexivity|]. split; [reflexivity|].
    split; [|split; [|split]].
    + unfold isCollapsed. cbn [viewStates]. rewrite lookup_insert_eq. reflexivity.
    + unfold getSize. cbn [viewStates]. rewrite lookup_insert_eq. reflexivity.
    + apply Hvis. reflexivity.
    + apply Hvis. reflexivity.
  - intros Hnot. pose proof (find_absent m id Hcover Hnot) as Hf.
    unfold setCollapsed, setSize, setVisible. rewrite Hf. auto.
  - intros s Hs. unfold isVisible, isCollapsed, getSize. rewrite Hs. auto.
  - intros Hs. unfold isVisible, isCollapsed, getSize. rewrite Hs. auto.
Qed.

Lemma setCollapsed_setSize_spec_witness :
  states_cover model_a_b_stale_c
  /\ isCollapsed (model_after model_a_b_stale_c
                    (setCollapsed "a" true model_a_b_stale_c)) "a" = Ok true
  /\ setCollapsed "c" true model_a_b_stale_c = Throw (ViewNotFound "c")
  /\ isCollapsed model_a_b_stale_c "c" = Ok false.
Proof.
  assert (Hcover : states_cover model_a_b_stale_c).
  { repeat constructor; vm_compute; eauto. }
  destruct (setCollapsed_setSize_spec model_a_b_stale_c "a" true 0 Hcover)
    as (Hin & _).
  destruct Hin as (s & _ & _ & _ & Hread & _).
  { vm_compute. left. }
  destruct (setCollapsed_setSize_spec model_a_b_stale_c "c" true 0 Hcover)
    as (_ & Hnot & Hget & _).
  destruct Hnot as (Hthrow & _).
  { intros Hin. apply elem_of_cons in Hin as [Hin|Hin]; [discriminate Hin|].
    apply list_elem_of_singleton in Hin. discriminate Hin. }
  destruct (Hget hidden_state eq_refl) as (_ & Hcol & _).
  split; [exact Hcover|]. split; [exact Hread|]. split; [exact Hthrow|exact Hcol].
Defined.

(** X8: the event of [setVisible] is a valid edit of the visible list.  In
    a model whose listed descriptors all have a state and whose ids are
    pairwise different, [setVisible] on a listed descriptor that may be
    toggled returns; afterwards [isVisible] gives the requested value, the
    list and the states of the other ids are as before, and applying the
    fired events, each at its reported index, to the visible descriptors
    from before the call gives the visible descriptors after the call: the
    reported index is the position of the descriptor among the visible
    ones. *)
Theorem setVisible_event_replay (m : ContributableViewsModel) (i : nat)
    (vd : IViewDescriptor) (v : bool)
    (Hcover : states_cover m)
    (Hnodup : NoDup (map vd_id (viewDescriptors m)))
    (Hvd : viewDescriptors m !! i = Some vd)
    (Htoggle : vd_canToggleVisibility vd = true) :
  exists m' events,
    setVisible (vd_id vd) v m = Ok (m', events)
    /\ isVisible m' (vd_id vd) = Ok v
    /\ viewDescriptors m' = viewDescriptors m
    /\ (forall id, id <> vd_id vd -> viewStates m' !! id = viewStates m !! id)
    /\ visibleViewDescriptors m'
       = Ok (visible_of (viewStates m') (viewDescriptors m'))
    /\ replay (visible_of (viewStates m) (viewDescriptors m)) events
       = Some (visible_of (viewStates m') (viewDescriptors m'))
    /\ (vd ∈ visible_of (viewStates m') (viewDescriptors m') <-> v = true).
Proof.
  destruct (find_at m i vd Hcover Hnodup Hvd) as (s & Hs & Hf).
  destruct (lookup_split _ _ _ Hvd) as [Hl _].
  set (pre := take i (viewDescriptors m)) in *.
  set (post := drop (S i) (viewDescriptors m)) in *.
  pose proof Hnodup as Hnd. rewrite Hl in Hnd.
  apply NoDup_ids_split in Hnd as [Hpre Hpost].
  assert (Hmem : forall states',
             states' !! vd_id vd = Some (set_visible v s) ->
             (forall id, id <> vd_id vd -> states' !! id = viewStates m !! id) ->
             visible_of states' (viewDescriptors m)
             = visible_of (viewStates m) pre ++ (if v then [vd] else [])
               ++ visible_of (viewStates m) post).
  { intros states' Hown Hother. rewrite Hl.
    rewrite (visible_of_split states' pre post vd _ Hown). cbn [set_visible visible].
    rewrite (visible_of_ext (viewStates m) states' pre),
      (visible_of_ext (viewStates m) states' post); [reflexivity| |].
    - intros d Hd. apply Hother. rewrite Forall_forall in Hpost. exact (Hpost d Hd).
    - intros d Hd. apply Hother. rewrite Forall_forall in Hpre. exact (Hpre d Hd). }
  assert (Hin : forall l1 l2 : list IViewDescriptor,
             vd ∈ l1 ++ (if v then [vd] else []) ++ l2 <-> v = true
             \/ vd ∈ l1 \/ vd ∈ l2).
  { intros l1 l2. rewrite !elem_of_app. destruct v.
    - rewrite list_elem_of_singleton. intuition.
    - split; [intros [?|[H|?]]; [auto| inversion H |auto]|].
      intros [?|[?|?]]; [discriminate|auto|auto]. }
  assert (Hnotin : forall l, Forall (fun x => vd_id x <> vd_id vd) l ->
                             vd ∉ visible_of (viewStates m) l).
  { intros l Hall Hx. unfold visible_of in Hx.
    apply list_elem_of_In, filter_In in Hx as [Hx _].
    apply list_elem_of_In in Hx.
    rewrite Forall_forall in Hall. exact (Hall vd Hx eq_refl). }
  rewrite (setVisible_found m (vd_id vd) v _ s Hf eq_refl).
  cbn [f_viewDescriptor f_visibleIndex]. rewrite Htoggle. cbn [negb].
  destruct (Bool.eqb (visible s) v) eqn:Heq.
  - apply Bool.eqb_prop in Heq.
    exists m, []. split; [reflexivity|].
    split; [unfold isVisible; rewrite Hs, Heq; reflexivity|].
    split; [reflexivity|]. split; [reflexivity|].
    split; [apply visible_filter_covered; exact Hcover|].
    split; [reflexivity|].
    rewrite (Hmem (viewStates m)); [| |reflexivity].
    + rewrite Hin. split; [|auto].
      intros [?|[H|H]];
        [assumption|exfalso; exact (Hnotin pre Hpre H)
        |exfalso; exact (Hnotin post Hpost H)].
    + rewrite Hs. unfold set_visible. rewrite <- Heq. destruct s; reflexivity.
  - apply Bool.eqb_false_iff in Heq.
    eexists _, _. split; [reflexivity|].
    unfold update_state. cbn [viewStates viewDescriptors].
    assert (Hown : <[vd_id vd := set_visible v s]> (viewStates m) !! vd_id vd
                   = Some (set_visible v s)) by apply lookup_insert_eq.
    assert (Hother : forall id, id <> vd_id vd ->
                       <[vd_id vd := set_visible v s]> (viewStates m) !! id
                       = viewStates m !! id).
    { intros id Hne. apply lookup_insert_ne. congruence. }
    split; [unfold isVisible; cbn [viewStates]; rewrite Hown; reflexivity|].
    split; [reflexivity|]. split; [exact Hother|].
    split.
    { apply visible_filter_covered.
      eapply covered_mono; [|exact Hcover]. intros id His.
      destruct (decide (id = vd_id vd)) as [->|Hne].
      - rewrite Hown. eauto.
      - rewrite Hother by exact Hne. exact His. }
    rewrite (Hmem _ Hown Hother).
    split.
    + rewrite Hl at 1. rewrite (visible_of_split _ pre post vd s Hs).
      destruct v.
      * assert (Hvs : visible s = false) by (destruct (visible s); congruence).
        rewrite Hvs. cbn [app].
        pose proof (replay_adds (<[vd_id vd := set_visible true s]> (viewStates m))
                      (visible_of (viewStates m) pre) [vd]
                      (visible_of (viewStates m) post)) as Hr.
        cbn [add_list] in Hr. rewrite Hown in Hr. exact Hr.
      * assert (Hvs : visible s = true) by (destruct (visible s); congruence).
        rewrite Hvs.
        exact (replay_removes (visible_of (viewStates m) pre) [vd]
                 (visible_of (viewStates m) post)).
    + rewrite Hin. split; [|auto].
      intros [?|[H|H]];
        [assumption|exfalso; exact (Hnotin pre Hpre H)
        |exfalso; exact (Hnotin post Hpost H)].
Qed.

Lemma setVisible_event_replay_witness :
  states_cover model_a_hidden
  /\ NoDup (map vd_id (viewDescriptors model_a_hidden))
  /\ viewDescriptors model_a_hidden !! 0%nat = Some view_a
  /\ vd_canToggleVisibility view_a = true
  /\ exists m',
      setVisible "a" true model_a_hidden = Ok (m', [DidAdd 0 view_a None false])
      /\ replay [view_b] [DidAdd 0 view_a None false]
         = Some (visible_of (viewStates m') (viewDescriptors m'))
      /\ visibleViewDescriptors m' = Ok [view_a; view_b].
Proof.
  assert (Hcover : states_cover model_a_hidden).
  { repeat constructor; vm_compute; eauto. }
  assert (Hnd : NoDup (map vd_id (viewDescriptors model_a_hidden))).
  { apply NoDup_ListNoDup. repeat constructor; simpl; intuition discriminate. }
  split; [exact Hcover|]. split; [exact Hnd|]. split; [reflexivity|].
  split; [reflexivity|].
  destruct (setVisible_event_replay model_a_hidden 0 view_a true Hcover Hnd
              eq_refl eq_refl)
    as (m' & events & Hrun & _ & _ & _ & Hget & Hreplay & _).
  assert (Hev : setVisible "a" true model_a_hidden
                = Ok (update_state model_a_hidden view_a
                        (set_visible true hidden_state),
                      [DidAdd 0 view_a None false])) by reflexivity.
  change (vd_id view_a) with "a" in Hrun.
  rewrite Hev in Hrun. injection Hrun as <- <-.
  eexists. split; [exact Hev|]. split; [exact Hreplay|].
  rewrite Hget. reflexivity.
Defined.

(** X9: the stored list stays in canonical order.  Take a model whose
    listed descriptors all have a state, whose ids are pairwise different
    and whose list is sorted by the comparator under the stored states.
    After [setVisible], [setCollapsed], [setSize], [move] or a reconcile
    pass over descriptors with pairwise different ids, the ids of the list
    are again pairwise different and the list is again sorted by the
    comparator under the states the operation left: the setters do not
    touch the orders, [move] renumbers every order to the position, and the
    reconcile pass sorts. *)
Theorem canonical_order_invariant (op : Operation)
    (m m' : ContributableViewsModel) (events : list ViewEvent)
    (Hcover : states_cover m) (Hcanonical : canonical m)
    (Hbatch : forall vds, op = OpChangeViewDescriptors vds ->
                          NoDup (map vd_id vds))
    (Hrun : run op m = Ok (m', events)) :
  canonical m'.
Proof.
  destruct op as [id v|id c|id z|from to|vds]; simpl in Hrun.
  - unfold setVisible in Hrun.
    destruct (find m id) as [f|] eqn:Hf; [|discriminate]. simpl in Hrun.
    destruct (negb _); [discriminate|].
    pose proof (find_state _ _ _ _ _ _ Hf) as Hst.
    destruct (f_state f) as [s|]; [|discriminate].
    destruct (Bool.eqb _ _).
    + injection Hrun as <- _. exact Hcanonical.
    + destruct v; injection Hrun as <- _;
        apply (update_state_canonical m _ s); auto.
  - unfold setCollapsed in Hrun.
    destruct (find m id) as [f|] eqn:Hf; [|discriminate]. simpl in Hrun.
    pose proof (find_state _ _ _ _ _ _ Hf) as Hst.
    destruct (f_state f) as [s|]; [|discriminate].
    injection Hrun as <- _. apply (update_state_canonical m _ s); auto.
  - unfold setSize in Hrun.
    destruct (find m id) as [f|] eqn:Hf; [|discriminate]. simpl in Hrun.
    pose proof (find_state _ _ _ _ _ _ Hf) as Hst.
    destruct (f_state f) as [s|]; [|discriminate].
    injection Hrun as <- _. apply (update_state_canonical m _ s); auto.
  - eapply move_canonical; [exact Hcover|apply Hcanonical|exact Hrun].
  - destruct (reconcile_canonical _ _ _ _ Hrun) as [Hsorted Hperm].
    split; [exact Hsorted|]. rewrite Hperm. apply Hbatch. reflexivity.
Qed.

Lemma canonical_order_invariant_witness :
  states_cover model_a_hidden
  /\ canonical model_a_hidden
  /\ exists m' events,
      run (OpMove "a" "b") model_a_hidden = Ok (m', events)
      /\ viewDescriptors m' = [view_b; view_a]
      /\ canonical m'.
Proof.
  assert (Hcover : states_cover model_a_hidden).
  { repeat constructor; vm_compute; eauto. }
  assert (Hcanon : canonical model_a_hidden).
  { split.
    - repeat constructor.
    - apply NoDup_ListNoDup. repeat constructor; simpl; intuition discriminate. }
  split; [exact Hcover|]. split; [exact Hcanon|].
  destruct (run (OpMove "a" "b") model_a_hidden) as [[m' events]|e] eqn:Hrun;
    [|vm_compute in Hrun; discriminate].
  exists m', events. split; [reflexivity|].
  pose proof (canonical_order_invariant (OpMove "a" "b") model_a_hidden m' events
                Hcover Hcanon ltac:(intros vds H; discriminate H) Hrun) as Hc.
  split; [|exact Hc].
  vm_compute in Hrun. injection Hrun as <- _. reflexivity.
Defined.



(** X12: the events of the constructor.  A new model over the given
    states holds the active descriptors sorted by the comparator, gives a
    default state to each one that has none, and fires one add event for
    each visible descriptor, in the order of the list and at the indices
    [0], [1], [2], ...; a consumer that starts from no panels and inserts
    each descriptor at the reported index ends with the visible descriptors
    in their order. *)
Theorem new_model_events (vds : list IViewDescriptor)
    (states : gmap string IViewState) :
  let sorted := js_sort (compareViewDescriptors states) vds in
  let states' := add_default_states sorted states in
  new_model vds states
  = Ok (mkModel sorted states', add_list states' 0 (visible_of states' sorted))
  /\ sorted ≡ₚ vds
  /\ Sorted (key_le states') sorted
  /\ replay [] (add_list states' 0 (visible_of states' sorted))
     = Some (visible_of states' sorted)
  /\ visibleViewDescriptors (mkModel sorted states')
     = Ok (visible_of states' sorted).
Proof.
  intros sorted states'.
  assert (Hc : covered states' sorted) by apply add_default_states_covers.
  split; [|split; [|split; [|split]]].
  - unfold new_model, onDidChangeViewDescriptors.
    cbn [viewStates viewDescriptors]. fold sorted. fold states'.
    unfold sortedDiff. cbn [sortedDiff_loop]. rewrite rev_involutive.
    rewrite (splices_events_of_empty states' sorted Hc). reflexivity.
  - apply js_sort_perm.
  - eapply Sorted_key_le_ext; [|apply js_sort_sorted].
    intros a. apply resolved_order_add_default.
  - pose proof (replay_adds states' [] (visible_of states' sorted) []) as Hr.
    simpl in Hr. rewrite app_nil_r in Hr. exact Hr.
  - apply visible_filter_covered. exact Hc.
Qed.

(** X13: [move] with an id that is not in the list does not throw.  In a
    model whose listed descriptors all have a state and whose ids are
    pairwise different: when [from] is not the id of a listed descriptor,
    the descriptor taken out is the last one of the list, it is put where
    [to] stands, and the event reports the index [-1] and no descriptor for
    [from]; when [to] is not the id of a listed descriptor, the descriptor
    [from] is put in front of the last one of the others, and the event
    reports the index [-1] and no descriptor for [to].  In both cases the
    orders are renumbered to the new positions. *)
Theorem move_unknown_id (m : ContributableViewsModel) (unknown : string)
    (i : nat) (d : IViewDescriptor) (init : list IViewDescriptor)
    (last : IViewDescriptor)
    (Hcover : states_cover m)
    (Hnodup : NoDup (map vd_id (viewDescriptors m)))
    (Hunknown : unknown ∉ map vd_id (viewDescriptors m))
    (Hd : viewDescriptors m !! i = Some d) :
  (viewDescriptors m = init ++ [last] ->
   exists states',
     move unknown (vd_id d) m
     = Ok (mkModel (take i init ++ last :: drop i init) states',
           [DidMove (-1) None (Z.of_nat i) (Some d)])
     /\ forall n x, (take i init ++ last :: drop i init) !! n = Some x ->
        exists s, viewStates m !! vd_id x = Some s
                  /\ states' !! vd_id x = Some (set_order (Z.of_nat n) s))
  /\ (delete i (viewDescriptors m) = init ++ [last] ->
      exists states',
        move (vd_id d) unknown m
        = Ok (mkModel (init ++ [d; last]) states',
              [DidMove (Z.of_nat i) (Some d) (-1) None])
        /\ forall n x, (init ++ [d; last]) !! n = Some x ->
           exists s, viewStates m !! vd_id x = Some s
                     /\ states' !! vd_id x = Some (set_order (Z.of_nat n) s)).
Proof.
  pose proof (firstIndex_absent _ _ Hunknown) as Hu.
  pose proof (firstIndex_NoDup _ i d Hnodup Hd) as Hi.
  pose proof (lookup_lt_Some _ _ _ Hd) as Hlt.
  split.
  - intros Hl.
    assert (Hmove : arrays_move (viewDescriptors m)
                      (firstIndex (viewDescriptors m) (has_id unknown))
                      (firstIndex (viewDescriptors m) (has_id (vd_id d)))
                    = map Some (take i init ++ last :: drop i init)).
    { rewrite Hu, Hi, Hl.
      rewrite (arrays_move_at (init ++ [last]) (-1) (Z.of_nat i) last).
      - rewrite splice_start_last, delete_last.
        rewrite (splice_start_in_range init i); [reflexivity|].
        rewrite Hl, length_app in Hlt. simpl in Hlt. lia.
      - rewrite splice_start_last. apply list_lookup_middle. reflexivity. }
    destruct (move_renumbered m unknown (vd_id d) _ Hcover Hnodup Hmove)
      as (states' & Hrun & Hord).
    exists states'. rewrite Hrun, Hu, Hi, js_index_lookup, Hd.
    split; [reflexivity|exact Hord].
  - intros Hl.
    assert (Hmove : arrays_move (viewDescriptors m)
                      (firstIndex (viewDescriptors m) (has_id (vd_id d)))
                      (firstIndex (viewDescriptors m) (has_id unknown))
                    = map Some (init ++ [d; last])).
    { rewrite Hu, Hi.
      assert (Hs : splice_start (viewDescriptors m) (Z.of_nat i) = i)
        by (apply splice_start_in_range; lia).
      rewrite (arrays_move_at (viewDescriptors m) (Z.of_nat i) (-1) d);
        rewrite Hs; [|exact Hd].
      rewrite Hl, splice_start_last.
      rewrite take_app_length, drop_app_length. reflexivity. }
    destruct (move_renumbered m (vd_id d) unknown _ Hcover Hnodup Hmove)
      as (states' & Hrun & Hord).
    exists states'. rewrite Hrun, Hu, Hi, js_index_lookup, Hd.
    split; [reflexivity|exact Hord].
Qed.

Lemma move_unknown_id_witness :
  states_cover model_a_c_b
  /\ NoDup (map vd_id (viewDescriptors model_a_c_b))
  /\ ("zz" ∉ map vd_id (viewDescriptors model_a_c_b))
  /\ viewDescriptors model_a_c_b !! 0%nat = Some view_a
  /\ viewDescriptors model_a_c_b = [view_a; view_c] ++ [view_b]
  /\ exists states',
      move "zz" "a" model_a_c_b
      = Ok (mkModel [view_b; view_a; view_c] states',
            [DidMove (-1) None 0 (Some view_a)]).
Proof.
  assert (Hcover : states_cover model_a_c_b).
  { repeat constructor; vm_compute; eauto. }
  assert (Hnd : NoDup (map vd_id (viewDescriptors model_a_c_b))).
  { apply NoDup_ListNoDup. repeat constructor; simpl; intuition discriminate. }
  assert (Hun : "zz" ∉ map vd_id (viewDescriptors model_a_c_b)).
  { intros Hin. apply list_elem_of_In in Hin. simpl in Hin.
    intuition discriminate. }
  split; [exact Hcover|]. split; [exact Hnd|]. split; [exact Hun|].
  split; [reflexivity|]. split; [reflexivity|].
  destruct (move_unknown_id model_a_c_b "zz" 0 view_a [view_a; view_c] view_b
              Hcover Hnd Hun eq_refl) as [Hfrom _].
  destruct (Hfrom eq_refl) as (states' & Hrun & _).
  exists states'. exact Hrun.
Defined.

Lemma add_list_all_default (states : gmap string IViewState) (k : nat)
    (vds : list IViewDescriptor) :
  Forall (fun vd => states !! vd_id vd = Some default_state) vds ->
  add_list states k vds = imap (fun n vd => DidAdd (k + n) vd None false) vds.
Proof.
  intros H. revert k. induction H as [|vd vds Hvd _ IH]; intros k; [reflexivity|].
  cbn [add_list imap]. rewrite Hvd, IH. cbn [size collapsed default_state].
  rewrite Nat.add_0_r. f_equal. apply imap_ext. intros n x _. simpl.
  f_equal. lia.
Qed.

Lemma add_default_states_empty (vds : list IViewDescriptor) (id : string) :
  add_default_states vds ∅ !! id
  = if bool_decide (id ∈ map vd_id vds) then Some default_state else None.
Proof. rewrite add_default_states_lookup, lookup_empty. reflexivity. Qed.

Lemma visible_of_all (states : gmap string IViewState) (vds : list IViewDescriptor) :
  Forall (fun vd => states !! vd_id vd = Some default_state) vds ->
  visible_of states vds = vds.
Proof.
  induction 1 as [|vd vds Hvd _ IH]; [reflexivity|].
  unfold visible_of in *. cbn [List.filter]. unfold is_visible at 1.
  rewrite Hvd, IH. reflexivity.
Qed.



(** X14: a persistent model over a store that holds nothing under its key
    in its scope, whatever the other scope holds.  The constructor returns;
    every active descriptor gets the default state, visible and not
    collapsed, also when the descriptor declares itself collapsed; no other
    state exists; the list holds the active descriptors sorted by declared
    order and id; and one add event is fired per descriptor, in that order,
    at the indices [0], [1], [2], ..., without a size and not collapsed. *)
Theorem new_persistent_model_fresh (vds : list IViewDescriptor)
    (viewletStateStorageId' : string) (storageService : IStorageService)
    (workbenchState' : WorkbenchState)
    (Hfresh : stored viewletStateStorageId' (scope_of workbenchState')
                     storageService = None) :
  let sorted := js_sort (compareViewDescriptors ∅) vds in
  let states' := add_default_states sorted ∅ in
  new_persistent_model vds viewletStateStorageId' storageService workbenchState'
  = Ok (mkPersistent (mkModel sorted states') viewletStateStorageId'
                     workbenchState',
        imap (fun n vd => DidAdd n vd None false) sorted)
  /\ sorted ≡ₚ vds
  /\ visibleViewDescriptors (mkModel sorted states') = Ok sorted
  /\ (forall id,
        states' !! id
        = if bool_decide (id ∈ map vd_id vds) then Some default_state else None).
Proof.
  intros sorted states'.
  assert (Hlookup : forall id,
             states' !! id
             = if bool_decide (id ∈ map vd_id vds) then Some default_state
               else None).
  { intros id. unfold states'. rewrite add_default_states_empty.
    rewrite (bool_decide_ext _ (id ∈ map vd_id vds)); [reflexivity|].
    unfold sorted. rewrite (js_sort_perm ∅ vds). reflexivity. }
  assert (Hall : Forall (fun vd => states' !! vd_id vd = Some default_state) sorted).
  { apply Forall_forall. intros vd Hvd. rewrite Hlookup.
    rewrite bool_decide_eq_true_2; [reflexivity|].
    apply list_elem_of_fmap. exists vd. split; [reflexivity|].
    unfold sorted in Hvd. rewrite (js_sort_perm ∅ vds) in Hvd. exact Hvd. }
  assert (Hc : covered states' sorted) by apply add_default_states_covers.
  split; [|split; [apply js_sort_perm|split; [|exact Hlookup]]].
  - unfold new_persistent_model.
    assert (Hraw : storage_get viewletStateStorageId' (scope_of workbenchState')
                     (JArray []) storageService = JArray []).
    { unfold storage_get. unfold stored in Hfresh.
      destruct (scope_of workbenchState'); rewrite Hfresh; reflexivity. }
    rewrite Hraw. cbn [load_states].
    unfold new_model, onDidChangeViewDescriptors.
    cbn [viewStates viewDescriptors]. fold sorted. fold states'.
    unfold sortedDiff. cbn [sortedDiff_loop]. rewrite rev_involutive.
    destruct (splices_events_from_empty states' sorted Hc) as [events Hev].
    pose proof Hev as Hev'.
    destruct sorted as [|vd sorted'] eqn:Hsorted.
    + simpl in Hev. injection Hev as <-. rewrite Hev'. reflexivity.
    + revert Hev'. unfold pushSplice. cbn [length Nat.eqb andb splices_events].
      unfold splice_events.
      cbn [start deleteCount toInsert viewDescriptors viewStates nth_error
           remove_events length].
      change (mret 0%nat ≫= ?k) with (k 0%nat). cbv beta.
      change (Ok [] ≫= ?k) with (k (@nil ViewEvent)). cbv beta.
      rewrite (add_events_run states' 0 (vd :: sorted') Hc).
      rewrite (visible_of_all states' _ Hall).
      rewrite (add_list_all_default states' 0 _ Hall).
      intros _. simpl. rewrite app_nil_r. reflexivity.
  - unfold visibleViewDescriptors. cbn [viewStates viewDescriptors].
    rewrite (visible_filter_covered states' sorted Hc).
    rewrite (visible_of_all states' sorted Hall). reflexivity.
Qed.

Lemma new_persistent_model_fresh_witness :
  stored "views" (scope_of FOLDER) storage_global_only = None
  /\ new_persistent_model [view_collapsed; view_y] "views" storage_global_only
       FOLDER
     = Ok (mkPersistent
             (mkModel [view_y; view_collapsed]
                      (add_default_states [view_y; view_collapsed] ∅))
             "views" FOLDER,
           [DidAdd 0 view_y None false; DidAdd 1 view_collapsed None false]).
Proof.
  split; [reflexivity|].
  destruct (new_persistent_model_fresh [view_collapsed; view_y] "views"
              storage_global_only FOLDER eq_refl) as (Hrun & _).
  rewrite Hrun. reflexivity.
Defined.

(** ** A diff of sorted arrays does no more than it has to *)








Section SortedDiffMinimal.

Context {A : Type}.
Variable compare : A -> A -> jsnum.
Variable lt : A -> A -> Prop.
Hypothesis lt_trans : forall x y z, lt x y -> lt y z -> lt x z.
Hypothesis compare_lt : forall x y, num_lt0 (compare x y) = true -> lt x y.
Hypothesis compare_gt : forall x y, num_gt0 (compare x y) = true -> lt y x.
Hypothesis compare_eq_l :
  forall x y z, num_eq0 (compare x y) = true -> lt y z -> lt x z.
Hypothesis compare_eq_r :
  forall x y z, num_eq0 (compare x y) = true -> lt x z -> lt y z.
Hypothesis lt_ne :
  forall x y, lt x y ->
    num_eq0 (compare x y) = false /\ num_eq0 (compare y x) = false.

Variable B Af : list A.



End SortedDiffMinimal.

(** ** What the events of a reconcile pass name *)





Section ReconcileLists.

Variable states : gmap string IViewState.
Variable old : list IViewDescriptor.
Hypothesis old_covered : covered states old.
Hypothesis old_nodup : NoDup (map vd_id old).


End ReconcileLists.

















(** ** Stable grouping *)

Lemma mergeSort_insert_stable (r : string) (x : CommentThread)
    (l : list CommentThread) :
  List.filter (on_resource r) (mergeSort_insert _compareURIs x l)
  = List.filter (on_resource r) (x :: l).
Proof.
  induction l as [|y l IH]; [reflexivity|].
  cbn [mergeSort_insert].
  destruct (Z.ltb 0 (_compareURIs x y)) eqn:Hgt; [|reflexivity].
  apply compareURIs_pos in Hgt.
  cbn [List.filter] in *. rewrite IH.
  unfold on_resource.
  destruct (String.eqb_spec (ct_resource x) r) as [Hx|Hx];
    destruct (String.eqb_spec (ct_resource y) r) as [Hy|Hy]; try reflexivity.
  exfalso. rewrite Hx, Hy, string_compare_refl in Hgt. discriminate.
Qed.

Lemma mergeSort_stable (r : string) (l : list CommentThread) :
  List.filter (on_resource r) (mergeSort l _compareURIs)
  = List.filter (on_resource r) l.
Proof.
  induction l as [|x l IH]; [reflexivity|].
  unfold mergeSort in *. cbn [foldr].
  rewrite mergeSort_insert_stable. cbn [List.filter]. rewrite IH. reflexivity.
Qed.

Lemma filter_group (g : list CommentThread) (r : string) :
  Forall (fun t => ct_resource t = group_key g) g ->
  List.filter (on_resource r) g = if String.eqb (group_key g) r then g else [].
Proof.
  intros Hall. generalize dependent (group_key g). intros k Hall.
  induction Hall as [|t rest Ht _ IH].
  - destruct (String.eqb k r); reflexivity.
  - cbn [List.filter]. unfold on_resource at 1. rewrite Ht, IH.
    destruct (String.eqb k r); reflexivity.
Qed.

Lemma filter_groups (gs : list (list CommentThread)) (g : list CommentThread) :
  Forall group_ok gs -> NoDup (map group_key gs) -> g ∈ gs ->
  List.filter (on_resource (group_key g)) (concat gs) = g.
Proof.
  induction gs as [|g0 gs IH]; intros Hok Hnd Hg; [inversion Hg|].
  apply Forall_cons in Hok as [[_ Hok0] Hok].
  cbn [map] in Hnd. apply NoDup_cons in Hnd as [Hnot Hnd].
  cbn [concat]. rewrite List.filter_app, (filter_group g0 _ Hok0).
  apply elem_of_cons in Hg as [->|Hg].
  - rewrite String.eqb_refl.
    assert (Hrest : List.filter (on_resource (group_key g0)) (concat gs) = []).
    { clear IH Hnd. induction gs as [|g1 gs IH1]; [reflexivity|].
      apply Forall_cons in Hok as [[_ Hok1] Hok].
      cbn [concat]. rewrite List.filter_app, (filter_group g1 _ Hok1).
      destruct (String.eqb_spec (group_key g1) (group_key g0)) as [Heq|_].
      - exfalso. apply Hnot. rewrite <- Heq. left.
      - apply IH1; [exact Hok|]. intros Hin. apply Hnot. right. exact Hin. }
    rewrite Hrest. apply app_nil_r.
  - destruct (String.eqb_spec (group_key g0) (group_key g)) as [Heq|_].
    + exfalso. apply Hnot. rewrite Heq. apply list_elem_of_fmap. exists g. auto.
    + apply IH; assumption.
Qed.

Lemma StronglySorted_rev {A} (R : A -> A -> Prop) (l : list A) :
  StronglySorted R l -> StronglySorted (fun x y => R y x) (rev l).
Proof.
  induction 1 as [|x l Hs IH Hx]; [constructor|].
  cbn [rev]. apply StronglySorted_app. split; [|split].
  - intros a b Ha Hb. apply list_elem_of_In, in_rev, list_elem_of_In in Ha.
    apply list_elem_of_singleton in Hb. subst b.
    rewrite Forall_forall in Hx. exact (Hx a Ha).
  - exact IH.
  - repeat constructor.
Qed.

Lemma groupBy_groups (threads : list CommentThread) :
  Forall group_ok (groupBy threads _compareURIs)
  /\ StronglySorted key_asc (groupBy threads _compareURIs)
  /\ concat (groupBy threads _compareURIs) = mergeSort threads _compareURIs.
Proof.
  destruct (groupBy_loop_spec (mergeSort threads _compareURIs) [])
    as (Hok & Hsorted & Hconcat).
  - apply mergeSort_sorted.
  - constructor.
  - constructor.
  - intros g t Hhd. discriminate Hhd.
  - unfold groupBy. split; [|split].
    + apply Forall_forall. intros g Hg.
      apply list_elem_of_In, in_rev, list_elem_of_In in Hg.
      rewrite Forall_forall in Hok. exact (Hok g Hg).
    + exact (StronglySorted_rev key_desc _ Hsorted).
    + exact Hconcat.
Qed.

(** ** Removing and changing a thread *)

Section ThreadUpdates.

Context {URI : Type}.
Variable URI_parse : string -> URI.
Variable URI_toString : URI -> string.

Lemma thread_index_found (threadId' : string)
    (tpre tpost : list (option (CommentNode URI))) (n : CommentNode URI) (k : Z) :
  Forall (other_thread threadId') tpre -> threadId n = threadId' ->
  thread_index_from threadId' (tpre ++ Some n :: tpost) k
  = Ok (k + Z.of_nat (length tpre)).
Proof.
  intros Hpre Hn. revert k.
  induction Hpre as [|slot tpre (n' & -> & Hne) _ IH]; intros k.
  - cbn [app thread_index_from length]. rewrite Hn, String.eqb_refl.
    f_equal. simpl. lia.
  - cbn [app thread_index_from length].
    destruct (String.eqb_spec (threadId n') threadId') as [?|_]; [contradiction|].
    rewrite IH. f_equal. lia.
Qed.

Lemma thread_index_absent (threadId' : string)
    (nodes : list (option (CommentNode URI))) (k : Z) :
  Forall (other_thread threadId') nodes ->
  thread_index_from threadId' nodes k = Ok (-1).
Proof.
  intros H. revert k. induction H as [|slot nodes (n' & -> & Hne) _ IH]; intros k.
  - reflexivity.
  - cbn [thread_index_from].
    destruct (String.eqb_spec (threadId n') threadId') as [?|_]; [contradiction|].
    apply IH.
Qed.

Lemma resource_index_found (r : string)
    (pre post : list (ResourceWithCommentThreads URI))
    (e : ResourceWithCommentThreads URI) :
  Forall (fun x => id x <> r) pre -> id e = r ->
  firstIndex (pre ++ e :: post) (resource_has_id r) = Z.of_nat (length pre)
  /\ js_index (pre ++ e :: post) (Z.of_nat (length pre)) = Some e.
Proof.
  intros Hpre He. split.
  - unfold firstIndex. rewrite firstIndex_from_found; [lia| |].
    + eapply Forall_impl; [exact Hpre|]. intros x Hx. simpl.
      unfold resource_has_id. apply String.eqb_neq. exact Hx.
    + unfold resource_has_id. apply String.eqb_eq. exact He.
  - rewrite js_index_lookup. apply list_lookup_middle. reflexivity.
Qed.

Lemma resource_index_absent (r : string)
    (l : list (ResourceWithCommentThreads URI)) :
  Forall (fun x => id x <> r) l ->
  js_index l (firstIndex l (resource_has_id r)) = None.
Proof.
  intros H. unfold firstIndex. rewrite firstIndex_from_none; [reflexivity|].
  eapply Forall_impl; [exact H|]. intros x Hx. simpl.
  unfold resource_has_id. apply String.eqb_neq. exact Hx.
Qed.

Lemma insert_middle {A} (pre post : list A) (x y : A) :
  <[length pre := y]> (pre ++ x :: post) = pre ++ y :: post.
Proof.
  rewrite <- (Nat.add_0_r (length pre)), insert_app_r. reflexivity.
Qed.

Lemma remove_thread_at (thread : CommentThread)
    (pre post : list (ResourceWithCommentThreads URI))
    (e : ResourceWithCommentThreads URI) (index : Z)
    (nodes : list (option (CommentNode URI))) :
  Forall (fun x => id x <> ct_resource thread) pre ->
  id e = ct_resource thread ->
  thread_index_from (ct_threadId thread) (commentThreads e) 0 = Ok index ->
  snd (js_splice (commentThreads e) index 1 []) = nodes ->
  remove_thread thread (mkCommentsModel (pre ++ e :: post))
  = Ok (mkCommentsModel (pre ++ entry_unless_empty e nodes ++ post)).
Proof.
  intros Hpre He Hidx Hnodes. unfold remove_thread.
  cbn [resourceCommentThreads].
  destruct (resource_index_found _ pre post e Hpre He) as [-> ->].
  rewrite Hidx. cbn [mbind result_bind]. rewrite Hnodes, Nat2Z.id, insert_middle.
  destruct nodes as [|slot nodes'].
  - cbn [length Nat.eqb mret result_ret entry_unless_empty app].
    rewrite js_splice_delete_middle. reflexivity.
  - reflexivity.
Qed.

Lemma change_thread_at (thread : CommentThread)
    (pre post : list (ResourceWithCommentThreads URI))
    (e : ResourceWithCommentThreads URI) (index : Z) :
  Forall (fun x => id x <> ct_resource thread) pre ->
  id e = ct_resource thread ->
  thread_index_from (ct_threadId thread) (commentThreads e) 0 = Ok index ->
  change_thread URI_parse thread (mkCommentsModel (pre ++ e :: post))
  = Ok (mkCommentsModel
          (pre ++ with_threads e
                    (if Z.ltb index 0 then commentThreads e
                     else <[Z.to_nat index :=
                              createCommentNode (URI_parse (id e)) thread]>
                            (commentThreads e))
               :: post)).
Proof.
  intros Hpre He Hidx. unfold change_thread.
  cbn [resourceCommentThreads].
  destruct (resource_index_found _ pre post e Hpre He) as [-> ->].
  rewrite Hidx. cbn [mbind result_bind]. rewrite Nat2Z.id, insert_middle.
  reflexivity.
Qed.

Lemma createCommentNode_some (resource' : URI) (thread : CommentThread) :
  ct_comments thread <> [] ->
  exists n, createCommentNode resource' thread = Some n
            /\ threadId n = ct_threadId thread.
Proof.
  intros Hne. unfold createCommentNode.
  destruct (ct_comments thread) as [|c rest]; [contradiction|].
  cbn [map length].
  destruct (Nat.ltb 1 (S (length (map _ rest)))); cbn [head insert list_insert];
    eexists; split; reflexivity.
Qed.

Lemma createCommentNode_none (resource' : URI) (thread : CommentThread) :
  ct_comments thread = [] -> createCommentNode resource' thread = None.
Proof. intros H. unfold createCommentNode. rewrite H. reflexivity. Qed.

Lemma thread_index_undefined (threadId' : string)
    (tpre tpost : list (option (CommentNode URI))) (k : Z) :
  Forall (other_thread threadId') tpre ->
  thread_index_from threadId' (tpre ++ None :: tpost) k = Throw TypeError.
Proof.
  intros Hpre. revert k.
  induction Hpre as [|slot tpre (n' & -> & Hne) _ IH]; intros k.
  - reflexivity.
  - cbn [app thread_index_from].
    destruct (String.eqb_spec (threadId n') threadId') as [?|_]; [contradiction|].
    apply IH.
Qed.

Lemma for_each_one {A} (f : A -> CommentsModel URI -> result (CommentsModel URI))
    (x : A) (m : CommentsModel URI) :
  for_each f [x] m = f x m.
Proof. simpl. destruct (f x m); reflexivity. Qed.

Lemma addCommentThreads_nil (m : CommentsModel URI) :
  addCommentThreads URI_parse URI_toString [] m = Ok m.
Proof. destruct m. reflexivity. Qed.

Lemma update_removed_only (thread : CommentThread) (m : CommentsModel URI) :
  updateCommentThreads URI_parse URI_toString (mkChangedEvent [] [thread] []) m
  = remove_thread thread m.
Proof.
  unfold updateCommentThreads. cbn [removed changed added].
  rewrite for_each_one. destruct (remove_thread thread m) as [m'|]; [|reflexivity].
  cbn [mbind result_bind for_each]. apply addCommentThreads_nil.
Qed.

Lemma update_changed_only (thread : CommentThread) (m : CommentsModel URI) :
  updateCommentThreads URI_parse URI_toString (mkChangedEvent [] [] [thread]) m
  = change_thread URI_parse thread m.
Proof.
  unfold updateCommentThreads. cbn [removed changed added].
  change (for_each remove_thread [] m) with (Ok m). cbn [mbind result_bind].
  rewrite for_each_one.
  destruct (change_thread URI_parse thread m) as [m'|]; [|reflexivity].
  cbn [mbind result_bind]. apply addCommentThreads_nil.
Qed.

Lemma update_added_only (thread : CommentThread) (m : CommentsModel URI) :
  updateCommentThreads URI_parse URI_toString (mkChangedEvent [thread] [] []) m
  = Ok (mkCommentsModel
          (resourceCommentThreads m
           ++ [group_entry URI_parse URI_toString [thread]])).
Proof. reflexivity. Qed.

End ThreadUpdates.

Lemma js_splice_delete_last {A} (init : list A) (last : A) :
  snd (js_splice (init ++ [last]) (-1) 1 []) = init.
Proof.
  unfold js_splice. cbn [snd app].
  assert (Hs : splice_start (init ++ [last]) (-1) = length init).
  { unfold splice_start. rewrite length_app. cbn [length].
    destruct (Z.ltb_spec (-1) 0) as [_|?]; [|lia]. lia. }
  rewrite Hs, take_app_length, drop_app_length. cbn [skipn]. apply app_nil_r.
Qed.

Lemma resource_eta {URI : Type} (e : ResourceWithCommentThreads URI) :
  with_threads e (commentThreads e) = e.
Proof. destruct e. reflexivity. Qed.


(** ** The comments model, continued *)

(** X16: how [setCommentThreads] groups.  It discards the entries the
    model had and builds one entry per resource that occurs among the given
    threads; the entries are in ascending order of the resource text; the
    threads of an entry are the given threads on that resource, in the order
    in which they were given; and every given thread is in the entry of its
    resource. *)
Theorem setCommentThreads_groups {URI : Type}
    (URI_parse : string -> URI) (URI_toString : URI -> string)
    (threads : list CommentThread) (m : CommentsModel URI) :
  let groups := groupBy threads _compareURIs in
  setCommentThreads URI_parse URI_toString threads m
  = Ok (mkCommentsModel (map (group_entry URI_parse URI_toString) groups))
  /\ StronglySorted key_asc groups
  /\ (forall g, g ∈ groups ->
        g <> [] /\ g = List.filter (on_resource (group_key g)) threads)
  /\ (forall t, t ∈ threads ->
        exists g, g ∈ groups /\ group_key g = ct_resource t /\ t ∈ g).
Proof.
  intros groups.
  destruct (groupBy_groups threads) as (Hok & Hsorted & Hconcat).
  destruct (groupBy_spec threads) as (_ & Hnd & Hperm).
  fold groups in Hok, Hsorted, Hconcat, Hnd, Hperm.
  split; [|split; [exact Hsorted|split]].
  - unfold setCommentThreads. rewrite addCommentThreads_spec. reflexivity.
  - intros g Hg. rewrite Forall_forall in Hok. split; [exact (proj1 (Hok g Hg))|].
    rewrite <- (mergeSort_stable (group_key g) threads), <- Hconcat.
    symmetry. apply filter_groups; [apply Forall_forall; exact Hok|exact Hnd|exact Hg].
  - intros t Ht. rewrite <- Hperm in Ht.
    apply list_elem_of_In, in_concat in Ht. destruct Ht as (g & Hg & Htg).
    apply list_elem_of_In in Hg. apply list_elem_of_In in Htg.
    exists g. split; [exact Hg|]. split; [|exact Htg].
    rewrite Forall_forall in Hok. destruct (Hok g Hg) as [_ Hall].
    rewrite Forall_forall in Hall. symmetry. exact (Hall t Htg).
Qed.

(** X17: removing a thread the model holds.  When the entry of the
    thread's resource is the first entry with that id, and the node of the
    thread is the first node of the entry with that thread id, the removed
    phase of [updateCommentThreads] takes exactly that node out of the entry
    and leaves the other nodes, the other entries and their order as they
    are; an entry left without nodes is dropped from the list; and the model
    has no comment threads afterwards exactly when that node was the only
    node of the only entry. *)
Theorem remove_thread_spec {URI : Type}
    (URI_parse : string -> URI) (URI_toString : URI -> string)
    (thread : CommentThread)
    (pre post : list (ResourceWithCommentThreads URI))
    (e : ResourceWithCommentThreads URI)
    (tpre tpost : list (option (CommentNode URI))) (n : CommentNode URI)
    (Hpre : Forall (fun x => id x <> ct_resource thread) pre)
    (He : id e = ct_resource thread)
    (Htpre : Forall (other_thread (ct_threadId thread)) tpre)
    (Hn : threadId n = ct_threadId thread)
    (Hthreads : commentThreads e = tpre ++ Some n :: tpost) :
  let m := mkCommentsModel (pre ++ e :: post) in
  let m' := mkCommentsModel (pre ++ entry_unless_empty e (tpre ++ tpost) ++ post) in
  remove_thread thread m = Ok m'
  /\ updateCommentThreads URI_parse URI_toString (mkChangedEvent [] [thread] []) m
     = Ok m'
  /\ (hasCommentThreads m' = false
      <-> pre = [] /\ post = [] /\ tpre = [] /\ tpost = []).
Proof.
  intros m m'.
  assert (Hrun : remove_thread thread m = Ok m').
  { apply (remove_thread_at thread pre post e (Z.of_nat (length tpre))).
    - exact Hpre.
    - exact He.
    - rewrite Hthreads, (thread_index_found _ tpre tpost n 0 Htpre Hn).
      reflexivity.
    - rewrite Hthreads. apply js_splice_delete_middle. }
  split; [exact Hrun|]. split.
  - rewrite update_removed_only. exact Hrun.
  - unfold hasCommentThreads, m'. cbn [resourceCommentThreads].
    rewrite negb_false_iff, Nat.eqb_eq, !length_app. split.
    + intros Hlen.
      destruct pre; [|simpl in Hlen; lia]. destruct post; [|simpl in Hlen; lia].
      destruct (tpre ++ tpost) as [|x l] eqn:Hnodes; [|simpl in Hlen; lia].
      apply app_eq_nil in Hnodes as [-> ->]. auto.
    + intros (-> & -> & -> & ->). reflexivity.
Qed.

Lemma remove_thread_spec_witness :
  updateCommentThreads text_uri text_uri (mkChangedEvent [] [thread_t1] [])
    comments_model_t1_t2
  = Ok (mkCommentsModel [group_entry text_uri text_uri [thread_t2]])
  /\ updateCommentThreads text_uri text_uri (mkChangedEvent [] [thread_t1] [])
       comments_model_t1
     = Ok (mkCommentsModel [])
  /\ hasCommentThreads (mkCommentsModel (URI := string) []) = false.
Proof.
  assert (Hother : forall slots : list (option (CommentNode string)),
             slots = [] -> Forall (other_thread (ct_threadId thread_t1)) slots).
  { intros ? ->. constructor. }
  assert (Hentries : forall l : list (ResourceWithCommentThreads string),
             l = [] -> Forall (fun x => id x <> ct_resource thread_t1) l).
  { intros ? ->. constructor. }
  destruct (createCommentNode_some "file:///a.ts" thread_t1 ltac:(discriminate))
    as (n1 & Hn1 & Hid1).
  split; [|split; [|reflexivity]].
  - destruct (remove_thread_spec text_uri text_uri thread_t1 [] []
                (group_entry text_uri text_uri [thread_t1; thread_t2])
                [] [createCommentNode "file:///a.ts" thread_t2] n1
                (Hentries [] eq_refl) eq_refl (Hother [] eq_refl) Hid1)
      as (_ & Hupd & _).
    + cbn [group_entry new_ResourceWithCommentThreads commentThreads map app].
      rewrite <- Hn1. reflexivity.
    + exact Hupd.
  - destruct (remove_thread_spec text_uri text_uri thread_t1 [] []
                (group_entry text_uri text_uri [thread_t1])
                [] [] n1
                (Hentries [] eq_refl) eq_refl (Hother [] eq_refl) Hid1)
      as (_ & Hupd & _).
    + cbn [group_entry new_ResourceWithCommentThreads commentThreads map app].
      rewrite <- Hn1. reflexivity.
    + exact Hupd.
Defined.

(** X18: the lookups of the removed and the changed phase are not
    guarded.  When no entry of the model has the thread's resource text as
    its id, removing or changing the thread throws a type error, and so
    does the whole of [updateCommentThreads] for an event whose first
    removed thread it is.  When the entry exists but none of its nodes has
    the thread's id, removing the thread takes out the last node of the
    entry instead, dropping the entry if that was its only node, and
    changing the thread leaves the model as it is. *)
Theorem update_unguarded_lookups {URI : Type}
    (URI_parse : string -> URI) (URI_toString : URI -> string)
    (thread : CommentThread) (m : CommentsModel URI) :
  (Forall (fun x => id x <> ct_resource thread) (resourceCommentThreads m) ->
   remove_thread thread m = Throw TypeError
   /\ change_thread URI_parse thread m = Throw TypeError
   /\ forall added' removed' changed',
        updateCommentThreads URI_parse URI_toString
          (mkChangedEvent added' (thread :: removed') changed') m
        = Throw TypeError)
  /\ (forall pre e post init last,
        resourceCommentThreads m = pre ++ e :: post ->
        Forall (fun x => id x <> ct_resource thread) pre ->
        id e = ct_resource thread ->
        commentThreads e = init ++ [last] ->
        Forall (other_thread (ct_threadId thread)) (init ++ [last]) ->
        remove_thread thread m
        = Ok (mkCommentsModel (pre ++ entry_unless_empty e init ++ post))
        /\ change_thread URI_parse thread m = Ok m).
Proof.
  split.
  - intros Hnone.
    assert (Hr : remove_thread thread m = Throw TypeError).
    { unfold remove_thread. rewrite resource_index_absent by exact Hnone.
      reflexivity. }
    split; [exact Hr|]. split.
    + unfold change_thread. rewrite resource_index_absent by exact Hnone.
      reflexivity.
    + intros added' removed' changed'. unfold updateCommentThreads.
      cbn [removed for_each]. rewrite Hr. reflexivity.
  - intros pre e post init last Hm Hpre He Hthreads Hother.
    destruct m as [entries]. cbn [resourceCommentThreads] in Hm. subst entries.
    pose proof (thread_index_absent (ct_threadId thread) _ 0 Hother) as Hidx.
    rewrite <- Hthreads in Hidx. split.
    + apply (remove_thread_at thread pre post e (-1)); try assumption.
      rewrite Hthreads. apply js_splice_delete_last.
    + rewrite (change_thread_at URI_parse thread pre post e (-1)); try assumption.
      cbn [Z.ltb Z.compare]. rewrite resource_eta. reflexivity.
Qed.

Lemma update_unguarded_lookups_witness :
  remove_thread thread_t3 comments_model_t1_t2 = Throw TypeError
  /\ remove_thread thread_unknown comments_model_t1_t2
     = Ok (mkCommentsModel [group_entry text_uri text_uri [thread_t1]])
  /\ change_thread text_uri thread_unknown comments_model_t1_t2
     = Ok comments_model_t1_t2.
Proof.
  destruct (update_unguarded_lookups text_uri text_uri thread_t3
              comments_model_t1_t2) as [Hnone _].
  destruct Hnone as (Hthrow & _).
  { repeat constructor. discriminate. }
  destruct (update_unguarded_lookups text_uri text_uri thread_unknown
              comments_model_t1_t2) as [_ Hlast].
  destruct (Hlast [] (group_entry text_uri text_uri [thread_t1; thread_t2]) []
              [createCommentNode "file:///a.ts" thread_t1]
              (createCommentNode "file:///a.ts" thread_t2))
    as (Hremove & Hchange).
  - reflexivity.
  - constructor.
  - reflexivity.
  - reflexivity.
  - repeat constructor; eexists; (split; [reflexivity|discriminate]).
  - split; [exact Hthrow|]. split; [exact Hremove|exact Hchange].
Defined.

(** X19: adding a thread and removing it again.  Take a thread with at
    least one comment whose resource text is the id of no entry of the
    model.  Adding it appends an entry, so that the model has comment
    threads.  When [URI.parse] followed by [toString] gives the resource
    text back, removing the thread afterwards gives back the model as it
    was; when it gives another text, the entry was filed under that other
    text and removing the thread throws a type error. *)
Theorem add_then_remove_thread {URI : Type}
    (URI_parse : string -> URI) (URI_toString : URI -> string)
    (thread : CommentThread) (m : CommentsModel URI)
    (Hcomments : ct_comments thread <> [])
    (Hfresh : Forall (fun x => id x <> ct_resource thread)
                     (resourceCommentThreads m)) :
  exists m1,
    updateCommentThreads URI_parse URI_toString (mkChangedEvent [thread] [] []) m
    = Ok m1
    /\ hasCommentThreads m1 = true
    /\ (URI_toString (URI_parse (ct_resource thread)) = ct_resource thread ->
        updateCommentThreads URI_parse URI_toString
          (mkChangedEvent [] [thread] []) m1 = Ok m)
    /\ (URI_toString (URI_parse (ct_resource thread)) <> ct_resource thread ->
        updateCommentThreads URI_parse URI_toString
          (mkChangedEvent [] [thread] []) m1 = Throw TypeError).
Proof.
  eexists. split; [apply update_added_only|].
  destruct (createCommentNode_some (URI_parse (ct_resource thread)) thread Hcomments)
    as (n & Hn & Hid).
  split; [|split].
  - unfold hasCommentThreads. cbn [resourceCommentThreads].
    rewrite length_app. cbn [length]. rewrite Nat.add_1_r. reflexivity.
  - intros Hnorm. rewrite update_removed_only.
    rewrite (remove_thread_at thread (resourceCommentThreads m) []
               (group_entry URI_parse URI_toString [thread]) 0 []).
    + cbn [entry_unless_empty app]. rewrite app_nil_r. destruct m. reflexivity.
    + exact Hfresh.
    + exact Hnorm.
    + cbn [group_entry group_key new_ResourceWithCommentThreads commentThreads map].
      rewrite Hn. cbn [thread_index_from]. rewrite Hid, String.eqb_refl. reflexivity.
    + cbn [group_entry group_key new_ResourceWithCommentThreads commentThreads map].
      reflexivity.
  - intros Hnorm. rewrite update_removed_only.
    unfold remove_thread. rewrite resource_index_absent; [reflexivity|].
    cbn [resourceCommentThreads]. apply Forall_app. split; [exact Hfresh|].
    constructor; [exact Hnorm|constructor].
Qed.

Lemma add_then_remove_thread_witness :
  ct_comments thread_t3 <> []
  /\ Forall (fun x => id x <> ct_resource thread_t3)
            (resourceCommentThreads comments_model_t1)
  /\ text_uri (text_uri (ct_resource thread_t3)) = ct_resource thread_t3
  /\ text_uri (lower_uri (ct_resource thread_upper)) <> ct_resource thread_upper
  /\ (exists m1,
        updateCommentThreads text_uri text_uri (mkChangedEvent [thread_t3] [] [])
          comments_model_t1 = Ok m1
        /\ updateCommentThreads text_uri text_uri (mkChangedEvent [] [thread_t3] [])
             m1 = Ok comments_model_t1)
  /\ (exists m1,
        updateCommentThreads lower_uri text_uri (mkChangedEvent [thread_upper] [] [])
          new_CommentsModel = Ok m1
        /\ updateCommentThreads lower_uri text_uri
             (mkChangedEvent [] [thread_upper] []) m1 = Throw TypeError).
Proof.
  assert (Hc : ct_comments thread_t3 <> []) by discriminate.
  assert (Hf : Forall (fun x => id x <> ct_resource thread_t3)
                      (resourceCommentThreads comments_model_t1)).
  { repeat constructor. discriminate. }
  assert (Hn : text_uri (lower_uri (ct_resource thread_upper))
               <> ct_resource thread_upper) by discriminate.
  split; [exact Hc|]. split; [exact Hf|]. split; [reflexivity|].
  split; [exact Hn|]. split.
  - destruct (add_then_remove_thread text_uri text_uri thread_t3 comments_model_t1
                Hc Hf) as (m1 & Hadd & _ & Hback & _).
    exists m1. split; [exact Hadd|]. apply Hback. reflexivity.
  - destruct (add_then_remove_thread lower_uri text_uri thread_upper
                new_CommentsModel ltac:(discriminate) ltac:(constructor))
      as (m1 & Hadd & _ & _ & Hthrow).
    exists m1. split; [exact Hadd|]. apply Hthrow. exact Hn.
Defined.

(** X20: changing a thread the model holds.  When the entry of the
    thread's resource is the first entry with that id, and the node of the
    thread is the first node of the entry with that thread id, the changed
    phase of [updateCommentThreads] puts the node built from the thread in
    the place of the old node and leaves the other nodes, the other entries
    and their order as they are.  A thread that is changed to have no
    comments leaves an undefined node in that place, and removing or
    changing that thread afterwards throws a type error. *)
Theorem change_thread_spec {URI : Type}
    (URI_parse : string -> URI) (URI_toString : URI -> string)
    (thread : CommentThread)
    (pre post : list (ResourceWithCommentThreads URI))
    (e : ResourceWithCommentThreads URI)
    (tpre tpost : list (option (CommentNode URI))) (n : CommentNode URI)
    (Hpre : Forall (fun x => id x <> ct_resource thread) pre)
    (He : id e = ct_resource thread)
    (Htpre : Forall (other_thread (ct_threadId thread)) tpre)
    (Hn : threadId n = ct_threadId thread)
    (Hthreads : commentThreads e = tpre ++ Some n :: tpost) :
  let m := mkCommentsModel (pre ++ e :: post) in
  let m' := mkCommentsModel
              (pre ++ with_threads e
                        (tpre ++ createCommentNode (URI_parse (id e)) thread
                              :: tpost)
                   :: post) in
  change_thread URI_parse thread m = Ok m'
  /\ updateCommentThreads URI_parse URI_toString (mkChangedEvent [] [] [thread]) m
     = Ok m'
  /\ (ct_comments thread = [] ->
      remove_thread thread m' = Throw TypeError
      /\ change_thread URI_parse thread m' = Throw TypeError).
Proof.
  intros m m'.
  assert (Hrun : change_thread URI_parse thread m = Ok m').
  { unfold m. rewrite (change_thread_at URI_parse thread pre post e
                         (Z.of_nat (length tpre)) Hpre He).
    - destruct (Z.ltb_spec (Z.of_nat (length tpre)) 0) as [?|_]; [lia|].
      rewrite Nat2Z.id, Hthreads, insert_middle. reflexivity.
    - rewrite Hthreads, (thread_index_found _ tpre tpost n 0 Htpre Hn).
      reflexivity. }
  split; [exact Hrun|]. split.
  - rewrite update_changed_only. exact Hrun.
  - intros Hempty.
    unfold m'. rewrite (createCommentNode_none _ thread Hempty).
    assert (Hidx : thread_index_from (ct_threadId thread)
                     (commentThreads (with_threads e (tpre ++ None :: tpost))) 0
                   = Throw TypeError).
    { apply thread_index_undefined. exact Htpre. }
    unfold remove_thread, change_thread. cbn [resourceCommentThreads].
    destruct (resource_index_found (ct_resource thread) pre post
                (with_threads e (tpre ++ None :: tpost)) Hpre He) as [-> ->].
    rewrite Hidx. split; reflexivity.
Qed.

Lemma change_thread_spec_witness :
  updateCommentThreads text_uri text_uri
    (mkChangedEvent [] [] [mkCommentThread "t2" "file:///a.ts" (mkRange 5 1 5 1)
                             [comment_2]])
    comments_model_t1_t2
  = Ok (mkCommentsModel
          [mkResource "file:///a.ts"
             [createCommentNode "file:///a.ts" thread_t1;
              Some (mkCommentNode "t2" (mkRange 5 1 5 1) comment_2 []
                      "file:///a.ts")]
             "file:///a.ts"]).
Proof.
  destruct (createCommentNode_some "file:///a.ts" thread_t2 ltac:(discriminate))
    as (n2 & Hn2 & Hid2).
  destruct (change_thread_spec text_uri text_uri
              (mkCommentThread "t2" "file:///a.ts" (mkRange 5 1 5 1) [comment_2])
              [] [] (group_entry text_uri text_uri [thread_t1; thread_t2])
              [createCommentNode "file:///a.ts" thread_t1] [] n2)
    as (_ & Hupd & _).
  - constructor.
  - reflexivity.
  - repeat constructor. eexists. split; [reflexivity|discriminate].
  - exact Hid2.
  - cbn [group_entry new_ResourceWithCommentThreads commentThreads map app].
    rewrite <- Hn2. reflexivity.
  - exact Hupd.
Defined.

(** ** Validation of contributed views *)

Lemma valid_item_step (descriptor : json) (rest : list json)
    (collector : list ExtensionMessage) :
  valid_item descriptor ->
  isValidViewDescriptors_loop (descriptor :: rest) collector
  = isValidViewDescriptors_loop rest collector.
Proof.
  intros (members & id' & name' & -> & Hid & Hname & Hwhen).
  cbn [isValidViewDescriptors_loop get_property mbind result_bind].
  rewrite Hid, Hname. cbn [typeof_string negb].
  destruct (js_truthy (member "when" members)) eqn:Ht; [|reflexivity].
  destruct (Hwhen eq_refl) as [w ->]. reflexivity.
Qed.

Lemma invalid_item_step (descriptor : json) (rest : list json)
    (collector collector' : list ExtensionMessage) :
  isValidViewDescriptors_loop (descriptor :: rest) collector = Ok (true, collector') ->
  valid_item descriptor
  /\ isValidViewDescriptors_loop rest collector = Ok (true, collector').
Proof.
  cbn [isValidViewDescriptors_loop].
  destruct descriptor as [|b|z|s|elements|members];
    cbn [get_property mbind result_bind typeof_string negb]; try discriminate.
  destruct (member "id" members) as [[| | |id'| |]|] eqn:Hid;
    cbn [typeof_string negb]; try discriminate.
  destruct (member "name" members) as [[| | |name'| |]|] eqn:Hname;
    cbn [typeof_string negb]; try discriminate.
  destruct (js_truthy (member "when" members)) eqn:Ht.
  - destruct (member "when" members) as [[| | |when'| |]|] eqn:Hwhen;
      cbn [typeof_string negb andb]; try discriminate.
    intros Hrest. split; [|exact Hrest].
    exists members, id', name'. repeat split; eauto.
  - cbn [andb]. intros Hrest. split; [|exact Hrest].
    exists members, id', name'. repeat split; auto. intros H. congruence.
Qed.

(** ** Registration of contributed views *)

Lemma indexOf_from_spec (array : list string) (x : string) (i : Z) :
  0 <= i ->
  (indexOf_from array x i = -1 <-> x ∉ array).
Proof.
  revert i. induction array as [|y rest IH]; intros i Hi.
  - simpl. split; [intros _ H; inversion H|reflexivity].
  - cbn [indexOf_from]. rewrite not_elem_of_cons.
    destruct (String.eqb_spec y x) as [->|Hne].
    + split; [lia|intros [Hxx _]; exfalso; apply Hxx; reflexivity].
    + rewrite IH by lia.
      split; [intros H; split; [intros ->; apply Hne; reflexivity|exact H]|tauto].
Qed.

Lemma indexOf_spec (array : list string) (x : string) :
  Z.eqb (indexOf array x) (-1) = bool_decide (x ∉ array).
Proof.
  unfold indexOf. pose proof (indexOf_from_spec array x 0 ltac:(lia)) as H.
  destruct (Z.eqb_spec (indexOf_from array x 0) (-1)) as [He|He];
    symmetry; [apply bool_decide_eq_true|apply bool_decide_eq_false]; tauto.
Qed.

Lemma existsb_registered (registeredViews : list IViewDescriptor) (x : string) :
  existsb (fun v => String.eqb (vd_id v) x) registeredViews
  = bool_decide (x ∈ map vd_id registeredViews).
Proof.
  induction registeredViews as [|v rest IH]; [reflexivity|].
  cbn [existsb map]. rewrite IH.
  destruct (String.eqb_spec (vd_id v) x) as [->|Hne]; cbn [orb].
  - symmetry. apply bool_decide_eq_true. left.
  - apply bool_decide_ext. rewrite elem_of_cons. split; [auto|].
    intros [?|?]; [congruence|assumption].
Qed.

Section ViewsExtensionPointProperties.

Context {ViewLocation : Type} `{EqDecision ViewLocation}.
Variable Explorer Debug SCM : ViewLocation.
Variable location_id : ViewLocation -> string.
Variable deserialize : option json -> option ContextKeyExpr.

Lemma map_items_spec (location : ViewLocation)
    (registeredViews : list IViewDescriptor)
    (items' : list IUserFriendlyViewDescriptor) :
  forall (viewIds : list string) (collector : list ExtensionMessage),
    let mapped :=
      fst (map_items Explorer Debug SCM location_id deserialize location
             registeredViews items' viewIds collector) in
    let collector' :=
      snd (map_items Explorer Debug SCM location_id deserialize location
             registeredViews items' viewIds collector) in
    length mapped = length items'
    /\ map vd_id (somes mapped)
       = first_occurrences viewIds
           (List.filter (fun x => negb (bool_decide (x ∈ map vd_id registeredViews)))
                        (map uf_id items'))
    /\ Forall (fun vd => vd_canToggleVisibility vd = true
                         /\ vd_order vd = None
                         /\ vd_collapsed vd
                            = Some (showCollapsed Explorer Debug SCM location)
                         /\ exists item, item ∈ items'
                                         /\ vd_id vd = uf_id item
                                         /\ vd_name vd = uf_name item
                                         /\ vd_when vd = deserialize (uf_when item))
              (somes mapped)
    /\ (length collector' + length (somes mapped)
        = length collector + length items')%nat.
Proof.
  induction items' as [|item rest IH]; intros viewIds collector.
  - cbn. repeat split; auto.
  - cbn zeta. cbn [map_items].
    rewrite indexOf_spec, existsb_registered.
    destruct (bool_decide (uf_id item ∉ viewIds)) eqn:Hseen; cbn [negb].
    + destruct (bool_decide (uf_id item ∈ map vd_id registeredViews)) eqn:Hreg.
      * specialize (IH viewIds
                      (collector ++ [duplicateView2 (uf_id item) (location_id location)])).
        cbn zeta in IH.
        destruct (map_items _ _ _ _ _ _ _ rest viewIds _) as [mapped c'].
        cbn [fst snd] in *. destruct IH as (Hlen & Hids & Hall & Hcount).
        cbn [map List.filter]. rewrite Hreg. simpl.
        split; [lia|]. split; [exact Hids|]. split.
        -- eapply Forall_impl; [exact Hall|].
           intros vd (? & ? & ? & it & Hit & ?). repeat split; auto.
           exists it. split; [right; exact Hit|assumption].
        -- rewrite length_app in Hcount. simpl in Hcount. lia.
      * specialize (IH (viewIds ++ [uf_id item]) collector). cbn zeta in IH.
        cbn [vd_id].
        destruct (map_items _ _ _ _ _ _ _ rest (viewIds ++ [uf_id item]) _)
          as [mapped c'].
        cbn [fst snd] in *. destruct IH as (Hlen & Hids & Hall & Hcount).
        cbn [map List.filter]. rewrite Hreg. simpl.
        apply bool_decide_eq_true in Hseen.
        rewrite (bool_decide_eq_false_2 _ Hseen).
        split; [lia|]. split; [f_equal; exact Hids|]. split.
        -- constructor.
           ++ cbn. repeat split. exists item. split; [left|auto].
           ++ eapply Forall_impl; [exact Hall|].
              intros vd (? & ? & ? & it & Hit & ?). repeat split; auto.
              exists it. split; [right; exact Hit|assumption].
        -- lia.
    + specialize (IH viewIds
                    (collector ++ [duplicateView1 (uf_id item) (location_id location)])).
      cbn zeta in IH.
      destruct (map_items _ _ _ _ _ _ _ rest viewIds _) as [mapped c'].
      cbn [fst snd] in *. destruct IH as (Hlen & Hids & Hall & Hcount).
      apply bool_decide_eq_false in Hseen.
      assert (Hin : uf_id item ∈ viewIds).
      { destruct (decide (uf_id item ∈ viewIds)); [assumption|contradiction]. }
      simpl.
      split; [lia|]. split.
      * rewrite Hids.
        destruct (bool_decide (uf_id item ∈ map vd_id registeredViews));
          cbn [negb]; [reflexivity|].
        cbn [first_occurrences]. rewrite (bool_decide_eq_true_2 _ Hin). reflexivity.
      * split.
        -- eapply Forall_impl; [exact Hall|].
           intros vd (? & ? & ? & it & Hit & ?). repeat split; auto.
           exists it. split; [right; exact Hit|assumption].
        -- rewrite length_app in Hcount. simpl in Hcount. lia.
Qed.

Lemma first_occurrences_spec (ids : list string) :
  forall seen,
    NoDup (first_occurrences seen ids)
    /\ (forall x, x ∈ first_occurrences seen ids <-> x ∈ ids /\ x ∉ seen).
Proof.
  induction ids as [|y rest IH]; intros seen.
  - split; [constructor|]. intros x. split; [intros H; inversion H|].
    intros [H _]. inversion H.
  - cbn [first_occurrences]. destruct (bool_decide (y ∈ seen)) eqn:Hy.
    + apply bool_decide_eq_true in Hy. destruct (IH seen) as [Hnd Hiff].
      split; [exact Hnd|]. intros x. rewrite Hiff, elem_of_cons. split.
      * intros [? ?]. auto.
      * intros [[->|?] ?]; [contradiction|auto].
    + apply bool_decide_eq_false in Hy.
      destruct (IH (seen ++ [y])) as [Hnd Hiff]. split.
      * constructor; [|exact Hnd]. rewrite Hiff. intros [_ Hn]. apply Hn.
        apply elem_of_app. right. left.
      * intros x. rewrite !elem_of_cons, Hiff, elem_of_app, list_elem_of_singleton.
        split.
        -- intros [->|[? Hn]]; [auto|]. split; [auto|]. intros ?. apply Hn. auto.
        -- intros [[->|?] Hn]; [auto|].
           destruct (decide (x = y)) as [->|Hne]; [auto|].
           right. split; [assumption|]. intros [?|?]; [contradiction|congruence].
Qed.

End ViewsExtensionPointProperties.

Lemma isValidViewDescriptors_loop_valid (descriptors : list json)
    (collector : list ExtensionMessage) :
  Forall valid_item descriptors ->
  isValidViewDescriptors_loop descriptors collector = Ok (true, collector).
Proof.
  induction 1 as [|d rest Hd _ IH]; [reflexivity|].
  rewrite valid_item_step by exact Hd. exact IH.
Qed.

Lemma isValidViewDescriptors_loop_true (descriptors : list json)
    (collector collector' : list ExtensionMessage) :
  isValidViewDescriptors_loop descriptors collector = Ok (true, collector') ->
  collector' = collector /\ Forall valid_item descriptors.
Proof.
  induction descriptors as [|d rest IH]; intros Hrun.
  - simpl in Hrun. injection Hrun as <-. split; [reflexivity|constructor].
  - apply invalid_item_step in Hrun as [Hd Hrest].
    destruct (IH Hrest) as [-> Hall]. split; [reflexivity|].
    constructor; assumption.
Qed.

Lemma isValidViewDescriptors_loop_false (descriptors : list json)
    (collector collector' : list ExtensionMessage) :
  isValidViewDescriptors_loop descriptors collector = Ok (false, collector') ->
  exists message, collector' = collector ++ [message].
Proof.
  induction descriptors as [|d rest IH]; [discriminate|].
  cbn [isValidViewDescriptors_loop].
  destruct (get_property d "id") as [id'|]; [|discriminate].
  cbn [mbind result_bind].
  destruct (negb (typeof_string id')); [intros [= <-]; eauto|].
  destruct (get_property d "name") as [name'|]; [|discriminate].
  cbn [mbind result_bind].
  destruct (negb (typeof_string name')); [intros [= <-]; eauto|].
  destruct (get_property d "when") as [when'|]; [|discriminate].
  cbn [mbind result_bind].
  destruct (js_truthy when' && negb (typeof_string when')); [intros [= <-]; eauto|].
  exact IH.
Qed.


(** ** The views extension point *)

(** X21: what [isValidViewDescriptors] accepts.  It returns [true], and
    reports nothing, exactly for an array whose elements are all objects
    with a string [id], a string [name], and a [when] that is a string, is
    absent, or is a value JavaScript takes for false, such as [0], [false],
    [null] or the empty string.  When it returns [false] it has reported
    exactly one error; a value that is not an array gives [false] with the
    error "views must be an array"; and an array that holds [null] behind
    accepted elements makes it throw a type error instead of returning. *)
Theorem isValidViewDescriptors_spec (viewDescriptors : json)
    (collector : list ExtensionMessage) :
  (isValidViewDescriptors viewDescriptors collector = Ok (true, collector)
   <-> exists descriptors,
         viewDescriptors = JArray descriptors /\ Forall valid_item descriptors)
  /\ (forall collector',
        isValidViewDescriptors viewDescriptors collector = Ok (true, collector') ->
        collector' = collector)
  /\ (forall collector',
        isValidViewDescriptors viewDescriptors collector = Ok (false, collector') ->
        exists message, collector' = collector ++ [message])
  /\ ((forall descriptors, viewDescriptors <> JArray descriptors) ->
      isValidViewDescriptors viewDescriptors collector
      = Ok (false, collector ++ [requirearray]))
  /\ (forall accepted rest,
        Forall valid_item accepted ->
        isValidViewDescriptors (JArray (accepted ++ JNull :: rest)) collector
        = Throw TypeError).
Proof.
  split; [|split; [|split; [|split]]].
  - split.
    + intros Hrun. destruct viewDescriptors as [| | | |descriptors|];
        try discriminate.
      exists descriptors. split; [reflexivity|].
      exact (proj2 (isValidViewDescriptors_loop_true _ _ _ Hrun)).
    + intros (descriptors & -> & Hall).
      apply isValidViewDescriptors_loop_valid. exact Hall.
  - intros collector' Hrun.
    destruct viewDescriptors as [| | | |descriptors|]; try discriminate.
    exact (proj1 (isValidViewDescriptors_loop_true _ _ _ Hrun)).
  - intros collector' Hrun.
    destruct viewDescriptors as [| | | |descriptors|];
      try (injection Hrun as <-; eauto).
    exact (isValidViewDescriptors_loop_false _ _ _ Hrun).
  - intros Hnot. destruct viewDescriptors as [| | | |descriptors|];
      try reflexivity.
    exfalso. exact (Hnot descriptors eq_refl).
  - intros accepted rest Hall. cbn [isValidViewDescriptors].
    induction Hall as [|d accepted' Hd _ IH]; [reflexivity|].
    cbn [app]. rewrite valid_item_step by exact Hd. exact IH.
Qed.

Lemma isValidViewDescriptors_spec_witness :
  isValidViewDescriptors contribution_when_zero [] = Ok (true, [])
  /\ isValidViewDescriptors (JObject []) [] = Ok (false, [requirearray])
  /\ isValidViewDescriptors (JArray [JNull]) [] = Throw TypeError.
Proof.
  destruct (isValidViewDescriptors_spec contribution_when_zero [])
    as (Hvalid & _).
  destruct (isValidViewDescriptors_spec (JObject []) [])
    as (_ & _ & _ & Hnot & _).
  destruct (isValidViewDescriptors_spec (JArray [JNull]) [])
    as (_ & _ & _ & _ & Hnull).
  split; [|split].
  - apply Hvalid. eexists. split; [reflexivity|].
    constructor; [|constructor].
    eexists _, _, _. split; [reflexivity|]. split; [reflexivity|].
    split; [reflexivity|]. intros H. discriminate H.
  - apply Hnot. intros descriptors H. discriminate H.
  - exact (Hnull [] [] ltac:(constructor)).
Defined.

(** X22: the views the handler registers for an entry have fresh,
    pairwise different ids.  Given that [coalesce] drops the [null]s of an
    array and keeps the other elements in order, the descriptors handed to
    [ViewsRegistry.registerViews] have pairwise different ids, none of which
    is the id of a view registered for the location; their ids are the ids
    of the contributed items that are not registered, each at its first
    occurrence; each has the name and the deserialized [when] of such an
    item, may be toggled, declares no order and is collapsed as
    [showCollapsed] says for the location; every contributed item that is
    left out is reported with one error; and an entry whose key names no
    location goes to the Explorer with one warning. *)
Theorem register_entry_distinct_ids {ViewLocation : Type}
    `{EqDecision ViewLocation}
    (Explorer Debug SCM : ViewLocation)
    (ViewLocation_get : string -> option ViewLocation)
    (location_id : ViewLocation -> string)
    (getViews : ViewLocation -> list IViewDescriptor)
    (deserialize : option json -> option ContextKeyExpr)
    (coalesce : list (option IViewDescriptor) -> list IViewDescriptor)
    (key : string) (value : list IUserFriendlyViewDescriptor)
    (collector : list ExtensionMessage)
    (Hcoalesce : forall array, coalesce array = somes array) :
  let r := register_entry Explorer Debug SCM ViewLocation_get location_id getViews
             deserialize coalesce key value collector in
  let location := fst (fst r) in
  let registered := snd (fst r) in
  let collector' := snd r in
  location = match getViewLocation Explorer Debug SCM ViewLocation_get key with
             | Some l => l
             | None => Explorer
             end
  /\ NoDup (map vd_id registered)
  /\ (forall vd, vd ∈ registered -> vd_id vd ∉ map vd_id (getViews location))
  /\ map vd_id registered
     = first_occurrences []
         (List.filter (fun x => negb (bool_decide (x ∈ map vd_id (getViews location))))
                      (map uf_id value))
  /\ Forall (fun vd => vd_canToggleVisibility vd = true
                       /\ vd_order vd = None
                       /\ vd_collapsed vd
                          = Some (showCollapsed Explorer Debug SCM location)
                       /\ exists item, item ∈ value
                                       /\ vd_id vd = uf_id item
                                       /\ vd_name vd = uf_name item
                                       /\ vd_when vd = deserialize (uf_when item))
            registered
  /\ (length collector' + length registered
      = length collector + length value
        + match getViewLocation Explorer Debug SCM ViewLocation_get key with
          | Some _ => 0
          | None => 1
          end)%nat.
Proof.
  intros r location registered collector'.
  subst r location registered collector'. unfold register_entry.
  set (loc := match getViewLocation Explorer Debug SCM ViewLocation_get key with
              | Some l => l
              | None => Explorer
              end).
  set (c0 := match getViewLocation Explorer Debug SCM ViewLocation_get key with
             | Some _ => collector
             | None => collector ++ [ViewContainerDoesnotExist key]
             end).
  assert (Hpair : match getViewLocation Explorer Debug SCM ViewLocation_get key with
                  | Some location => (location, collector)
                  | None => (Explorer, collector ++ [ViewContainerDoesnotExist key])
                  end = (loc, c0)).
  { subst loc c0. destruct (getViewLocation _ _ _ _ _); reflexivity. }
  rewrite Hpair.
  pose proof (map_items_spec Explorer Debug SCM location_id deserialize loc
                (getViews loc) value [] c0) as Hspec.
  cbn zeta in Hspec.
  destruct (map_items Explorer Debug SCM location_id deserialize loc (getViews loc)
              value [] c0) as [mapped c1].
  cbn [fst snd] in *. rewrite Hcoalesce.
  destruct Hspec as (_ & Hids & Hall & Hcount).
  destruct (first_occurrences_spec
              (List.filter (fun x => negb (bool_decide (x ∈ map vd_id (getViews loc))))
                           (map uf_id value)) []) as [Hnd Hiff].
  split; [reflexivity|]. split; [rewrite Hids; exact Hnd|].
  split; [|split; [exact Hids|split; [exact Hall|]]].
  - intros vd Hvd Hreg.
    assert (Hin : vd_id vd ∈ map vd_id (somes mapped)).
    { apply list_elem_of_fmap. exists vd. auto. }
    rewrite Hids in Hin. apply Hiff in Hin as [Hin _].
    apply list_elem_of_In, filter_In in Hin as [_ Hf].
    apply negb_true_iff, bool_decide_eq_false in Hf. exact (Hf Hreg).
  - subst c0. destruct (getViewLocation _ _ _ _ _).
    + lia.
    + rewrite length_app in Hcount. simpl in Hcount. lia.
Qed.

Lemma register_entry_distinct_ids_witness :
  (forall array : list (option IViewDescriptor), somes array = somes array)
  /\ map vd_id
       (snd (fst (register_entry "explorer" "debug" "scm" (fun _ => None)
                    (fun l => l) (fun _ => [view_a]) (fun _ => None) somes
                    "nowhere" contributed_items [])))
     = ["v1"; "v2"]
  /\ snd (register_entry "explorer" "debug" "scm" (fun _ => None)
            (fun l => l) (fun _ => [view_a]) (fun _ => None) somes
            "nowhere" contributed_items [])
     = [ViewContainerDoesnotExist "nowhere"; duplicateView2 "a" "explorer";
        duplicateView1 "v1" "explorer"].
Proof.
  split; [reflexivity|].
  destruct (register_entry_distinct_ids "explorer" "debug" "scm" (fun _ => None)
              (fun l => l) (fun _ => [view_a]) (fun _ => None) somes
              "nowhere" contributed_items [] (fun _ => eq_refl))
    as (_ & _ & _ & Hids & _).
  split; [rewrite Hids; reflexivity|reflexivity].
Defined.

(** ** Round trips of the views model *)

Lemma model_eta (m : ContributableViewsModel) :
  mkModel (viewDescriptors m) (viewStates m) = m.
Proof. destruct m. reflexivity. Qed.

Lemma set_visible_back (s : IViewState) (v : bool) :
  visible s = v -> set_visible v (set_visible (negb v) s) = s.
Proof. intros <-. destruct s. reflexivity. Qed.







(** ** Round trips of the views model *)

(** X24: hiding a visible view and showing it again.  In a model whose
    listed descriptors all have a state and whose ids are pairwise
    different, for a listed descriptor that may be toggled and is visible:
    [setVisible(id, false)] fires one remove event at the descriptor's
    position among the visible ones, [setVisible(id, true)] afterwards fires
    one add event at the same position, carrying the size and the collapsed
    flag of the state, and the model is then exactly as it was. *)
Theorem setVisible_toggle_roundtrip (m : ContributableViewsModel) (i : nat)
    (vd : IViewDescriptor) (s : IViewState)
    (Hcover : states_cover m)
    (Hnodup : NoDup (map vd_id (viewDescriptors m)))
    (Hvd : viewDescriptors m !! i = Some vd)
    (Htoggle : vd_canToggleVisibility vd = true)
    (Hs : viewStates m !! vd_id vd = Some s)
    (Hvisible : visible s = true) :
  let k := length (visible_of (viewStates m) (take i (viewDescriptors m))) in
  exists m1,
    setVisible (vd_id vd) false m = Ok (m1, [DidRemove k vd])
    /\ isVisible m1 (vd_id vd) = Ok false
    /\ setVisible (vd_id vd) true m1
       = Ok (m, [DidAdd k vd (size s) (collapsed s)]).
Proof.
  intros k.
  destruct (find_at m i vd Hcover Hnodup Hvd) as (s0 & Hs0 & Hf).
  rewrite Hs in Hs0. injection Hs0 as <-. fold k in Hf.
  exists (update_state m vd (set_visible false s)).
  split; [|split].
  - rewrite (setVisible_found m (vd_id vd) false _ s Hf eq_refl).
    cbn [f_viewDescriptor f_visibleIndex]. rewrite Htoggle, Hvisible. reflexivity.
  - unfold isVisible, update_state. cbn [viewStates].
    rewrite lookup_insert_eq. reflexivity.
  - assert (Hf1 : find (update_state m vd (set_visible false s)) (vd_id vd)
                  = Ok (mkFound i k vd (Some (set_visible false s)))).
    { unfold find, update_state. cbn [viewStates viewDescriptors].
      unfold find in Hf. rewrite (find_from_insert _ _ _ _ _ _ _ Hf). reflexivity. }
    rewrite (setVisible_found _ (vd_id vd) true _ _ Hf1 eq_refl).
    cbn [f_viewDescriptor f_visibleIndex set_visible visible size collapsed].
    rewrite Htoggle. cbn [negb Bool.eqb].
    unfold update_state. cbn [viewStates viewDescriptors].
    rewrite insert_insert_eq.
    pose proof (set_visible_back s true Hvisible) as Hback.
    cbn [negb set_visible visible collapsed order size] in Hback.
    rewrite Hback, (insert_id _ _ _ Hs), model_eta. reflexivity.
Qed.

Lemma setVisible_toggle_roundtrip_witness :
  states_cover model_a_hidden
  /\ NoDup (map vd_id (viewDescriptors model_a_hidden))
  /\ viewDescriptors model_a_hidden !! 1%nat = Some view_b
  /\ vd_canToggleVisibility view_b = true
  /\ viewStates model_a_hidden !! vd_id view_b = Some default_state
  /\ visible default_state = true
  /\ exists m1,
      setVisible "b" false model_a_hidden = Ok (m1, [DidRemove 0 view_b])
      /\ setVisible "b" true m1 = Ok (model_a_hidden, [DidAdd 0 view_b None false]).
Proof.
  assert (Hcover : states_cover model_a_hidden).
  { repeat constructor; vm_compute; eauto. }
  assert (Hnd : NoDup (map vd_id (viewDescriptors model_a_hidden))).
  { apply NoDup_ListNoDup. repeat constructor; simpl; intuition discriminate. }
  split; [exact Hcover|]. split; [exact Hnd|].
  split; [reflexivity|]. split; [reflexivity|]. split; [reflexivity|].
  split; [reflexivity|].
  destruct (setVisible_toggle_roundtrip model_a_hidden 1 view_b default_state
              Hcover Hnd eq_refl eq_refl eq_refl eq_refl)
    as (m1 & Hhide & _ & Hshow).
  exists m1. split; [exact Hhide|exact Hshow].
Defined.



(** X26: a restart restores the model, over every number an order or a size
    can be.  Take a persistent model whose stored orders and sizes are
    finite numbers, [null] or absent, whose listed descriptors all have a
    state and an order that is not [NaN], and whose list is in canonical
    order with pairwise different ids.  After it has saved its states, a
    persistent model constructed for the same store key, in a workbench
    state that selects the same scope, over the same active descriptors in
    whatever order, is the model that was saved, list and states; and its
    constructor fires one add event for each visible descriptor, in the
    order of the saved list, at the indices [0], [1], [2], ..., and none for
    a hidden one. *)
Theorem restart_restores_model (p : AnyNumber.PersistentContributableViewsModel)
    (storageService : IStorageService)
    (active_descriptors : list AnyNumber.IViewDescriptor)
    (workbenchState' : WorkbenchState)
    (Hscope : scope_of workbenchState' = scope_of (AnyNumber.workbenchState p))
    (Hfinite : forall id s,
        AnyNumber.viewStates (AnyNumber.base_model p) !! id = Some s ->
        finite_state s)
    (Hcover : any_covered (AnyNumber.viewStates (AnyNumber.base_model p))
                (AnyNumber.viewDescriptors (AnyNumber.base_model p)))
    (Hordered : Forall (ordered (AnyNumber.viewStates (AnyNumber.base_model p)))
                  (AnyNumber.viewDescriptors (AnyNumber.base_model p)))
    (Hsorted : Sorted (any_key_le (AnyNumber.viewStates (AnyNumber.base_model p)))
                 (AnyNumber.viewDescriptors (AnyNumber.base_model p)))
    (Hnodup : NoDup (map AnyNumber.vd_id
                       (AnyNumber.viewDescriptors (AnyNumber.base_model p))))
    (Hsame : active_descriptors
             ≡ₚ AnyNumber.viewDescriptors (AnyNumber.base_model p)) :
  let states := AnyNumber.viewStates (AnyNumber.base_model p) in
  let stored := AnyNumber.viewDescriptors (AnyNumber.base_model p) in
  AnyNumber.new_persistent_model active_descriptors
    (AnyNumber.viewletStateStorageId p)
    (AnyNumber.saveViewsStates p storageService) workbenchState'
  = Some (Ok (AnyNumber.mkPersistent (AnyNumber.base_model p)
                (AnyNumber.viewletStateStorageId p) workbenchState',
              any_add_list states 0 (any_visible_of states stored))).
Proof.
  intros states stored.
  unfold AnyNumber.new_persistent_model, AnyNumber.saveViewsStates.
  rewrite Hscope, storage_get_store, any_load_states_saved.
  rewrite (persisted_states_finite _ Hfinite). fold states.
  destruct (any_new_model_ok active_descriptors states) as (events & Hevents & Hnew).
  cbv zeta in Hevents, Hnew.
  rewrite (any_js_sort_settles states active_descriptors stored
             Hordered Hsorted Hnodup Hsame) in Hevents, Hnew.
  rewrite (any_add_default_states_covered stored states Hcover) in Hevents, Hnew.
  rewrite (any_add_events_run states 0 stored Hcover) in Hevents.
  injection Hevents as <-.
  rewrite Hnew. cbn [mbind result_bind mret result_ret].
  subst states stored. destruct p as [[l s] k w]. reflexivity.
Qed.

Lemma restart_restores_model_witness :
  scope_of WORKSPACE_STATE = scope_of FOLDER
  /\ (forall id s,
        AnyNumber.viewStates any_model_a_hidden !! id = Some s -> finite_state s)
  /\ any_covered (AnyNumber.viewStates any_model_a_hidden)
       (AnyNumber.viewDescriptors any_model_a_hidden)
  /\ Forall (ordered (AnyNumber.viewStates any_model_a_hidden))
       (AnyNumber.viewDescriptors any_model_a_hidden)
  /\ Sorted (any_key_le (AnyNumber.viewStates any_model_a_hidden))
       (AnyNumber.viewDescriptors any_model_a_hidden)
  /\ NoDup (map AnyNumber.vd_id (AnyNumber.viewDescriptors any_model_a_hidden))
  /\ [any_view "b" None; any_view "a" None]
     ≡ₚ AnyNumber.viewDescriptors any_model_a_hidden
  /\ AnyNumber.new_persistent_model [any_view "b" None; any_view "a" None]
       "viewlet.state"
       (AnyNumber.saveViewsStates
          (AnyNumber.mkPersistent any_model_a_hidden "viewlet.state" FOLDER)
          (mkStorage ∅ ∅)) WORKSPACE_STATE
     = Some (Ok (AnyNumber.mkPersistent any_model_a_hidden "viewlet.state"
                   WORKSPACE_STATE,
                 [AnyNumber.DidAdd 0 (any_view "b" None)
                    (AnyNumber.Number (Num 120)) false])).
Proof.
  assert (Hfinite : forall id s,
             AnyNumber.viewStates any_model_a_hidden !! id = Some s ->
             finite_state s).
  { intros id s Hs. cbn [any_model_a_hidden AnyNumber.viewStates] in Hs.
    destruct (decide (id = "a")) as [->|Ha].
    - rewrite lookup_insert_eq in Hs. injection Hs as <-. split; exact I.
    - rewrite lookup_insert_ne in Hs by congruence.
      destruct (decide (id = "b")) as [->|Hb].
      + rewrite lookup_insert_eq in Hs. injection Hs as <-. split; exact I.
      + rewrite lookup_insert_ne, lookup_empty in Hs by congruence. discriminate. }
  assert (Hcover : any_covered (AnyNumber.viewStates any_model_a_hidden)
                     (AnyNumber.viewDescriptors any_model_a_hidden)).
  { repeat constructor; vm_compute; eauto. }
  assert (Hordered : Forall (ordered (AnyNumber.viewStates any_model_a_hidden))
                       (AnyNumber.viewDescriptors any_model_a_hidden)).
  { repeat constructor; vm_compute; discriminate. }
  assert (Hsorted : Sorted (any_key_le (AnyNumber.viewStates any_model_a_hidden))
                      (AnyNumber.viewDescriptors any_model_a_hidden)).
  { repeat constructor. }
  assert (Hnd : NoDup (map AnyNumber.vd_id
                         (AnyNumber.viewDescriptors any_model_a_hidden))).
  { apply NoDup_ListNoDup. repeat constructor; simpl; intuition discriminate. }
  assert (Hp : [any_view "b" None; any_view "a" None]
               ≡ₚ AnyNumber.viewDescriptors any_model_a_hidden).
  { apply Permutation_swap. }
  split; [reflexivity|]. split; [exact Hfinite|]. split; [exact Hcover|].
  split; [exact Hordered|]. split; [exact Hsorted|]. split; [exact Hnd|].
  split; [exact Hp|].
  exact (restart_restores_model
           (AnyNumber.mkPersistent any_model_a_hidden "viewlet.state" FOLDER)
           (mkStorage ∅ ∅) [any_view "b" None; any_view "a" None] WORKSPACE_STATE
           eq_refl Hfinite Hcover Hordered Hsorted Hnd Hp).
Defined.

(** ** The covering invariant, for the calls that return *)


